(** * Dublettenbereinigung: the optimized duplicate checker

    A shallow embedding of [duplicate_checker_optimized.py]: the text
    normalizers, the blocking keys and blocks, the two business rules, the
    name comparison, the two-stage block worker, the orchestrator and the
    export, with the summary of [run_optimized_analysis.py], followed by
    the properties of the pipeline.

    Conventions.
    - A Python [str] is a list of Unicode code points ([pystr]); the
      literal [u "..."] decodes the UTF-8 bytes of a Rocq string.
    - A cell of the data frame is a [value]: [None], [NaN] or a string.
      Every use of a cell in the source goes through [pd.isna] and [str],
      so a number is represented by its [str] rendering.
    - Python floats are modelled by rationals ([Q]): the rounding of a
      float is left out, so that two scores that are equal here can
      differ in their last bit in the source.
    - Exceptions are values of [result]; a [try/except] is a [match].
    - What the source imports from other packages (rapidfuzz, unidecode,
      cologne_phonetics) and the parts of CPython driven by the Unicode
      database are fields of the class [Externals]. *)

From Stdlib Require Import List NArith ZArith QArith Qminmax Bool String Ascii.
From Stdlib Require Import DecimalString.
From Stdlib Require Import Lia Lqa Permutation Sorted.
Import ListNotations.

Set Implicit Arguments.
Local Open Scope N_scope.

(** ** Python strings *)

Definition cp := N.
Definition pystr := list cp.

Fixpoint utf8_decode (bs : list N) : pystr :=
  match bs with
  | [] => []
  | b :: rest =>
      if b <? 128 then b :: utf8_decode rest
      else match rest with
        | [] => [b]
        | b2 :: rest2 =>
            if b <? 224 then ((b - 192) * 64 + (b2 - 128)) :: utf8_decode rest2
            else match rest2 with
              | [] => [b]
              | b3 :: rest3 =>
                  if b <? 240
                  then ((b - 224) * 4096 + (b2 - 128) * 64 + (b3 - 128)) :: utf8_decode rest3
                  else match rest3 with
                    | [] => [b]
                    | b4 :: rest4 =>
                        ((b - 240) * 262144 + (b2 - 128) * 4096
                         + (b3 - 128) * 64 + (b4 - 128)) :: utf8_decode rest4
                    end
              end
        end
  end.

Definition u (s : string) : pystr :=
  utf8_decode (map N_of_ascii (list_ascii_of_string s)).

Definition str_eqb (a b : pystr) : bool :=
  if list_eq_dec N.eq_dec a b then true else false.

(** Truth value of a string: [if s:] holds for the non-empty ones. *)
Definition truthy (s : pystr) : bool :=
  match s with [] => false | _ => true end.

(** [Py_UNICODE_ISSPACE]: the characters removed by [str.strip()] and
    matched by [\s] in a [str] pattern. *)
Definition is_space (c : cp) : bool :=
  ((9 <=? c) && (c <=? 13)) || ((28 <=? c) && (c <=? 32))
  || (c =? 133) || (c =? 160) || (c =? 5760)
  || ((8192 <=? c) && (c <=? 8202))
  || (c =? 8232) || (c =? 8233) || (c =? 8239) || (c =? 8287) || (c =? 12288).

Definition is_ascii (c : cp) : bool := c <? 128.
Definition is_ascii_digit (c : cp) : bool := (48 <=? c) && (c <=? 57).
Definition is_az (c : cp) : bool := (97 <=? c) && (c <=? 122).
Definition is_AZ (c : cp) : bool := (65 <=? c) && (c <=? 90).
Definition ascii_lower (c : cp) : cp := if is_AZ c then c + 32 else c.

Fixpoint lstrip (s : pystr) : pystr :=
  match s with
  | c :: rest => if is_space c then lstrip rest else s
  | [] => []
  end.

Definition rstrip (s : pystr) : pystr := rev (lstrip (rev s)).

(** [s.strip()] *)
Definition strip (s : pystr) : pystr := rstrip (lstrip s).

Fixpoint starts_with (p s : pystr) : bool :=
  match p, s with
  | [], _ => true
  | a :: p', b :: s' => (a =? b) && starts_with p' s'
  | _ :: _, [] => false
  end.

(** [s.endswith(p)] *)
Definition endswith (s p : pystr) : bool := starts_with (rev p) (rev s).

(** [s.replace(old, new)] for a one-character [old]. *)
Definition replace_char (old : cp) (new : pystr) (s : pystr) : pystr :=
  flat_map (fun c => if c =? old then new else [c]) s.

(** [s.zfill(width)] on a string without sign. *)
Definition zfill (width : nat) (s : pystr) : pystr :=
  repeat 48 (width - List.length s) ++ s.

(** [s[:n]] *)
Definition slice_to (n : nat) (s : pystr) : pystr := firstn n s.

(** *** The regular expressions of the source

    [$] holds at the end of the string and before a final newline. *)
Definition at_end (s : pystr) : bool :=
  match s with
  | [] => true
  | [c] => c =? 10
  | _ => false
  end.

Fixpoint skip_while (p : cp -> bool) (s : pystr) : pystr :=
  match s with
  | c :: rest => if p c then skip_while p rest else s
  | [] => []
  end.

(** A pattern of the suffix map: the literal text [lit], then [.] when
    [dot] is set (any character but a newline), then [$]. A match at the
    head of [s] gives what follows it. *)
Definition match_suffix (lit : pystr) (dot : bool) (s : pystr) : option pystr :=
  if starts_with lit s then
    let r := skipn (List.length lit) s in
    if dot then
      match r with
      | c :: r' => if negb (c =? 10) && at_end r' then Some r' else None
      | [] => None
      end
    else if at_end r then Some r else None
  else None.

(** [re.sub] of such a pattern by [new]: the leftmost match is replaced;
    what follows a match is empty or the final newline, where a pattern
    that starts with a letter does not match again. *)
Fixpoint sub_suffix (lit : pystr) (dot : bool) (new : pystr) (s : pystr) : pystr :=
  match s with
  | [] => []
  | c :: rest =>
      match match_suffix lit dot s with
      | Some r => new ++ r
      | None => c :: sub_suffix lit dot new rest
      end
  end.

(** [[^a-z\s]] removed, and [\s+] replaced by one space. *)
Definition keep_az_space (s : pystr) : pystr :=
  filter (fun c => is_az c || is_space c) s.

Fixpoint collapse_ws_from (in_ws : bool) (s : pystr) : pystr :=
  match s with
  | [] => []
  | c :: rest =>
      if is_space c
      then (if in_ws then collapse_ws_from true rest else 32 :: collapse_ws_from true rest)
      else c :: collapse_ws_from false rest
  end.

Definition collapse_ws (s : pystr) : pystr := collapse_ws_from false s.

(** ** Cells of the data frame *)

Inductive value :=
| VNone
| VNaN
| VStr (s : pystr).

(** [pd.isna(v)] *)
Definition isna (v : value) : bool :=
  match v with VStr _ => false | _ => true end.

(** [str(v)] *)
Definition str (v : value) : pystr :=
  match v with
  | VNone => u "None"
  | VNaN => u "nan"
  | VStr s => s
  end.

(** [series.fillna('').astype(str)], on one cell. *)
Definition fillna_str (v : value) : pystr :=
  match v with VStr s => s | _ => [] end.

(** ** Exceptions *)

Inductive exn := ZeroDivisionError | IndexError | ValueError.

Inductive result (A : Type) :=
| Ok (a : A)
| Raise (e : exn).
Arguments Ok {A} a.
Arguments Raise {A} e.

Definition bind {A B} (r : result A) (k : A -> result B) : result B :=
  match r with
  | Ok a => k a
  | Raise e => Raise e
  end.

Notation "x <- r ;; k" := (bind r (fun x => k))
  (at level 61, r at next level, right associativity).

(** A [for] loop over [l] whose body updates the state [s]. *)
Fixpoint for_each {A S} (l : list A) (body : A -> S -> result S) (s : S) : result S :=
  match l with
  | [] => Ok s
  | a :: rest => s' <- body a s ;; for_each rest body s'
  end.

(** [range(a, b)] *)
Definition range (a b : nat) : list nat := seq a (b - a).

(** [l[i]] *)
Definition getitem {A} (l : list A) (i : nat) : result A :=
  match nth_error l i with
  | Some a => Ok a
  | None => Raise IndexError
  end.

(** [a / b] on integers *)
Definition truediv (a b : Z) : result Q :=
  if (b =? 0)%Z then Raise ZeroDivisionError
  else Ok (Qmake a (Z.to_pos b)).

(** ** External functions

    - [unicode_lower]: [str.lower()] on a string that is not pure ASCII
      (CPython lowers pure ASCII strings by a separate path, below);
    - [unicode_decimal]: the digit value of a non-ASCII character of
      category Nd, which [\d] matches and [int] reads;
    - [unidecode_table]: the transliteration table of the unidecode
      package for the code points from U+0080;
    - [QRatio]: [rapidfuzz.fuzz.QRatio], a float between 0 and 100;
    - [cologne_encode]: [cologne_phonetics.encode], a list of
      (word, code) pairs, [None] when it raises;
    - [float_int]: [int(float(s))], [None] when either raises;
    - [max_pool_workers]: the bound that [ProcessPoolExecutor] puts on
      [max_workers], 61 on Windows and none elsewhere. *)
Class Externals := {
  unicode_lower : pystr -> pystr;
  unicode_decimal : cp -> option Z;
  unidecode_table : cp -> pystr;
  QRatio : pystr -> pystr -> Q;
  cologne_encode : pystr -> option (list (pystr * pystr));
  float_int : pystr -> option Z;
  max_pool_workers : option Z
}.

Section Text.
Context {E : Externals}.

(** [s.lower()] *)
Definition lower (s : pystr) : pystr :=
  if forallb is_ascii s then map ascii_lower s else unicode_lower s.

(** [unidecode(s)]: an ASCII string is returned as it is, any other is
    transliterated character by character. *)
Definition unidecode (s : pystr) : pystr :=
  if forallb is_ascii s then s
  else flat_map (fun c => if is_ascii c then [c] else unidecode_table c) s.

(** [\d] *)
Definition is_digit (c : cp) : bool :=
  is_ascii_digit c ||
  (negb (is_ascii c) && match unicode_decimal c with Some _ => true | None => false end).

Definition digit_value (c : cp) : Z :=
  if is_ascii_digit c then Z.of_N c - 48
  else match unicode_decimal c with Some v => v | None => 0%Z end.

(** [int(s)] for a string of digits. *)
Definition int_of_digits (s : pystr) : Z :=
  fold_left (fun acc c => (10 * acc + digit_value c)%Z) s 0%Z.

(** [re.search(r'(\d{4})', s)]: the first four digits in a row. *)
Fixpoint search_4digits (s : pystr) : option pystr :=
  match s with
  | [] => None
  | _ :: rest =>
      let g := firstn 4 s in
      if (4 <=? List.length g)%nat && forallb is_digit g then Some g
      else search_4digits rest
  end.

(** [\s+\d+[a-z]*$] at the head of [s]; a match gives what follows it. *)
Definition match_house_end (s : pystr) : option pystr :=
  match s with
  | w :: _ =>
      if is_space w then
        match skip_while is_space s with
        | d :: r1 =>
            if is_digit d then
              let r3 := skip_while is_az (skip_while is_digit (d :: r1)) in
              if at_end r3 then Some r3 else None
            else None
        | [] => None
        end
      else None
  | [] => None
  end.

(** [re.sub(r'\s+\d+[a-z]*$', '', s)] *)
Fixpoint sub_house_end (s : pystr) : pystr :=
  match s with
  | [] => []
  | c :: rest =>
      match match_house_end s with
      | Some r => r
      | None => c :: sub_house_end rest
      end
  end.

(** [re.sub(r'^\d+[a-z]*\s+', '', s)] *)
Definition sub_house_start (s : pystr) : pystr :=
  match s with
  | d :: _ =>
      if is_digit d then
        match skip_while is_az (skip_while is_digit s) with
        | w :: r => if is_space w then skip_while is_space (w :: r) else s
        | [] => s
        end
      else s
  | [] => s
  end.

End Text.

(** ** VectorizedAddressNormalizer

    The pandas pipelines work cell by cell; each function below is the
    pipeline on one cell. *)
Section Normalizer.
Context {E : Externals}.

Definition normalize_plz_vectorized (plz : value) : pystr :=
  slice_to 5 (zfill 5 (filter is_digit (fillna_str plz))).

(** [suffix_map], in the order of the dict; the key is used as a regular
    expression, so the dot of ['str.'] stands for any character. *)
Definition suffix_map : list (pystr * bool * pystr) :=
  [ (u "str", true, u "strasse");
    (u "straße", false, u "strasse");
    (u "str", false, u "strasse");
    (u "weg", false, u "weg");
    (u "allee", false, u "allee");
    (u "platz", false, u "platz");
    (u "gasse", false, u "gasse");
    (u "ring", false, u "ring") ].

Definition replace_suffixes (s : pystr) : pystr :=
  fold_left (fun acc '(lit, dot, new) => sub_suffix lit dot new acc) suffix_map s.

Definition normalize_street_vectorized (street : value) : pystr :=
  let streets := lower (strip (fillna_str street)) in
  let streets := replace_suffixes streets in
  let streets := sub_house_end streets in
  let streets := sub_house_start streets in
  let streets := replace_char 223 (u "ss") streets in
  let streets := if truthy streets then unidecode streets else [] in
  let streets := keep_az_space streets in
  strip (collapse_ws streets).

Definition normalize_name_vectorized (name : value) : pystr :=
  let names := lower (strip (fillna_str name)) in
  let names := replace_char 223 (u "ss") names in
  let names := if truthy names then unidecode names else [] in
  strip (collapse_ws names).

(** [get_cologne_phonetic] *)
Definition get_cologne_phonetic (name : value) : pystr :=
  if isna name || negb (truthy (strip (str name))) then []
  else match cologne_encode (strip (str name)) with
       | Some ((_, code) :: _) => code
       | _ => []
       end.

End Normalizer.

(** ** Records

    A row carries the ten columns of the query of
    [run_optimized_analysis.py]. *)
Record record := {
  Name : value;
  Vorname : value;
  Name2 : value;
  Strasse : value;
  HausNummer : value;
  Plz : value;
  Ort : value;
  Crefo : value;
  Geburtstag : value;
  Jahrgang : value
}.

(** ** Blocking keys *)
Section Blocking.
Context {E : Externals}.

(** [OptimizedBlockingStrategy.create_blocking_keys_vectorized], for one
    row. The three masks exclude each other. *)
Definition standard_blocking_key (r : record) : pystr :=
  let plz_norm := normalize_plz_vectorized (Plz r) in
  let street_norm := normalize_street_vectorized (Strasse r) in
  let has_both := negb (str_eqb plz_norm []) && negb (str_eqb street_norm []) in
  let has_plz_only := negb (str_eqb plz_norm []) && str_eqb street_norm [] in
  let has_street_only := str_eqb plz_norm [] && negb (str_eqb street_norm []) in
  if has_both then plz_norm ++ u "_" ++ street_norm
  else if has_plz_only then u "plz_only_" ++ plz_norm
  else if has_street_only then u "street_only_" ++ street_norm
  else u "no_address".

(** [PhoneticBlockingStrategy.create_blocking_keys_vectorized], for one
    row. *)
Definition phonetic_blocking_key (r : record) : pystr :=
  let standard_key := standard_blocking_key r in
  let vorname_phon := get_cologne_phonetic (Vorname r) in
  let name_phon := get_cologne_phonetic (Name r) in
  let no_address_mask := str_eqb standard_key (u "no_address") in
  if no_address_mask then u "phon_" ++ vorname_phon ++ u "_" ++ name_phon
  else standard_key.

(** The strategy chosen by [UltraFastDuplicateChecker.__init__]. *)
Definition blocking_key (use_phonetic : bool) (r : record) : pystr :=
  if use_phonetic then phonetic_blocking_key r else standard_blocking_key r.

End Blocking.

(** ** FastBusinessRules *)
Section Rules.
Context {E : Externals}.

Definition extract_year (date_str : value) : option Z :=
  if isna date_str || str_eqb (strip (str date_str)) [] then None
  else match search_4digits (strip (str date_str)) with
       | Some g => Some (int_of_digits g)
       | None => None
       end.

(** The four normalized fields of [check_zweitname]. *)
Definition norm_field (v : value) : pystr :=
  if negb (isna v) then lower (strip (str v)) else [].

Definition check_zweitname (name_a name2_a name_b name2_b : value) : bool :=
  let norm_name_a := norm_field name_a in
  let norm_name2_a := norm_field name2_a in
  let norm_name_b := norm_field name_b in
  let norm_name2_b := norm_field name2_b in
  if truthy norm_name2_a && truthy norm_name2_b then str_eqb norm_name2_a norm_name2_b
  else if negb (truthy norm_name2_a) && negb (truthy norm_name2_b) then true
  else if truthy norm_name2_a && negb (truthy norm_name2_b)
       then endswith norm_name_b norm_name2_a
  else if truthy norm_name2_b && negb (truthy norm_name2_a)
       then endswith norm_name_a norm_name2_b
  else true.

(** Truth value of an optional integer: [None] and [0] are false. *)
Definition truthy_int (o : option Z) : bool :=
  match o with
  | Some z => negb (z =? 0)%Z
  | None => false
  end.

Definition is_None (o : option Z) : bool :=
  match o with None => true | Some _ => false end.

Definition parse_jahrgang (jahrgang : value) : option Z :=
  if negb (isna jahrgang) && truthy (strip (str jahrgang))
  then float_int (strip (str jahrgang))
  else None.

Definition effective_year (geburtstag jahrgang : value) : option Z :=
  let year := extract_year geburtstag in
  let jg := parse_jahrgang jahrgang in
  if truthy_int year then year else jg.

Definition check_date_rule (geburtstag_a jahrgang_a geburtstag_b jahrgang_b : value) : bool :=
  let effective_a := effective_year geburtstag_a jahrgang_a in
  let effective_b := effective_year geburtstag_b jahrgang_b in
  if truthy_int effective_a && truthy_int effective_b
  then match effective_a, effective_b with
       | Some a, Some b => (a =? b)%Z
       | _, _ => false
       end
  else if is_None effective_a && is_None effective_b then true
  else false.

End Rules.

(** ** OptimizedFuzzyMatcher *)

(** The dictionary returned by [compare_names]; [phonetic_assisted] is
    the key the worker adds, read with the default [False]. *)
Record name_results := {
  normal_score : Q;
  swapped_score : Q;
  best_score : Q;
  is_swapped : bool;
  phonetic_assisted : bool
}.

(** Comparisons of floats as booleans. *)
Definition Qltb (a b : Q) : bool := negb (Qle_bool b a).
Definition Qgeb (a b : Q) : bool := Qle_bool b a.

(** [max(a, b)] and [min(a, b)]: the second argument only when it is
    strictly greater (smaller). *)
Definition py_max (a b : Q) : Q := if Qltb a b then b else a.
Definition py_min (a b : Q) : Q := if Qltb b a then b else a.

Section Matcher.
Context {E : Externals}.

Definition normalize_name (name : value) : pystr :=
  if isna name then []
  else
    let name := lower (strip (str name)) in
    let name := replace_char 223 (u "ss") name in
    let name := replace_char 252 (u "ue") name in
    let name := replace_char 228 (u "ae") name in
    let name := replace_char 246 (u "oe") name in
    let name := unidecode name in
    strip (collapse_ws name).

Definition compare_names (vorname_a name_a vorname_b name_b : value) : name_results :=
  let v_a := normalize_name vorname_a in
  let n_a := normalize_name name_a in
  let v_b := normalize_name vorname_b in
  let n_b := normalize_name name_b in
  if negb (truthy v_a) || negb (truthy n_a) || negb (truthy v_b) || negb (truthy n_b)
  then {| normal_score := 0; swapped_score := 0; best_score := 0;
          is_swapped := false; phonetic_assisted := false |}
  else
    let normal_v := (QRatio v_a v_b / 100)%Q in
    let normal_n := (QRatio n_a n_b / 100)%Q in
    let normal := ((normal_v + normal_n) / 2)%Q in
    let swapped_v := (QRatio v_a n_b / 100)%Q in
    let swapped_n := (QRatio n_a v_b / 100)%Q in
    let swapped := ((swapped_v + swapped_n) / 2)%Q in
    {| normal_score := normal; swapped_score := swapped;
       best_score := py_max normal swapped;
       is_swapped := Qltb normal swapped;
       phonetic_assisted := false |}.

End Matcher.

(** ** The block worker *)

Inductive match_kind :=
| exact_normal
| exact_swapped
| fuzzy_normal
| fuzzy_swapped
| phonetic_assisted_normal
| phonetic_assisted_swapped.

Record details := {
  d_name_results : option name_results;
  address_ratio : Q;
  address_matches : Z;
  total_address_fields : Z
}.

(** A match dictionary. *)
Record match_dict := {
  record_a_idx : Z;
  record_b_idx : Z;
  confidence_score : Q;
  match_type : match_kind;
  match_details : details
}.

(** A block of the data frame after [reset_index(drop=False)]: the rows
    with their original index in the column ['index']. *)
Definition block := list (Z * record).

Definition mem (i : nat) (s : list nat) : bool := existsb (Nat.eqb i) s.
Definition add (i : nat) (s : list nat) : list nat := if mem i s then s else i :: s.

Section Worker.
Context {E : Externals}.

Definition address_fields : list (record -> value) :=
  [Strasse; HausNummer; Plz; Ort].

(** The loop over the address fields: [(address_matches,
    total_address_fields)]. *)
Definition count_address (record_a record_b : record) : Z * Z :=
  fold_left
    (fun '(matches, total) field =>
       let val_a := lower (strip (str (field record_a))) in
       let val_b := lower (strip (str (field record_b))) in
       if truthy val_a && truthy val_b
       then (if str_eqb val_a val_b then (matches + 1)%Z else matches, (total + 1)%Z)
       else (matches, total))
    address_fields (0%Z, 0%Z).

(** [address_matches / max(total_address_fields, 1)] *)
Definition compute_address_ratio (record_a record_b : record) : result Q :=
  let '(matches, total) := count_address record_a record_b in
  truediv matches (Z.max total 1).

(** The state of the loops: the matches so far and [matched_indices]. *)
Definition wstate : Type := list match_dict * list nat.

Definition stage1_pair (blk : block) (i j : nat) (st : wstate) : result wstate :=
  let records := map snd blk in
  let original_indices := map fst blk in
  record_a <- getitem records i ;;
  record_b <- getitem records j ;;
  if negb (check_zweitname (Name record_a) (Name2 record_a) (Name record_b) (Name2 record_b))
  then Ok st
  else if negb (check_date_rule (Geburtstag record_a) (Jahrgang record_a)
                                (Geburtstag record_b) (Jahrgang record_b))
  then Ok st
  else
    let v_a_norm := normalize_name (Vorname record_a) in
    let n_a_norm := normalize_name (Name record_a) in
    let v_b_norm := normalize_name (Vorname record_b) in
    let n_b_norm := normalize_name (Name record_b) in
    if negb (truthy v_a_norm && truthy n_a_norm && truthy v_b_norm && truthy n_b_norm)
    then Ok st
    else
      let is_exact_normal := str_eqb v_a_norm v_b_norm && str_eqb n_a_norm n_b_norm in
      let is_exact_swapped := str_eqb v_a_norm n_b_norm && str_eqb n_a_norm v_b_norm in
      if is_exact_normal || is_exact_swapped then
        let '(matches, total) := count_address record_a record_b in
        ratio <- compute_address_ratio record_a record_b ;;
        let '(confidence, kind) :=
          if is_exact_normal then ((90 + ratio * 10)%Q, exact_normal)
          else ((85 + ratio * 10)%Q, exact_swapped) in
        idx_a <- getitem original_indices i ;;
        idx_b <- getitem original_indices j ;;
        Ok (fst st ++ [ {| record_a_idx := idx_a; record_b_idx := idx_b;
                           confidence_score := confidence; match_type := kind;
                           match_details :=
                             {| d_name_results := None; address_ratio := ratio;
                                address_matches := matches;
                                total_address_fields := total |} |} ],
            add j (add i (snd st)))
      else Ok st.

(** The phonetic fallback for a borderline score: the updated
    [name_results], or [None] for [continue]. *)
Definition phonetic_fallback (record_a record_b : record) (nr : name_results)
  : option name_results :=
  let v_a_phon := get_cologne_phonetic (Vorname record_a) in
  let n_a_phon := get_cologne_phonetic (Name record_a) in
  let v_b_phon := get_cologne_phonetic (Vorname record_b) in
  let n_b_phon := get_cologne_phonetic (Name record_b) in
  let all_codes := truthy v_a_phon && truthy n_a_phon && truthy v_b_phon && truthy n_b_phon in
  let phonetic_match_normal :=
    all_codes && str_eqb v_a_phon v_b_phon && str_eqb n_a_phon n_b_phon in
  let phonetic_match_swapped :=
    all_codes && str_eqb v_a_phon n_b_phon && str_eqb n_a_phon v_b_phon in
  if phonetic_match_normal || phonetic_match_swapped
  then Some {| normal_score := normal_score nr; swapped_score := swapped_score nr;
               best_score := 72 # 100;
               is_swapped := phonetic_match_swapped;
               phonetic_assisted := true |}
  else None.

(** The name gate of stage 2. *)
Definition name_gate (fuzzy_threshold : Q) (record_a record_b : record)
  : option name_results :=
  let nr := compare_names (Vorname record_a) (Name record_a)
                          (Vorname record_b) (Name record_b) in
  if Qltb (best_score nr) fuzzy_threshold then
    if Qle_bool (60 # 100) (best_score nr) && Qltb (best_score nr) fuzzy_threshold
    then phonetic_fallback record_a record_b nr
    else None
  else Some nr.

Definition stage2_confidence (nr : name_results) (ratio : Q) : Q * match_kind :=
  if phonetic_assisted nr then
    if is_swapped nr then ((70 + ratio * 10)%Q, phonetic_assisted_swapped)
    else ((72 + ratio * 10)%Q, phonetic_assisted_normal)
  else
    let base_confidence := (best_score nr * 50)%Q in
    let address_bonus := (ratio * 30)%Q in
    let '(confidence, kind) :=
      if is_swapped nr then ((base_confidence + address_bonus - 5)%Q, fuzzy_swapped)
      else ((base_confidence + address_bonus)%Q, fuzzy_normal) in
    (py_min confidence 95, kind).

Definition stage2_pair (blk : block) (confidence_threshold fuzzy_threshold : Q)
  (i j : nat) (st : wstate) : result wstate :=
  let records := map snd blk in
  let original_indices := map fst blk in
  if mem j (snd st) then Ok st
  else
    record_a <- getitem records i ;;
    record_b <- getitem records j ;;
    if negb (check_zweitname (Name record_a) (Name2 record_a) (Name record_b) (Name2 record_b))
    then Ok st
    else if negb (check_date_rule (Geburtstag record_a) (Jahrgang record_a)
                                  (Geburtstag record_b) (Jahrgang record_b))
    then Ok st
    else
      match name_gate fuzzy_threshold record_a record_b with
      | None => Ok st
      | Some nr =>
          let '(matches, total) := count_address record_a record_b in
          ratio <- compute_address_ratio record_a record_b ;;
          let '(confidence, kind) := stage2_confidence nr ratio in
          if Qgeb confidence confidence_threshold then
            idx_a <- getitem original_indices i ;;
            idx_b <- getitem original_indices j ;;
            Ok (fst st ++ [ {| record_a_idx := idx_a; record_b_idx := idx_b;
                               confidence_score := confidence; match_type := kind;
                               match_details :=
                                 {| d_name_results := Some nr; address_ratio := ratio;
                                    address_matches := matches;
                                    total_address_fields := total |} |} ],
                snd st)
          else Ok st
      end.

Definition stage1 (blk : block) (st : wstate) : result wstate :=
  let block_size := List.length blk in
  for_each (range 0 block_size)
    (fun i st => for_each (range (i + 1) block_size) (stage1_pair blk i) st) st.

Definition stage2 (blk : block) (confidence_threshold fuzzy_threshold : Q) (st : wstate)
  : result wstate :=
  let block_size := List.length blk in
  for_each (range 0 block_size)
    (fun i st =>
       if mem i (snd st) then Ok st
       else for_each (range (i + 1) block_size)
              (stage2_pair blk confidence_threshold fuzzy_threshold i) st) st.

Definition process_block_worker (args : block * Q * Q) : result (list match_dict) :=
  let '(block_data, confidence_threshold, fuzzy_threshold) := args in
  if (List.length block_data <? 2)%nat then Ok []
  else
    st <- stage1 block_data ([], []) ;;
    st <- stage2 block_data confidence_threshold fuzzy_threshold st ;;
    Ok (fst st).

End Worker.

(** ** Blocks *)

(** [a < b] on strings: code point by code point. *)
Fixpoint str_ltb (a b : pystr) : bool :=
  match a, b with
  | _, [] => false
  | [], _ :: _ => true
  | x :: a', y :: b' => (x <? y) || ((x =? y) && str_ltb a' b')
  end.

(** The keys of [groupby]: sorted, each once. *)
Fixpoint insert_key (k : pystr) (ks : list pystr) : list pystr :=
  match ks with
  | [] => [k]
  | k' :: rest =>
      if str_eqb k k' then ks
      else if str_ltb k k' then k :: ks
      else k' :: insert_key k rest
  end.

Definition sorted_keys (ks : list pystr) : list pystr :=
  fold_right insert_key [] ks.

(** [blocks[key] = value] on a dict that keeps the order of insertion. *)
Fixpoint dict_set {V} (d : list (pystr * V)) (key : pystr) (v : V) : list (pystr * V) :=
  match d with
  | [] => [(key, v)]
  | (k, v') :: rest =>
      if str_eqb k key then (k, v) :: rest else (k, v') :: dict_set rest key v
  end.

(** [str(i)] for [i >= 0] *)
Definition decimal (i : nat) : pystr :=
  u (NilZero.string_of_uint (Nat.to_uint i)).

(** [(i, rows[i:i+step])] for [i] in [range(start, start + len(rows), step)]. *)
Fixpoint chunks_from (fuel start step : nat) (rows : block) : list (nat * block) :=
  match fuel, rows with
  | S fuel', _ :: _ =>
      (start, firstn step rows) :: chunks_from fuel' (start + step) step (skipn step rows)
  | _, _ => []
  end.

Section Blocks.
Context {E : Externals}.

(** The data frame: the rows in order. The frame has the default index
    of pandas, as the frame that the runner reads from the database has:
    the index of a row is its position, 0 to n - 1. A frame with other
    index labels (a sample, a filtered frame) is not a [frame]. *)
Definition frame := list record.

Definition indexed (df : frame) : block :=
  combine (map Z.of_nat (seq 0 (List.length df))) df.

(** [df.groupby('blocking_key')]: the groups by ascending key, the rows
    of a group in the order of the frame. *)
Definition groupby (use_phonetic : bool) (df : frame) : list (pystr * block) :=
  let rows := indexed df in
  let key_of (row : Z * record) := blocking_key use_phonetic (snd row) in
  map (fun k => (k, filter (fun row => str_eqb (key_of row) k) rows))
      (sorted_keys (map key_of rows)).

(** The body of the loop over the groups, on [(blocks, total_records)];
    [range] raises on a step of zero. *)
Definition add_group (max_block_size : nat) (g : pystr * block)
  (st : list (pystr * block) * nat) : result (list (pystr * block) * nat) :=
  let '(key, group_df) := g in
  let '(blocks, total_records) := st in
  let block_size := List.length group_df in
  if (1 <? block_size)%nat && (block_size <=? max_block_size)%nat
  then Ok (dict_set blocks key group_df, (total_records + block_size)%nat)
  else if (max_block_size <? block_size)%nat then
    if (max_block_size =? 0)%nat then Raise ValueError
    else
      Ok (fold_left
            (fun '(blocks, total_records) '(i, chunk) =>
               if (1 <? List.length chunk)%nat
               then (dict_set blocks (key ++ u "_chunk_" ++ decimal i) chunk,
                     (total_records + List.length chunk)%nat)
               else (blocks, total_records))
            (chunks_from block_size 0 max_block_size group_df)
            (blocks, total_records))
  else Ok (blocks, total_records).

(** [create_blocks], for a maximal block size that is not negative; the
    log line of the average block size divides by the number of blocks. *)
Definition create_blocks (use_phonetic : bool) (df : frame) (max_block_size : nat)
  : result (list (pystr * block)) :=
  st <- for_each (groupby use_phonetic df) (add_group max_block_size) ([], 0%nat) ;;
  let '(blocks, total_records) := st in
  _ <- truediv (Z.of_nat total_records) (Z.of_nat (List.length blocks)) ;;
  Ok blocks.

End Blocks.

(** ** UltraFastDuplicateChecker *)

(** The default of [create_blocks]: 10,000. *)
Definition default_max_block_size : nat := 100 * 100.

Record checker := {
  fuzzy_threshold : Q;
  use_parallel : bool;
  n_workers : Z;
  use_phonetic : bool
}.

(** [__init__]; an argument that is not passed is [None]. *)
Definition init (fuzzy_threshold : option Q) (use_parallel : option bool)
  (n_workers : option Z) (use_phonetic : option bool) (cpu_count : Z) : checker :=
  {| fuzzy_threshold := match fuzzy_threshold with Some f => f | None => 8 # 10 end;
     use_parallel := match use_parallel with Some b => b | None => true end;
     n_workers := match n_workers with
                  | Some n => if (n =? 0)%Z then Z.max 1 (cpu_count - 1) else n
                  | None => Z.max 1 (cpu_count - 1)
                  end;
     use_phonetic := match use_phonetic with Some b => b | None => true end |}.

(** The checker built by [main] of [run_optimized_analysis.py] from the
    options [--fuzzy-threshold] (default 0.7) and [--no-parallel]. *)
Definition main_checker (arg_fuzzy_threshold : option Q) (no_parallel : bool)
  (cpu_count : Z) : checker :=
  let args_fuzzy_threshold :=
    match arg_fuzzy_threshold with Some f => f | None => 7 # 10 end in
  init (Some args_fuzzy_threshold) (Some (negb no_parallel)) None None cpu_count.

Section Orchestrator.
Context {E : Externals}.

(** A task whose worker raises is logged and adds nothing. *)
Definition task_matches (args : block * Q * Q) : list match_dict :=
  match process_block_worker args with
  | Ok block_matches => block_matches
  | Raise _ => []
  end.

(** [ProcessPoolExecutor(max_workers=n)]: the constructor raises
    [ValueError] for a number of workers that is not positive, and on
    Windows for one above 61. *)
Definition create_pool (max_workers : Z) : result unit :=
  if (max_workers <=? 0)%Z then Raise ValueError
  else match max_pool_workers with
       | Some bound => if (bound <? max_workers)%Z then Raise ValueError else Ok tt
       | None => Ok tt
       end.

(** [analyze_duplicates]. [completion n] is the order in which
    [as_completed] yields the [n] submitted tasks. The pool is created
    outside every [try]. The frame has the default index, and the two
    readings of the clock are taken to differ, so that the log line of
    the processing rate divides by a time that is not zero. *)
Definition analyze_duplicates (self : checker) (completion : nat -> list nat)
  (df : frame) (confidence_threshold : Q) : result (list match_dict) :=
  blocks <- create_blocks (use_phonetic self) df default_max_block_size ;;
  match blocks with
  | [] => Ok []
  | _ =>
      let block_args :=
        map (fun kb => (snd kb, confidence_threshold, fuzzy_threshold self)) blocks in
      if use_parallel self && (10 <? List.length blocks)%nat
      then
        _ <- create_pool (n_workers self) ;;
        Ok (flat_map
              (fun k => match nth_error block_args k with
                        | Some args => task_matches args
                        | None => []
                        end)
              (completion (List.length block_args)))
      else Ok (flat_map task_matches block_args)
  end.

End Orchestrator.

(** ** Export and summary *)

(** The text of a match kind, as the worker writes it to ['match_type']. *)
Definition kind_name (k : match_kind) : pystr :=
  match k with
  | exact_normal => u "exact_normal"
  | exact_swapped => u "exact_swapped"
  | fuzzy_normal => u "fuzzy_normal"
  | fuzzy_swapped => u "fuzzy_swapped"
  | phonetic_assisted_normal => u "phonetic_assisted_normal"
  | phonetic_assisted_swapped => u "phonetic_assisted_swapped"
  end.

(** [str(i)] for an integer. *)
Definition decimal_Z (i : Z) : pystr :=
  match i with
  | Zneg p => u "-" ++ decimal (Pos.to_nat p)
  | _ => decimal (Z.to_nat i)
  end.

(** [df.iloc[i]]: a negative position counts from the end. *)
Definition iloc (df : list record) (i : Z) : result record :=
  let n := Z.of_nat (List.length df) in
  if ((0 <=? i) && (i <? n))%Z then getitem df (Z.to_nat i)
  else if ((- n <=? i) && (i <? 0))%Z then getitem df (Z.to_nat (n + i))
  else Raise IndexError.

(** A row of the exported table. *)
Record export_row := {
  x_match_id : pystr;
  x_confidence : Q;
  x_match_type : match_kind;
  x_position : pystr;
  x_index : Z;
  x_vorname : value;
  x_name : value;
  x_name2 : value;
  x_strasse : value;
  x_hausnummer : value;
  x_plz : value;
  x_ort : value;
  x_crefo : pystr;
  x_geburtstag : value;
  x_jahrgang : value
}.

Section ExportResults.
Context {E : Externals}.

Definition export_side (match_id : pystr) (m : match_dict) (position : pystr)
  (index : Z) (r : record) (crefo : pystr) : export_row :=
  {| x_match_id := match_id;
     x_confidence := confidence_score m;
     x_match_type := match_type m;
     x_position := position;
     x_index := index;
     x_vorname := Vorname r; x_name := Name r; x_name2 := Name2 r;
     x_strasse := Strasse r; x_hausnummer := HausNummer r;
     x_plz := Plz r; x_ort := Ort r;
     x_crefo := crefo;
     x_geburtstag := Geburtstag r; x_jahrgang := Jahrgang r |}.

(** The body of the loop of [export_results]: the two rows of a match. *)
Definition export_match (df : list record) (m : match_dict) : result (list export_row) :=
  record_a <- iloc df (record_a_idx m) ;;
  record_b <- iloc df (record_b_idx m) ;;
  let crefo_a := strip (str (Crefo record_a)) in
  let crefo_b := strip (str (Crefo record_b)) in
  let match_id :=
    if truthy crefo_a && truthy crefo_b then crefo_a ++ u "_" ++ crefo_b
    else decimal_Z (record_a_idx m) ++ u "_" ++ decimal_Z (record_b_idx m) in
  Ok [ export_side match_id m (u "A") (record_a_idx m) record_a crefo_a;
       export_side match_id m (u "B") (record_b_idx m) record_b crefo_b ].

(** [export_results]: the rows handed to [to_csv]; [None] when there is
    no match and nothing is written. *)
Definition export_results (matches : list match_dict) (df : list record)
  : result (option (list export_row)) :=
  match matches with
  | [] => Ok None
  | _ =>
      export_rows <-
        for_each matches
          (fun m export_rows => rows <- export_match df m ;; Ok (export_rows ++ rows)) [] ;;
      Ok (Some export_rows)
  end.

End ExportResults.

(** The counters of the summary printed by [main] of
    [run_optimized_analysis.py]. *)
Definition count_if {A} (p : A -> bool) (l : list A) : nat :=
  List.length (filter p l).

Record summary := {
  s_exact : nat;
  s_fuzzy_normal : nat;
  s_fuzzy_swapped : nat;
  s_high_conf : nat;
  s_med_conf : nat;
  s_low_conf : nat;
  s_avg_conf : Q
}.

(** [sum(values) / len(values)] *)
Definition average (values : list Q) : result Q :=
  if (List.length values =? 0)%nat then Raise ZeroDivisionError
  else Ok (fold_left Qplus values 0%Q / inject_Z (Z.of_nat (List.length values)))%Q.

(** The block under [if matches:]; [None] when there is no match. *)
Definition summarize (matches : list match_dict) : result (option summary) :=
  match matches with
  | [] => Ok None
  | _ =>
      let has_kind (name : pystr) (m : match_dict) :=
        str_eqb (kind_name (match_type m)) name in
      let exact := count_if (has_kind (u "exact")) matches in
      let fuzzy_normal := count_if (has_kind (u "fuzzy_normal")) matches in
      let fuzzy_swapped := count_if (has_kind (u "fuzzy_swapped")) matches in
      let high_conf := count_if (fun m => Qgeb (confidence_score m) 90) matches in
      let med_conf :=
        count_if (fun m => Qle_bool 80 (confidence_score m)
                           && Qltb (confidence_score m) 90) matches in
      let low_conf := count_if (fun m => Qltb (confidence_score m) 80) matches in
      avg_conf <- average (map confidence_score matches) ;;
      Ok (Some {| s_exact := exact; s_fuzzy_normal := fuzzy_normal;
                  s_fuzzy_swapped := fuzzy_swapped;
                  s_high_conf := high_conf; s_med_conf := med_conf;
                  s_low_conf := low_conf; s_avg_conf := avg_conf |})
  end.

(** ** The external functions on U+0000 to U+00FF

    An instance of [Externals] for running the model on Latin-1 text:
    - [str.lower()] on the code points below U+0100;
    - no decimal digit but the ASCII ones lies below U+0100;
    - the rows U+0080 to U+00FF of the table of unidecode (row [x000]),
      and no entry elsewhere;
    - [QRatio] as the normalized Indel similarity, 0 when a string is
      empty, without the rounding of floats;
    - [cologne_phonetics.encode] on the names of the examples, an empty
      result elsewhere;
    - [int(float(s))] on plain decimal numerals below 2^53, an error
      elsewhere;
    - no bound on the workers of a pool, as on every platform but
      Windows. *)
Module Latin1.

Definition lower_char (c : cp) : cp :=
  if is_AZ c then c + 32
  else if (192 <=? c) && (c <=? 222) && negb (c =? 215) then c + 32
  else c.

Definition table : list pystr :=
  repeat [] 32
  ++ map u [ " "; "!"; "C/"; "PS"; "$?"; "Y="; "|"; "SS" ]%string
  ++ [ [34] ]
  ++ map u [ "(c)"; "a"; "<<"; "!" ]%string
  ++ [ [] ]
  ++ map u
  [ "(r)"; "-";
    "deg"; "+-"; "2"; "3"; "'"; "u"; "P"; "*";
    ","; "1"; "o"; ">>"; " 1/4"; " 1/2"; " 3/4"; "?";
    "A"; "A"; "A"; "A"; "A"; "A"; "AE"; "C";
    "E"; "E"; "E"; "E"; "I"; "I"; "I"; "I";
    "D"; "N"; "O"; "O"; "O"; "O"; "O"; "x";
    "O"; "U"; "U"; "U"; "U"; "Y"; "Th"; "ss";
    "a"; "a"; "a"; "a"; "a"; "a"; "ae"; "c";
    "e"; "e"; "e"; "e"; "i"; "i"; "i"; "i";
    "d"; "n"; "o"; "o"; "o"; "o"; "o"; "/";
    "o"; "u"; "u"; "u"; "u"; "y"; "th"; "y" ]%string.

Definition table_entry (c : cp) : pystr :=
  if (128 <=? c) && (c <? 256) then nth (N.to_nat (c - 128)) table [] else [].

(** The length of a longest common subsequence, row by row. *)
Fixpoint lcs_row (x : cp) (b : pystr) (prev : list nat) (left diag : nat) : list nat :=
  match b, prev with
  | y :: b', up :: prev' =>
      let v := if x =? y then S diag else Nat.max up left in
      v :: lcs_row x b' prev' v up
  | _, _ => []
  end.

Definition lcs (a b : pystr) : nat :=
  last (fold_left (fun row x => lcs_row x b row 0%nat 0%nat) a
                  (repeat 0%nat (List.length b))) 0%nat.

Definition indel_ratio (a b : pystr) : Q :=
  match a, b with
  | [], _ | _, [] => 0
  | _, _ => (Z.of_nat (200 * lcs a b)) # (Pos.of_nat (List.length a + List.length b))
  end.

Definition codes : list (pystr * pystr) :=
  [ (u "meyer", u "67"); (u "maier", u "67"); (u "meier", u "67");
    (u "hans", u "068"); (u "hanns", u "068");
    (u "kai", u "4"); (u "kay", u "4") ].

Definition encode (s : pystr) : option (list (pystr * pystr)) :=
  match find (fun wc => str_eqb (fst wc) (map lower_char s)) codes with
  | Some wc => Some [wc]
  | None => Some []
  end.

(** Digits, then an optional dot and digits. *)
Definition parse_decimal (s : pystr) : option Z :=
  match s with
  | [] => None
  | c :: _ =>
      if is_ascii_digit c then
        let int_part := firstn (List.length s - List.length (skip_while is_ascii_digit s)) s in
        let n := fold_left (fun acc d => (10 * acc + (Z.of_N d - 48))%Z) int_part 0%Z in
        let ok_tail :=
          match skip_while is_ascii_digit s with
          | [] => true
          | d :: frac => (d =? 46) && forallb is_ascii_digit frac
          end in
        if ok_tail && (n <? 2 ^ 53)%Z then Some n else None
      else None
  end.

#[export] Instance externals : Externals := {|
  unicode_lower := map lower_char;
  unicode_decimal := fun _ => None;
  unidecode_table := table_entry;
  QRatio := indel_ratio;
  cologne_encode := encode;
  float_int := parse_decimal;
  max_pool_workers := None
|}.

End Latin1.

(** ** Predicates of the statements *)

(** The effective year as the specification words it: the year of the
    birth date when one is found, else the parsed birth year. *)
Definition claimed_effective_year {E : Externals} (geburtstag jahrgang : value)
  : option Z :=
  match extract_year geburtstag with
  | Some y => Some y
  | None => parse_jahrgang jahrgang
  end.

(** A field that is non-empty on both sides after [str], [strip] and
    [lower]. *)
Definition comparable {E : Externals} (field : record -> value) (a b : record) : bool :=
  truthy (lower (strip (str (field a)))) && truthy (lower (strip (str (field b)))).

Definition is_exact (k : match_kind) : bool :=
  match k with
  | exact_normal | exact_swapped => true
  | _ => false
  end.

(** What the worker guarantees for a match, by kind: the range of an
    exact match, and the threshold and the cap of a stage-2 match. *)
Definition emitted_ok (confidence_threshold : Q) (m : match_dict) : Prop :=
  match match_type m with
  | exact_normal => (90 <= confidence_score m <= 100)%Q
  | exact_swapped => (85 <= confidence_score m <= 95)%Q
  | _ => (confidence_threshold <= confidence_score m <= 95)%Q
  end.

Definition head_not_space (s : pystr) : Prop :=
  match s with
  | c :: _ => is_space c = false
  | [] => True
  end.

(** No whitespace but single spaces, the first character being no
    whitespace when [in_ws] is set. *)
Fixpoint tidy_from (in_ws : bool) (s : pystr) : Prop :=
  match s with
  | [] => True
  | c :: rest =>
      if is_space c then in_ws = false /\ c = 32 /\ tidy_from true rest
      else tidy_from false rest
  end.

(** A lower-case letter or a space: the characters of a normalized
    street. *)
Definition az_or_space (c : cp) : Prop := is_az c = true \/ c = 32.

(** An ASCII character that is no capital letter. *)
Definition plain (c : cp) : Prop := is_ascii c = true /\ is_AZ c = false.

(** The match [m] of the block [blk] stems from the rows [a] and [b] at
    the positions [i < j], which pass both business rules. *)
Definition located {E : Externals} (blk : block) (m : match_dict) (i j : nat)
  (a b : record) : Prop :=
  (i < j)%nat
  /\ nth_error blk i = Some (record_a_idx m, a)
  /\ nth_error blk j = Some (record_b_idx m, b)
  /\ check_zweitname (Name a) (Name2 a) (Name b) (Name2 b) = true
  /\ check_date_rule (Geburtstag a) (Jahrgang a) (Geburtstag b) (Jahrgang b) = true.

(** The normalized names of two rows agree as an exact match of kind
    [k] requires: straight for [exact_normal], crossed and not straight
    for [exact_swapped]; none of them is empty. *)
Definition exact_names {E : Externals} (a b : record) (k : match_kind) : Prop :=
  normalize_name (Vorname a) <> [] /\ normalize_name (Name a) <> []
  /\ normalize_name (Vorname b) <> [] /\ normalize_name (Name b) <> []
  /\ match k with
     | exact_normal =>
         normalize_name (Vorname a) = normalize_name (Vorname b)
         /\ normalize_name (Name a) = normalize_name (Name b)
     | exact_swapped =>
         normalize_name (Vorname a) = normalize_name (Name b)
         /\ normalize_name (Name a) = normalize_name (Vorname b)
         /\ ~ (normalize_name (Vorname a) = normalize_name (Vorname b)
               /\ normalize_name (Name a) = normalize_name (Name b))
     | _ => False
     end.

(** Given and family name of both rows normalize to non-empty strings. *)
Definition named {E : Externals} (a b : record) : Prop :=
  normalize_name (Vorname a) <> [] /\ normalize_name (Name a) <> []
  /\ normalize_name (Vorname b) <> [] /\ normalize_name (Name b) <> [].

(** Where a match of the worker comes from: an exact match from two
    rows that stage 1 marked, any other match from two rows that stage 1
    did not mark; under a positive fuzzy threshold these rows have
    names. *)
Definition origin {E : Externals} (blk : block) (fuzzy_threshold : Q)
  (matched : list nat) (m : match_dict) : Prop :=
  exists i j a b,
    located blk m i j a b
    /\ ((is_exact (match_type m) = true /\ exact_names a b (match_type m)
         /\ mem i matched = true /\ mem j matched = true)
        \/ (is_exact (match_type m) = false
            /\ mem i matched = false /\ mem j matched = false
            /\ ((0 < fuzzy_threshold)%Q -> named a b))).

(** The matches of stage 1 are exact and their rows are marked. *)
Definition marked_exact {E : Externals} (blk : block) (st : wstate) : Prop :=
  Forall (fun m => exists i j a b,
            located blk m i j a b
            /\ is_exact (match_type m) = true /\ exact_names a b (match_type m)
            /\ mem i (snd st) = true /\ mem j (snd st) = true) (fst st).

(** The rows of a block come from the frame, in ascending order of
    their index, and share their blocking key. *)
Definition ascending (blk : block) : Prop :=
  StronglySorted (fun x y : Z * record => (fst x < fst y)%Z) blk.

Definition block_of {E : Externals} (use_phonetic : bool) (df : frame) (blk : block)
  : Prop :=
  ascending blk
  /\ (forall row, In row blk -> In row (indexed df))
  /\ (exists key, forall row, In row blk -> blocking_key use_phonetic (snd row) = key).

Definition sized_block_of {E : Externals} (use_phonetic : bool) (df : frame)
  (max_block_size : nat) (blk : block) : Prop :=
  block_of use_phonetic df blk
  /\ (2 <= List.length blk <= max_block_size)%nat.

(** The two rows that [export_results] writes for a match: side A, then
    side B, with the indices, the confidence and the kind of the match
    and one match id. *)
Definition sides_of (m : match_dict) (ra rb : export_row) : Prop :=
  x_position ra = u "A" /\ x_position rb = u "B"
  /\ x_match_id ra = x_match_id rb
  /\ x_index ra = record_a_idx m /\ x_index rb = record_b_idx m
  /\ x_confidence ra = confidence_score m /\ x_confidence rb = confidence_score m
  /\ x_match_type ra = match_type m /\ x_match_type rb = match_type m.

(** The exported row [row] carries the cells of the row of the frame at
    its index. *)
Definition row_of (df : list record) (row : export_row) : Prop :=
  (0 <= x_index row)%Z
  /\ exists r,
       nth_error df (Z.to_nat (x_index row)) = Some r
       /\ x_vorname row = Vorname r /\ x_name row = Name r /\ x_name2 row = Name2 r
       /\ x_strasse row = Strasse r /\ x_hausnummer row = HausNummer r
       /\ x_plz row = Plz r /\ x_ort row = Ort r
       /\ x_geburtstag row = Geburtstag r /\ x_jahrgang row = Jahrgang r.


(** The pair of indices that a match reports, and the order in which
    the loops of the worker meet the pairs of a block. *)
Definition index_pair (m : match_dict) : Z * Z := (record_a_idx m, record_b_idx m).

Definition match_lt (m1 m2 : match_dict) : Prop :=
  (record_a_idx m1 < record_a_idx m2)%Z
  \/ (record_a_idx m1 = record_a_idx m2 /\ (record_b_idx m1 < record_b_idx m2)%Z).

(** The match [m] was added for a pair of positions that the loops
    reach before the pair [(i, j)]. *)
Definition emitted_before (blk : block) (i j : nat) (m : match_dict) : Prop :=
  exists i' j',
    (i' < j')%nat /\ ((i' < i)%nat \/ (i' = i /\ (j' < j)%nat))
    /\ nth_error (map fst blk) i' = Some (record_a_idx m)
    /\ nth_error (map fst blk) j' = Some (record_b_idx m).

(** The state of a stage before the pair [(i, j)]: the matches [ms0]
    it started from, followed by its own, which stand in the order of
    their pairs and are all exact ([exact = true]) or all not. *)
Definition stage_inv (blk : block) (exact : bool) (ms0 : list match_dict)
  (i j : nat) (st : wstate) : Prop :=
  exists new,
    fst st = ms0 ++ new
    /\ StronglySorted match_lt new
    /\ Forall (fun m => emitted_before blk i j m /\ is_exact (match_type m) = exact) new.

(** The indices of the rows of all blocks of a dict, in its order. *)
Definition all_idx (d : list (pystr * block)) : list Z :=
  flat_map (fun kb => map fst (snd kb)) d.

(** No index stands twice in the blocks [d] or twice in the rows
    [rows], and none in both. *)
Definition fresh (d : list (pystr * block)) (rows : block) : Prop :=
  NoDup (all_idx d) /\ NoDup (map fst rows)
  /\ forall x, In x (all_idx d) -> In x (map fst rows) -> False.

(** [a < b] on strings, as a relation. *)
Definition str_lt (a b : pystr) : Prop := str_ltb a b = true.

(** ** Sample data *)

Definition no_address_row : record :=
  {| Name := VStr (u "Gloor"); Vorname := VStr (u "David Pablo"); Name2 := VNone;
     Strasse := VNone; HausNummer := VNone; Plz := VNone; Ort := VNone;
     Crefo := VNone; Geburtstag := VNone; Jahrgang := VStr (u "1998.0") |}.

Definition row (name vorname name2 strasse hausnummer plz ort geburtstag : string)
  : record :=
  {| Name := VStr (u name); Vorname := VStr (u vorname); Name2 := VStr (u name2);
     Strasse := VStr (u strasse); HausNummer := VStr (u hausnummer);
     Plz := VStr (u plz); Ort := VStr (u ort); Crefo := VNone;
     Geburtstag := VStr (u geburtstag); Jahrgang := VNone |}.

Definition no_text : string := String.EmptyString.

(** S4: a typo in the given name. *)
Definition fuzzy_frame : frame :=
  [ row "Mueller" "Hans" no_text "Hauptstrasse" "1" "12345" "Berlin" "1985-03-10";
    row "Mueller" "Haus" no_text "Hauptstrasse" "1" "12345" "Berlin" "1985-03-10" ].

(** S2: given and family name swapped. *)
Definition swapped_frame : frame :=
  [ row "Schmidt" "Anna" no_text "Hauptstrasse" "1" "12345" "Berlin" "1975-05-20";
    row "Anna" "Schmidt" no_text "Hauptstrasse" "1" "12345" "Berlin" "1975-05-20" ].

(** The same person, once without any address field. *)
Definition bare_row : record :=
  row "Mustermann" "Max" no_text no_text no_text no_text no_text "1980-01-15".
Definition addressed_row : record :=
  row "Mustermann" "Max" no_text "Hauptstrasse" "1" "12345" "Berlin" "1980-01-15".

(** A sequential checker with the thresholds of the runner. *)
Definition sequential_checker : checker :=
  init (Some (7 # 10)) (Some false) None None 8.

(** The state after the pair of [bare_row] and [addressed_row]. *)
Definition bare_pair_state : wstate :=
  match @stage1_pair Latin1.externals (indexed [bare_row; addressed_row]) 0 1 ([], []) with
  | Ok st => st
  | Raise _ => ([], [])
  end.

(** Twelve households, two rows each: twelve blocks, so that the run
    with [use_parallel = true] takes the parallel branch. *)
Definition household (plz : string) : list record :=
  [ row "Mustermann" "Max" no_text "Hauptstrasse" "1" plz "Berlin" "1980-01-15";
    row "Mustermann" "Max" no_text "Hauptstrasse" "1" plz "Berlin" "1980-01-15" ].

Definition households_frame : frame :=
  flat_map household
    [ "10001"; "10002"; "10003"; "10004"; "10005"; "10006";
      "10007"; "10008"; "10009"; "10010"; "10011"; "10012" ]%string.

(** The tasks complete in the reverse order of their submission. *)
Definition last_first (n : nat) : list nat := rev (seq 0 n).

Definition umlaut_row (strasse : string) : record :=
  row "Mueller" "Karl" no_text strasse "3" "33333" "Berlin" "1978-08-15".

(** S1 and S3: identical rows, and the umlaut of a family name. *)
Definition identical_frame : frame :=
  [ row "Mustermann" "Max" no_text "Hauptstrasse" "1" "12345" "Berlin" "1980-01-15";
    row "Mustermann" "Max" no_text "Hauptstrasse" "1" "12345" "Berlin" "1980-01-15" ].

Definition umlaut_frame : frame :=
  [ row "Müller" "Karl" no_text "Müllerstrasse" "3" "33333" "Müllendorf" "1978-08-15";
    row "Mueller" "Karl" no_text "Müllerstrasse" "3" "33333" "Müllendorf" "1978-08-15" ].

(** S5: a birth year against the year of a birth date. *)
Definition gloor_frame : frame :=
  [ {| Name := VStr (u "Gloor"); Vorname := VStr (u "David Pablo"); Name2 := VStr [];
       Strasse := VStr (u "Buckhauserstrasse"); HausNummer := VStr (u "1");
       Plz := VStr (u "804800"); Ort := VStr (u "Zürich"); Crefo := VNone;
       Geburtstag := VStr []; Jahrgang := VStr (u "1998.0") |};
    {| Name := VStr (u "Gloor"); Vorname := VStr (u "David Pablo"); Name2 := VStr [];
       Strasse := VStr (u "Buckhauserstrasse"); HausNummer := VStr (u "1");
       Plz := VStr (u "804800"); Ort := VStr (u "Zürich"); Crefo := VNone;
       Geburtstag := VStr (u "16.07.1963"); Jahrgang := VStr (u "1963.0") |} ].

(** S6: a compound family name, split on one side. *)
Definition rohner_frame : frame :=
  [ row "Rohner-Stassek" "Eva" no_text "Seeblick" "6" "8048" "Zürich" "1970-02-03";
    row "Rohner" "Eva" "-Stassek" "Seeblick" "6" "8048" "Zürich" "1970-02-03" ].

(** Two spellings that differ in both names and sound alike. *)
Definition kai_frame : frame :=
  [ row "Meyer" "Kai" no_text "Seeblick" "6" "8048" "Zürich" "1970-02-03";
    row "Maier" "Kay" no_text "Seeblick" "6" "8048" "Zürich" "1970-02-03" ].

(** A row whose address cells are null. *)
Definition null_address_row : record :=
  {| Name := VStr (u "Mustermann"); Vorname := VStr (u "Max"); Name2 := VNone;
     Strasse := VNone; HausNummer := VNone; Plz := VNone; Ort := VNone;
     Crefo := VNone; Geburtstag := VStr (u "1980-01-15"); Jahrgang := VNone |}.

(** The state after the pair of two such rows. *)
Definition null_pair_state : wstate :=
  match @stage1_pair Latin1.externals (indexed [null_address_row; null_address_row])
          0 1 ([], []) with
  | Ok st => st
  | Raise _ => ([], [])
  end.

(** A sequential run on the Latin-1 instance. *)
Definition run (df : frame) (confidence_threshold : Q) : result (list match_dict) :=
  @analyze_duplicates Latin1.externals sequential_checker (fun n => seq 0 n)
    df confidence_threshold.

(** The matches of a run as (a, b, kind), and its confidences. *)
Definition run_kinds (r : result (list match_dict)) : option (list (Z * Z * match_kind)) :=
  match r with
  | Ok ms => Some (map (fun m => (record_a_idx m, record_b_idx m, match_type m)) ms)
  | Raise _ => None
  end.

Definition run_confidences (r : result (list match_dict)) : list Q :=
  match r with
  | Ok ms => map confidence_score ms
  | Raise _ => []
  end.

(** One block with an exact pair (rows 0 and 1) and a fuzzy pair (rows 2
    and 3). *)
Definition mixed_frame : frame := identical_frame ++ fuzzy_frame.

Definition mixed_matches : list match_dict :=
  match @process_block_worker Latin1.externals (indexed mixed_frame, 70%Q, 7 # 10) with
  | Ok ms => ms
  | Raise _ => []
  end.

(** A match of no run, the default of [nth]. *)
Definition no_match : match_dict :=
  {| record_a_idx := 0; record_b_idx := 0; confidence_score := 0;
     match_type := fuzzy_normal;
     match_details := {| d_name_results := None; address_ratio := 0;
                         address_matches := 0; total_address_fields := 0 |} |}.

(** The blocks of the frame of S1 and S4, and its run. *)
Definition mixed_blocks : list (pystr * block) :=
  match @create_blocks Latin1.externals true mixed_frame default_max_block_size with
  | Ok blocks => blocks
  | Raise _ => []
  end.

Definition mixed_run_matches : list match_dict :=
  match run mixed_frame 70 with
  | Ok ms => ms
  | Raise _ => []
  end.

Definition mixed_export : list export_row :=
  match export_results mixed_run_matches mixed_frame with
  | Ok (Some rows) => rows
  | _ => []
  end.

(** A block of a frame with other index labels: two identical rows
    under the labels 10 and 20. *)
Definition labelled_block : block :=
  combine [10%Z; 20%Z] (household "10001").

Definition labelled_matches : list match_dict :=
  match @process_block_worker Latin1.externals (labelled_block, 70%Q, 7 # 10) with
  | Ok ms => ms
  | Raise _ => []
  end.

(** * Properties *)

(** ** Strings *)

Lemma str_eqb_eq (a b : pystr) : str_eqb a b = true <-> a = b.
Proof.
  unfold str_eqb. destruct (list_eq_dec N.eq_dec a b); split; congruence.
Qed.

Lemma truthy_true (s : pystr) : truthy s = true <-> s <> [].
Proof. destruct s; simpl; split; congruence. Qed.

Lemma truthy_false (s : pystr) : truthy s = false <-> s = [].
Proof. destruct s; simpl; split; congruence. Qed.

Lemma starts_with_prefix (p s : pystr) :
  starts_with p s = true <-> exists r, s = p ++ r.
Proof.
  revert s. induction p as [|a p IH]; intros s; simpl.
  - split; eauto.
  - destruct s as [|b s].
    + split; [discriminate | intros [r Hr]; discriminate].
    + rewrite andb_true_iff, N.eqb_eq, IH. split.
      * intros [-> [r ->]]. now exists r.
      * intros [r Hr]. injection Hr as -> ->. eauto.
Qed.

Lemma endswith_suffix (s p : pystr) :
  endswith s p = true <-> exists q, s = q ++ p.
Proof.
  unfold endswith. rewrite starts_with_prefix. split.
  - intros [r Hr]. exists (rev r).
    rewrite <- (rev_involutive s), Hr, rev_app_distr, rev_involutive. reflexivity.
  - intros [q ->]. exists (rev q). apply rev_app_distr.
Qed.

(** ** The second-name rule *)

(** C5. On the lower-cased, trimmed fields the second-name rule passes
    exactly when both second names are empty, or both are non-empty and
    equal, or exactly one is non-empty and the name of the other side ends
    with it; "Rohner-Stassek" without second name passes against "Rohner"
    with second name "-Stassek". *)
Theorem check_zweitname_cases :
  (forall (E : Externals) (name_a name2_a name_b name2_b : value),
      check_zweitname name_a name2_a name_b name2_b = true <->
      (norm_field name2_a = [] /\ norm_field name2_b = [])
      \/ (norm_field name2_a <> [] /\ norm_field name2_b <> []
          /\ norm_field name2_a = norm_field name2_b)
      \/ (norm_field name2_a <> [] /\ norm_field name2_b = []
          /\ exists p, norm_field name_b = p ++ norm_field name2_a)
      \/ (norm_field name2_a = [] /\ norm_field name2_b <> []
          /\ exists p, norm_field name_a = p ++ norm_field name2_b))
  /\ (forall E : Externals,
         check_zweitname (VStr (u "Rohner-Stassek")) (VStr [])
                         (VStr (u "Rohner")) (VStr (u "-Stassek")) = true).
Proof.
  split; [|reflexivity].
  intros E name_a name2_a name_b name2_b. unfold check_zweitname.
  destruct (truthy (norm_field name2_a)) eqn:Ha;
    destruct (truthy (norm_field name2_b)) eqn:Hb; simpl;
    try apply truthy_true in Ha; try apply truthy_false in Ha;
    try apply truthy_true in Hb; try apply truthy_false in Hb.
  - rewrite str_eqb_eq. split; [intros; right; left; auto|].
    intros [[? _]|[(_ & _ & ?)|[(_ & ? & _)|(? & _)]]]; congruence.
  - rewrite endswith_suffix. split; [intros; right; right; left; auto|].
    intros [[? _]|[(_ & ? & _)|[(_ & _ & ?)|(? & _)]]]; congruence.
  - rewrite endswith_suffix. split; [intros; right; right; right; auto|].
    intros [[_ ?]|[(? & _)|[(? & _)|(_ & _ & ?)]]]; congruence.
  - split; auto.
Qed.

(** ** The date rule *)

(** Away from the year 0 the rule is the equality of the effective
    years: both present and equal, or both absent. *)
Lemma check_date_rule_nonzero (E : Externals) (ga ja gb jb : value) :
  extract_year ga <> Some 0%Z -> parse_jahrgang ja <> Some 0%Z ->
  extract_year gb <> Some 0%Z -> parse_jahrgang jb <> Some 0%Z ->
  check_date_rule ga ja gb jb = true <->
  claimed_effective_year ga ja = claimed_effective_year gb jb.
Proof.
  intros Hga Hja Hgb Hjb.
  unfold check_date_rule, effective_year, claimed_effective_year, truthy_int, is_None.
  destruct (extract_year ga) as [ya|], (parse_jahrgang ja) as [za|],
           (extract_year gb) as [yb|], (parse_jahrgang jb) as [zb|];
    simpl;
    repeat match goal with
      | |- context [(?z =? 0)%Z] =>
          let Hz := fresh in
          destruct (z =? 0)%Z eqn:Hz; [apply Z.eqb_eq in Hz; subst; congruence|];
          simpl
      end;
    try rewrite Z.eqb_eq; split; congruence.
Qed.

(** C4. A birth date whose first four digits are 0000 is read as the
    year 0 and then counts as no year: against a side without any date
    the rule passes, although exactly one side has a year; and two sides
    with the birth year 0 fail, although their years are equal. *)
Theorem check_date_rule_year_zero :
  (forall E : Externals,
      extract_year (VStr (u "0000-00-00")) = Some 0%Z
      /\ claimed_effective_year VNone VNone = None
      /\ check_date_rule (VStr (u "0000-00-00")) VNone VNone VNone = true)
  /\ (@parse_jahrgang Latin1.externals (VStr (u "0")) = Some 0%Z
      /\ @check_date_rule Latin1.externals (VStr []) (VStr (u "0"))
                                           (VStr []) (VStr (u "0")) = false).
Proof. split; [intros E|]; repeat split; reflexivity. Qed.

(** ** Blocking keys *)

Lemma firstn_cons_digit (E : Externals) (n : nat) (s : pystr) :
  s <> [] -> Forall (fun c => is_digit c = true) s ->
  exists c rest, firstn (S n) s = c :: rest /\ is_digit c = true.
Proof.
  intros Hs Hall. destruct s as [|c s]; [congruence|].
  exists c, (firstn n s). split; [reflexivity|]. now inversion Hall.
Qed.

(** The normalized postal code is never empty: it starts with a digit. *)
Lemma normalize_plz_head (E : Externals) (plz : value) :
  exists c rest, normalize_plz_vectorized plz = c :: rest /\ is_digit c = true.
Proof.
  unfold normalize_plz_vectorized, slice_to, zfill.
  apply firstn_cons_digit.
  - intros H. apply app_eq_nil in H as [H1 H2]. rewrite H2 in H1. discriminate H1.
  - apply Forall_app. split.
    + apply Forall_forall. intros c Hc. apply repeat_spec in Hc. now subst.
    + apply Forall_forall. intros c Hc. now apply filter_In in Hc.
Qed.

(** The key ["no_address"] is assigned to no row, so that the phonetic
    strategy gives every row its standard key. *)
Lemma no_address_unreachable (E : Externals) (r : record) :
  standard_blocking_key r <> u "no_address"
  /\ forall use_phonetic, blocking_key use_phonetic r = standard_blocking_key r.
Proof.
  assert (H : standard_blocking_key r <> u "no_address").
  { unfold standard_blocking_key.
    destruct (normalize_plz_head E (Plz r)) as (c & rest & -> & Hc).
    generalize (normalize_street_vectorized (Strasse r)). intros street.
    assert (Hne : str_eqb (c :: rest) [] = false).
    { destruct (str_eqb (c :: rest) []) eqn:Heq;
        [apply str_eqb_eq in Heq; discriminate | reflexivity]. }
    cbv zeta. rewrite Hne.
    destruct (str_eqb street []); cbn [negb andb]; intros Heq; vm_compute in Heq.
    - discriminate Heq.
    - injection Heq as -> _. vm_compute in Hc. discriminate Hc. }
  split; [exact H|]. intros [|]; [|reflexivity].
  unfold blocking_key, phonetic_blocking_key.
  destruct (str_eqb (standard_blocking_key r) (u "no_address")) eqn:Heq; [|reflexivity].
  apply str_eqb_eq in Heq. contradiction.
Qed.

(** C2. A row whose postal code holds no digit (absent, empty or text)
    and whose street is absent or normalizes to the empty string is keyed
    ["plz_only_00000"], with and without phonetic blocking: the postal
    code is padded to five zeros before it is tested for emptiness. *)
Theorem absent_address_blocking_key (E : Externals) (use_phonetic : bool) (r : record) :
  filter is_digit (fillna_str (Plz r)) = [] ->
  normalize_street_vectorized (Strasse r) = [] ->
  blocking_key use_phonetic r = u "plz_only_00000".
Proof.
  intros Hp Hs.
  rewrite (proj2 (no_address_unreachable E r)).
  unfold standard_blocking_key, normalize_plz_vectorized. cbv zeta.
  rewrite Hp, Hs. vm_compute. reflexivity.
Qed.

Lemma absent_address_blocking_key_witness :
  @blocking_key Latin1.externals true no_address_row = u "plz_only_00000"
  /\ @blocking_key Latin1.externals false no_address_row = u "plz_only_00000".
Proof.
  split;
    apply (@absent_address_blocking_key Latin1.externals _ no_address_row);
    reflexivity.
Defined.

(** ** The default thresholds *)

(** C9, as the code has it. The constructor called without
    [fuzzy_threshold] yields 0.8; the checker built by the command-line
    runner without [--fuzzy-threshold] has 0.7, which the runner passes
    to the constructor. *)
Theorem default_fuzzy_threshold :
  (forall use_parallel n_workers use_phonetic cpu_count,
      fuzzy_threshold (init None use_parallel n_workers use_phonetic cpu_count) = 8 # 10)
  /\ (forall no_parallel cpu_count,
         fuzzy_threshold (main_checker None no_parallel cpu_count) = 7 # 10).
Proof. split; reflexivity. Qed.

(** C9, as stated, fails: the default of the constructor is not 0.70. *)
Lemma default_fuzzy_threshold_not_070 :
  ~ (fuzzy_threshold (init None None None None 8) == 7 # 10)%Q.
Proof. unfold Qeq. simpl. lia. Qed.

(** ** Loops *)

Lemma for_each_inv {A S} (I : S -> Prop) (l : list A) (body : A -> S -> result S) :
  (forall a s s', In a l -> I s -> body a s = Ok s' -> I s') ->
  forall s s', I s -> for_each l body s = Ok s' -> I s'.
Proof.
  induction l as [|a l IH]; intros Hbody s s' Hs; simpl.
  - intros [= <-]. exact Hs.
  - unfold bind. destruct (body a s) as [s1|e] eqn:Hb; [|discriminate].
    apply IH.
    + intros a' t t' Hin. apply Hbody. now right.
    + apply (Hbody a s s1); auto. now left.
Qed.

Lemma for_each_total {A S} (l : list A) (body : A -> S -> result S) :
  (forall a s, In a l -> exists s', body a s = Ok s') ->
  forall s, exists s', for_each l body s = Ok s'.
Proof.
  induction l as [|a l IH]; intros Hbody s; simpl.
  - eauto.
  - destruct (Hbody a s (or_introl eq_refl)) as [s1 ->]. simpl.
    apply IH. intros a' t Hin. apply Hbody. now right.
Qed.

Lemma in_range (a b i : nat) : In i (range a b) <-> (a <= i < b)%nat.
Proof. unfold range. rewrite in_seq. lia. Qed.

(** ** The address ratio *)

Section AddressRatio.
Context {E : Externals}.

Lemma count_address_bounds (a b : record) :
  (0 <= fst (count_address a b) <= snd (count_address a b))%Z.
Proof.
  unfold count_address.
  assert (H : forall fields m t, (0 <= m <= t)%Z ->
    let r := fold_left
      (fun '(matches, total) field =>
         let val_a := lower (strip (str (field a))) in
         let val_b := lower (strip (str (field b))) in
         if truthy val_a && truthy val_b
         then (if str_eqb val_a val_b then (matches + 1)%Z else matches, (total + 1)%Z)
         else (matches, total)) fields (m, t) in
    (0 <= fst r <= snd r)%Z).
  { induction fields as [|f fields IH]; intros m t Hmt; simpl; [exact Hmt|].
    destruct (truthy _ && truthy _); [|now apply IH].
    destruct (str_eqb _ _); apply IH; lia. }
  apply (H address_fields 0%Z 0%Z). lia.
Qed.

Lemma count_address_none (a b : record) :
  comparable Strasse a b = false -> comparable HausNummer a b = false ->
  comparable Plz a b = false -> comparable Ort a b = false ->
  count_address a b = (0%Z, 0%Z).
Proof.
  unfold comparable, count_address, address_fields. simpl.
  intros -> -> -> ->. reflexivity.
Qed.

(** The denominator is at least 1: the ratio is computed without error
    and lies between 0 and 1. *)
Lemma compute_address_ratio_ok (a b : record) :
  exists q, compute_address_ratio a b = Ok q /\ (0 <= q <= 1)%Q.
Proof.
  unfold compute_address_ratio, truediv.
  pose proof (count_address_bounds a b) as Hb.
  destruct (count_address a b) as [m t]. simpl in Hb.
  destruct (Z.eqb_spec (Z.max t 1) 0) as [H0|_]; [lia|].
  eexists. split; [reflexivity|].
  unfold Qle. simpl. rewrite Z2Pos.id by lia. lia.
Qed.

Lemma compute_address_ratio_none (a b : record) :
  comparable Strasse a b = false -> comparable HausNummer a b = false ->
  comparable Plz a b = false -> comparable Ort a b = false ->
  compute_address_ratio a b = Ok 0%Q.
Proof.
  intros Hs Hh Hp Ho. unfold compute_address_ratio.
  rewrite (count_address_none a b Hs Hh Hp Ho). reflexivity.
Qed.

End AddressRatio.

(** ** What a pair adds to the matches *)

Section Pairs.
Context {E : Externals}.

Lemma stage1_pair_cases (blk : block) (i j : nat) (st st' : wstate) :
  stage1_pair blk i j st = Ok st' ->
  st' = st \/
  exists a b q m,
    st' = (fst st ++ [m], add j (add i (snd st)))
    /\ nth_error (map snd blk) i = Some a /\ nth_error (map snd blk) j = Some b
    /\ compute_address_ratio a b = Ok q
    /\ ((match_type m = exact_normal /\ confidence_score m = (90 + q * 10)%Q)
        \/ (match_type m = exact_swapped /\ confidence_score m = (85 + q * 10)%Q)).
Proof.
  unfold stage1_pair, getitem, bind.
  destruct (nth_error (map snd blk) i) as [a|] eqn:Ha; [|discriminate].
  destruct (nth_error (map snd blk) j) as [b|] eqn:Hb; [|discriminate].
  destruct (negb (check_zweitname _ _ _ _)); [intros [= <-]; now left|].
  destruct (negb (check_date_rule _ _ _ _)); [intros [= <-]; now left|].
  destruct (negb _); [intros [= <-]; now left|].
  destruct (_ || _); [|intros [= <-]; now left].
  destruct (count_address a b) as [m t].
  destruct (compute_address_ratio a b) as [q|] eqn:Hq; [|discriminate].
  destruct (str_eqb _ _ && str_eqb _ _);
    (destruct (nth_error (map fst blk) i); [|discriminate]);
    (destruct (nth_error (map fst blk) j); [|discriminate]);
    intros [= <-]; right; exists a, b, q; eexists;
    (split; [reflexivity|]); (split; [reflexivity|]); (split; [reflexivity|]);
    (split; [exact Hq|]); simpl; auto.
Qed.

Lemma stage2_pair_cases (blk : block) (ct ft : Q) (i j : nat) (st st' : wstate) :
  stage2_pair blk ct ft i j st = Ok st' ->
  st' = st \/
  exists a b q nr m,
    st' = (fst st ++ [m], snd st)
    /\ nth_error (map snd blk) i = Some a /\ nth_error (map snd blk) j = Some b
    /\ compute_address_ratio a b = Ok q
    /\ name_gate ft a b = Some nr
    /\ stage2_confidence nr q = (confidence_score m, match_type m)
    /\ Qle_bool ct (confidence_score m) = true.
Proof.
  unfold stage2_pair, getitem, bind.
  destruct (mem j (snd st)); [intros [= <-]; now left|].
  destruct (nth_error (map snd blk) i) as [a|] eqn:Ha; [|discriminate].
  destruct (nth_error (map snd blk) j) as [b|] eqn:Hb; [|discriminate].
  destruct (negb (check_zweitname _ _ _ _)); [intros [= <-]; now left|].
  destruct (negb (check_date_rule _ _ _ _)); [intros [= <-]; now left|].
  destruct (name_gate ft a b) as [nr|] eqn:Hg; [|intros [= <-]; now left].
  destruct (count_address a b) as [m t].
  destruct (compute_address_ratio a b) as [q|] eqn:Hq; [|discriminate].
  destruct (stage2_confidence nr q) as [c k] eqn:Hc.
  destruct (Qgeb c ct) eqn:Hge; [|intros [= <-]; now left].
  destruct (nth_error (map fst blk) i); [|discriminate].
  destruct (nth_error (map fst blk) j); [|discriminate].
  intros [= <-]. right. exists a, b, q, nr. eexists.
  split; [reflexivity|]. split; [reflexivity|]. split; [reflexivity|].
  split; [exact Hq|]. split; [exact Hg|]. simpl. split; [exact Hc|exact Hge].
Qed.

End Pairs.

(** ** The matches of a block *)

Section WorkerInvariant.
Context {E : Externals}.

Lemma py_min_cap (c : Q) : (py_min c 95 <= 95)%Q.
Proof.
  unfold py_min, Qltb. destruct (Qle_bool c 95) eqn:H; simpl.
  - now apply Qle_bool_iff.
  - apply Qle_refl.
Qed.

Lemma stage2_confidence_cap (nr : name_results) (q c : Q) (k : match_kind) :
  (0 <= q <= 1)%Q -> stage2_confidence nr q = (c, k) ->
  is_exact k = false /\ (c <= 95)%Q.
Proof.
  intros Hq. unfold stage2_confidence.
  destruct (phonetic_assisted nr), (is_swapped nr); intros [= <- <-];
    (split; [reflexivity|]); try apply py_min_cap; lra.
Qed.

Lemma stage1_pair_ok (ct : Q) (blk : block) (i j : nat) (st st' : wstate) :
  Forall (emitted_ok ct) (fst st) -> stage1_pair blk i j st = Ok st' ->
  Forall (emitted_ok ct) (fst st').
Proof.
  intros Hst H.
  apply stage1_pair_cases in H as [->|(a & b & q & m & -> & _ & _ & Hq & Hm)];
    [exact Hst|].
  simpl. apply Forall_app. split; [exact Hst|]. constructor; [|constructor].
  destruct (compute_address_ratio_ok a b) as (q' & Hq' & Hb).
  rewrite Hq in Hq'. injection Hq' as <-.
  unfold emitted_ok. destruct Hm as [[-> ->]|[-> ->]]; lra.
Qed.

Lemma stage2_pair_ok (ct ft : Q) (blk : block) (i j : nat) (st st' : wstate) :
  Forall (emitted_ok ct) (fst st) -> stage2_pair blk ct ft i j st = Ok st' ->
  Forall (emitted_ok ct) (fst st').
Proof.
  intros Hst H.
  apply stage2_pair_cases in H
    as [->|(a & b & q & nr & m & -> & _ & _ & Hq & _ & Hc & Hge)]; [exact Hst|].
  simpl. apply Forall_app. split; [exact Hst|]. constructor; [|constructor].
  destruct (compute_address_ratio_ok a b) as (q' & Hq' & Hb).
  rewrite Hq in Hq'. injection Hq' as <-.
  apply (stage2_confidence_cap nr Hb) in Hc as [Hk Hcap].
  apply Qle_bool_iff in Hge.
  unfold emitted_ok. destruct (match_type m); try discriminate; split; assumption.
Qed.

(** Every match of a block is in the range of its kind. *)
Lemma process_block_worker_ok (blk : block) (ct ft : Q) (ms : list match_dict) :
  process_block_worker (blk, ct, ft) = Ok ms -> Forall (emitted_ok ct) ms.
Proof.
  unfold process_block_worker.
  destruct (List.length blk <? 2)%nat; [intros [= <-]; constructor|].
  unfold bind.
  destruct (stage1 blk ([], [])) as [st1|] eqn:H1; [|discriminate].
  destruct (stage2 blk ct ft st1) as [st2|] eqn:H2; [|discriminate].
  intros [= <-].
  pose (I := fun s : wstate => Forall (emitted_ok ct) (fst s)).
  assert (Hst1 : I st1).
  { revert H1. unfold stage1. apply (for_each_inv I); [|constructor].
    intros i s s' _ Hs. apply (for_each_inv I); [|exact Hs].
    intros j t t' _. apply stage1_pair_ok. }
  revert H2. unfold stage2. apply (for_each_inv I); [|exact Hst1].
  intros i s s' _ Hs. destruct (mem i (snd s)); [intros [= <-]; exact Hs|].
  apply (for_each_inv I); [|exact Hs].
  intros j t t' _. apply stage2_pair_ok.
Qed.

(** The worker returns: no index is out of range and no division fails. *)
Lemma process_block_worker_total (args : block * Q * Q) :
  exists ms, process_block_worker args = Ok ms.
Proof.
  destruct args as [[blk ct] ft]. unfold process_block_worker.
  destruct (List.length blk <? 2)%nat; [eauto|].
  assert (Hget : forall A (f : Z * record -> A) i, (i < List.length blk)%nat ->
                 exists x, nth_error (map f blk) i = Some x).
  { intros A f i Hi. destruct (nth_error (map f blk) i) eqn:Hn; [eauto|].
    apply nth_error_None in Hn. rewrite length_map in Hn. lia. }
  assert (H1 : forall st, exists st', stage1 blk st = Ok st').
  { intros st. unfold stage1. apply for_each_total.
    intros i s Hi. apply for_each_total. intros j t Hj.
    apply in_range in Hi, Hj.
    unfold stage1_pair, getitem, bind.
    destruct (Hget _ snd i) as [a ->]; [lia|].
    destruct (Hget _ snd j) as [b ->]; [lia|].
    destruct (Hget _ fst i) as [ia ->]; [lia|].
    destruct (Hget _ fst j) as [ib ->]; [lia|].
    destruct (compute_address_ratio_ok a b) as (q & -> & _).
    destruct (negb (check_zweitname _ _ _ _)); [eauto|].
    destruct (negb (check_date_rule _ _ _ _)); [eauto|].
    destruct (negb _); [eauto|].
    destruct (_ || _); [|eauto].
    destruct (count_address a b).
    destruct (str_eqb _ _ && str_eqb _ _); eauto. }
  assert (H2 : forall st, exists st', stage2 blk ct ft st = Ok st').
  { intros st. unfold stage2. apply for_each_total.
    intros i s Hi. destruct (mem i (snd s)); [eauto|].
    apply for_each_total. intros j t Hj.
    apply in_range in Hi, Hj.
    unfold stage2_pair, getitem, bind.
    destruct (mem j (snd t)); [eauto|].
    destruct (Hget _ snd i) as [a ->]; [lia|].
    destruct (Hget _ snd j) as [b ->]; [lia|].
    destruct (Hget _ fst i) as [ia ->]; [lia|].
    destruct (Hget _ fst j) as [ib ->]; [lia|].
    destruct (compute_address_ratio_ok a b) as (q & -> & _).
    destruct (negb (check_zweitname _ _ _ _)); [eauto|].
    destruct (negb (check_date_rule _ _ _ _)); [eauto|].
    destruct (name_gate ft a b); [|eauto].
    destruct (count_address a b).
    destruct (stage2_confidence _ q).
    destruct (Qgeb _ _); eauto. }
  destruct (H1 ([], [])) as [st1 ->]. simpl.
  destruct (H2 st1) as [st2 ->]. simpl. eauto.
Qed.

(** A match of a run is a match of the worker on one of its blocks. *)
Lemma analyze_duplicates_from_worker (self : checker) (completion : nat -> list nat)
  (df : frame) (ct : Q) (ms : list match_dict) (m : match_dict) :
  analyze_duplicates self completion df ct = Ok ms -> In m ms ->
  exists blk ms', process_block_worker (blk, ct, fuzzy_threshold self) = Ok ms'
                  /\ In m ms'.
Proof.
  unfold analyze_duplicates, bind.
  destruct (create_blocks _ _ _) as [[|kb blocks]|]; try discriminate.
  { intros [= <-] []. }
  cbv beta iota zeta. generalize (kb :: blocks). clear kb blocks. intros blocks.
  remember (map (fun kb : pystr * block => (snd kb, ct, fuzzy_threshold self)) blocks)
    as block_args eqn:Hargs.
  assert (Htask : forall args, In args block_args -> In m (task_matches args) ->
            exists blk ms', process_block_worker (blk, ct, fuzzy_threshold self) = Ok ms'
                            /\ In m ms').
  { intros args Hin Hm. subst block_args. apply in_map_iff in Hin as (kb' & <- & _).
    unfold task_matches in Hm.
    destruct (process_block_worker _) eqn:Hw; [eauto|destruct Hm]. }
  destruct (_ && _); [destruct (create_pool _); [|discriminate]|];
    intros Hms Hin; injection Hms as <-;
    apply in_flat_map in Hin as (x & Hx & Hm).
  - destruct (nth_error block_args x) as [args|] eqn:Hn; [|destruct Hm].
    apply (Htask args); [|exact Hm]. eapply nth_error_In; eauto.
  - now apply (Htask x).
Qed.

End WorkerInvariant.

(** C7. In every run, a match of a fuzzy or phonetic-assisted kind has a
    confidence of at most 95. *)
Theorem stage2_confidence_at_most_95 (E : Externals) (self : checker)
  (completion : nat -> list nat) (df : frame) (confidence_threshold : Q)
  (ms : list match_dict) (m : match_dict) :
  analyze_duplicates self completion df confidence_threshold = Ok ms ->
  In m ms ->
  match_type m = fuzzy_normal \/ match_type m = fuzzy_swapped
  \/ match_type m = phonetic_assisted_normal
  \/ match_type m = phonetic_assisted_swapped ->
  (confidence_score m <= 95)%Q.
Proof.
  intros Hrun Hin Hkind.
  destruct (@analyze_duplicates_from_worker E self completion df confidence_threshold
              ms m Hrun Hin) as (blk & ms' & Hw & Hin').
  apply process_block_worker_ok in Hw.
  rewrite Forall_forall in Hw. specialize (Hw m Hin'). unfold emitted_ok in Hw.
  destruct Hkind as [Hk|[Hk|[Hk|Hk]]]; rewrite Hk in Hw; apply Hw.
Qed.

Lemma stage2_confidence_at_most_95_witness :
  exists m,
    @analyze_duplicates Latin1.externals sequential_checker (fun n => seq 0 n)
      fuzzy_frame 70 = Ok [m]
    /\ match_type m = fuzzy_normal
    /\ (confidence_score m <= 95)%Q.
Proof.
  eexists. split; [vm_compute; reflexivity|]. split; [reflexivity|].
  eapply (@stage2_confidence_at_most_95 Latin1.externals sequential_checker
            (fun n => seq 0 n) fuzzy_frame 70).
  - vm_compute. reflexivity.
  - left. reflexivity.
  - left. reflexivity.
Defined.

(** C1. With a confidence threshold of 96 the run over two rows with
    swapped names emits their exact match with confidence 95: stage 1
    appends its matches without comparing them with the threshold. *)
Theorem exact_match_below_threshold :
  exists m,
    @analyze_duplicates Latin1.externals sequential_checker (fun n => seq 0 n)
      swapped_frame 96 = Ok [m]
    /\ match_type m = exact_swapped
    /\ (confidence_score m == 95)%Q
    /\ ~ (96 <= confidence_score m)%Q.
Proof.
  eexists. split; [vm_compute; reflexivity|].
  split; [reflexivity|]. split; [reflexivity|].
  unfold Qle. simpl. lia.
Qed.

(** The guard of the denominator. The address ratio is computed for
    every pair, the denominator being at least 1. For a pair in which no
    address field renders, by [str], [strip] and [lower], as a non-empty
    text on both sides (such as cells that hold the empty string), the
    ratio is 0, and the exact match that stage 1 appends for it has
    confidence 90 when normal and 85 when swapped. *)
Theorem no_comparable_address_confidence (E : Externals) (blk : block) (i j : nat)
  (st st' : wstate) (a b : record) :
  nth_error (map snd blk) i = Some a -> nth_error (map snd blk) j = Some b ->
  comparable Strasse a b = false -> comparable HausNummer a b = false ->
  comparable Plz a b = false -> comparable Ort a b = false ->
  stage1_pair blk i j st = Ok st' ->
  (forall a' b', exists q, compute_address_ratio a' b' = Ok q)
  /\ compute_address_ratio a b = Ok 0%Q
  /\ (st' = st
      \/ exists m, st' = (fst st ++ [m], add j (add i (snd st)))
           /\ ((match_type m = exact_normal /\ (confidence_score m == 90)%Q)
               \/ (match_type m = exact_swapped /\ (confidence_score m == 85)%Q))).
Proof.
  intros Ha Hb Hs Hh Hp Ho Hpair.
  pose proof (compute_address_ratio_none a b Hs Hh Hp Ho) as Hzero.
  split; [|split; [exact Hzero|]].
  - intros a' b'. destruct (compute_address_ratio_ok a' b') as (q & Hq & _). eauto.
  - apply stage1_pair_cases in Hpair
      as [->|(a' & b' & q & m & -> & Ha' & Hb' & Hq & Hm)]; [now left|].
    right. exists m. split; [reflexivity|].
    rewrite Ha in Ha'. rewrite Hb in Hb'. injection Ha' as <-. injection Hb' as <-.
    rewrite Hzero in Hq. injection Hq as <-.
    destruct Hm as [[-> ->]|[-> ->]]; [left|right]; split; try reflexivity; lra.
Qed.

Lemma no_comparable_address_confidence_witness :
  (forall a' b', exists q, @compute_address_ratio Latin1.externals a' b' = Ok q)
  /\ @compute_address_ratio Latin1.externals bare_row addressed_row = Ok 0%Q
  /\ (bare_pair_state = ([], [])
      \/ exists m, bare_pair_state = ([] ++ [m], add 1%nat (add 0%nat []))
           /\ ((match_type m = exact_normal /\ (confidence_score m == 90)%Q)
               \/ (match_type m = exact_swapped /\ (confidence_score m == 85)%Q))).
Proof.
  apply (@no_comparable_address_confidence Latin1.externals
           (indexed [bare_row; addressed_row]) 0 1 ([], []) bare_pair_state
           bare_row addressed_row); vm_compute; reflexivity.
Defined.

(** C10, as the code has it. The address ratio is computed for every
    pair without error, the denominator being at least 1. But an absent
    cell is not empty to the code: [str] renders it as the text "None"
    or "nan". A pair whose four address cells are absent on both sides,
    in the same way, has four considered fields that all agree, the
    ratio 1, and the exact match that stage 1 appends for it has
    confidence 100 when normal and 95 when swapped, not 90 and 85. *)
Theorem absent_address_cells_are_compared (E : Externals) (blk : block) (i j : nat)
  (st st' : wstate) (a b : record) :
  nth_error (map snd blk) i = Some a -> nth_error (map snd blk) j = Some b ->
  (forall field, In field address_fields -> isna (field a) = true /\ field b = field a) ->
  stage1_pair blk i j st = Ok st' ->
  (forall a' b', exists q, compute_address_ratio a' b' = Ok q)
  /\ count_address a b = (4, 4)%Z
  /\ compute_address_ratio a b = Ok (4 # 4)
  /\ (st' = st
      \/ exists m, st' = (fst st ++ [m], add j (add i (snd st)))
           /\ ((match_type m = exact_normal /\ (confidence_score m == 100)%Q)
               \/ (match_type m = exact_swapped /\ (confidence_score m == 95)%Q))).
Proof.
  intros Ha Hb Hnull Hpair.
  assert (Hcount : count_address a b = (4, 4)%Z).
  { destruct (Hnull Strasse (or_introl eq_refl)) as [Ns Es].
    destruct (Hnull HausNummer (or_intror (or_introl eq_refl))) as [Nh Eh].
    destruct (Hnull Plz (or_intror (or_intror (or_introl eq_refl)))) as [Np Ep].
    destruct (Hnull Ort (or_intror (or_intror (or_intror (or_introl eq_refl)))))
      as [No Eo].
    clear Ha Hb Hpair Hnull.
    destruct a as [? ? ? sa ha pa oa ? ? ?], b as [? ? ? sb hb pb ob ? ? ?].
    cbn [Strasse HausNummer Plz Ort] in *. subst sb hb pb ob.
    destruct sa, ha, pa, oa; try discriminate; vm_compute; reflexivity. }
  assert (Hratio : compute_address_ratio a b = Ok (4 # 4)).
  { unfold compute_address_ratio. rewrite Hcount. reflexivity. }
  split; [|split; [exact Hcount|split; [exact Hratio|]]].
  - intros a' b'. destruct (compute_address_ratio_ok a' b') as (q & Hq & _). eauto.
  - apply stage1_pair_cases in Hpair
      as [->|(a' & b' & q & m & -> & Ha' & Hb' & Hq & Hm)]; [now left|].
    right. exists m. split; [reflexivity|].
    rewrite Ha in Ha'. rewrite Hb in Hb'. injection Ha' as <-. injection Hb' as <-.
    rewrite Hratio in Hq. injection Hq as <-.
    destruct Hm as [[-> ->]|[-> ->]]; [left|right]; split; reflexivity.
Qed.

Lemma absent_address_cells_are_compared_witness :
  (forall a' b', exists q, @compute_address_ratio Latin1.externals a' b' = Ok q)
  /\ @count_address Latin1.externals null_address_row null_address_row = (4, 4)%Z
  /\ @compute_address_ratio Latin1.externals null_address_row null_address_row
     = Ok (4 # 4)
  /\ (null_pair_state = ([], [])
      \/ exists m, null_pair_state = ([] ++ [m], add 1%nat (add 0%nat []))
           /\ ((match_type m = exact_normal /\ (confidence_score m == 100)%Q)
               \/ (match_type m = exact_swapped /\ (confidence_score m == 95)%Q))).
Proof.
  apply (@absent_address_cells_are_compared Latin1.externals
           (indexed [null_address_row; null_address_row]) 0 1 ([], []) null_pair_state
           null_address_row null_address_row).
  - reflexivity.
  - reflexivity.
  - intros field [<-|[<-|[<-|[<-|[]]]]]; split; reflexivity.
  - vm_compute. reflexivity.
Defined.

(** The pair of two rows without address cells is an exact match of
    confidence 100. *)
Example null_pair_is_exact_normal_100 :
  exists m, null_pair_state = ([m], [1; 0]%nat)
            /\ match_type m = exact_normal /\ (confidence_score m == 100)%Q.
Proof. eexists. split; [vm_compute; reflexivity|]. split; reflexivity. Qed.

Example bare_pair_is_exact_normal_90 :
  exists m, bare_pair_state = ([m], [1; 0]%nat)
            /\ match_type m = exact_normal /\ (confidence_score m == 90)%Q.
Proof. eexists. split; [vm_compute; reflexivity|]. split; reflexivity. Qed.

(** ** Parallel and sequential runs *)

Section Schedules.
Context {A B : Type} (f : A -> list B).

(** Visiting the tasks by their index, in the order of submission. *)
Lemma flat_map_by_index (pre l : list A) :
  flat_map (fun k => match nth_error (pre ++ l) k with
                     | Some a => f a
                     | None => []
                     end)
           (seq (List.length pre) (List.length l))
  = flat_map f l.
Proof.
  revert pre. induction l as [|a l IH]; intros pre; simpl; [reflexivity|].
  rewrite nth_error_app2, Nat.sub_diag by lia. simpl. f_equal.
  specialize (IH (pre ++ [a])).
  rewrite <- app_assoc, length_app in IH. simpl in IH.
  rewrite Nat.add_1_r in IH. exact IH.
Qed.

(** Any order of completion yields the matches of the sequential run, up
    to their order. *)
Lemma flat_map_schedule (l : list A) (sched : list nat) :
  Permutation sched (seq 0 (List.length l)) ->
  Permutation
    (flat_map (fun k => match nth_error l k with
                        | Some a => f a
                        | None => []
                        end) sched)
    (flat_map f l).
Proof.
  intros Hp. rewrite <- (flat_map_by_index [] l). simpl.
  apply Permutation_flat_map. exact Hp.
Qed.

End Schedules.





(** On this frame the two runs return twelve matches each, in opposite
    orders. *)
Example households_runs :
  exists par sequ,
    @analyze_duplicates Latin1.externals
      (init (Some (7 # 10)) (Some true) None None 8)
      last_first households_frame 70 = Ok par
    /\ @analyze_duplicates Latin1.externals
         (init (Some (7 # 10)) (Some false) None None 8)
         last_first households_frame 70 = Ok sequ
    /\ List.length sequ = 12%nat
    /\ map record_a_idx par = rev (map record_a_idx sequ)
    /\ par <> sequ.
Proof.
  do 2 eexists. split; [vm_compute; reflexivity|].
  split; [vm_compute; reflexivity|].
  split; [reflexivity|]. split; [reflexivity|]. discriminate.
Qed.

(** ** Street normalization and umlauts *)

(** C6. The street normalizer replaces the eszett only: the umlaut of
    "müllerstrasse" is folded to "u" by the transliteration, so that
    "müllerstrasse" and "muellerstrasse" get different normal forms and
    different blocking keys, while the name normalizer maps "Müller" and
    "Mueller" to the same string. *)
Theorem street_umlaut_folded_to_u :
  @normalize_street_vectorized Latin1.externals (VStr (u "müllerstrasse"))
    = u "mullerstrasse"
  /\ @normalize_street_vectorized Latin1.externals (VStr (u "muellerstrasse"))
     = u "muellerstrasse"
  /\ @blocking_key Latin1.externals true (umlaut_row "müllerstrasse")
     = u "33333_mullerstrasse"
  /\ @blocking_key Latin1.externals true (umlaut_row "muellerstrasse")
     = u "33333_muellerstrasse"
  /\ @normalize_name Latin1.externals (VStr (u "Müller"))
     = @normalize_name Latin1.externals (VStr (u "Mueller")).
Proof. repeat split; vm_compute; reflexivity. Qed.

(** ** Idempotence of the normalizers *)

(** C8, as stated, fails: the street normalizer maps "Hauptstr. 5" to
    "hauptstr" and "hauptstr" to "hauptstrasse". *)
Lemma normalizers_not_all_idempotent :
  ~ ((forall x, @normalize_name Latin1.externals
                  (VStr (@normalize_name Latin1.externals x))
                = @normalize_name Latin1.externals x)
     /\ (forall x, @normalize_street_vectorized Latin1.externals
                     (VStr (@normalize_street_vectorized Latin1.externals x))
                   = @normalize_street_vectorized Latin1.externals x)
     /\ (forall x, @normalize_plz_vectorized Latin1.externals
                     (VStr (@normalize_plz_vectorized Latin1.externals x))
                   = @normalize_plz_vectorized Latin1.externals x)).
Proof.
  intros (_ & H & _). specialize (H (VStr (u "Hauptstr. 5"))).
  vm_compute in H. discriminate H.
Qed.

Example street_hauptstr :
  @normalize_street_vectorized Latin1.externals (VStr (u "Hauptstr. 5")) = u "hauptstr"
  /\ @normalize_street_vectorized Latin1.externals (VStr (u "hauptstr"))
     = u "hauptstrasse".
Proof. split; vm_compute; reflexivity. Qed.

(** The name normalizer is not idempotent either where the
    transliteration yields capitals: the pound sign becomes "PS", and
    "PS" becomes "ps". *)
Example name_pound_sign :
  @normalize_name Latin1.externals (VStr (u "£")) = u "PS"
  /\ @normalize_name Latin1.externals (VStr (u "PS")) = u "ps".
Proof. split; vm_compute; reflexivity. Qed.

(** *** Stripping *)

Lemma lstrip_head (s : pystr) : head_not_space (lstrip s).
Proof.
  induction s as [|c s IH]; simpl; [exact I|].
  destruct (is_space c) eqn:Hc; [exact IH | exact Hc].
Qed.

Lemma lstrip_fixed (s : pystr) : head_not_space s -> lstrip s = s.
Proof. destruct s as [|c s]; simpl; [reflexivity | now intros ->]. Qed.

Lemma lstrip_is_suffix (s : pystr) : exists pre, s = pre ++ lstrip s.
Proof.
  induction s as [|c s [pre IH]]; simpl; [now exists []|].
  destruct (is_space c).
  - exists (c :: pre). simpl. now f_equal.
  - now exists [].
Qed.

Lemma rstrip_is_prefix (s : pystr) : exists post, s = rstrip s ++ post.
Proof.
  unfold rstrip. destruct (lstrip_is_suffix (rev s)) as [pre Hpre].
  exists (rev pre).
  rewrite <- rev_app_distr, <- Hpre, rev_involutive. reflexivity.
Qed.

Lemma rstrip_idem (s : pystr) : rstrip (rstrip s) = rstrip s.
Proof.
  unfold rstrip. rewrite rev_involutive.
  now rewrite (lstrip_fixed _ (lstrip_head (rev s))).
Qed.

Lemma rstrip_head (s : pystr) : head_not_space s -> head_not_space (rstrip s).
Proof.
  intros Hs. destruct (rstrip_is_prefix s) as [post Hpost].
  destruct (rstrip s) as [|c r]; [exact I|].
  rewrite Hpost in Hs. exact Hs.
Qed.

Lemma strip_idem (s : pystr) : strip (strip s) = strip s.
Proof.
  unfold strip.
  rewrite (lstrip_fixed _ (rstrip_head _ (lstrip_head s))).
  apply rstrip_idem.
Qed.

Lemma Forall_lstrip (P : cp -> Prop) (s : pystr) : Forall P s -> Forall P (lstrip s).
Proof.
  intros H. destruct (lstrip_is_suffix s) as [pre Hpre].
  rewrite Hpre in H. now apply Forall_app in H.
Qed.

Lemma Forall_rstrip (P : cp -> Prop) (s : pystr) : Forall P s -> Forall P (rstrip s).
Proof.
  intros H. destruct (rstrip_is_prefix s) as [post Hpost].
  rewrite Hpost in H. now apply Forall_app in H.
Qed.

Lemma Forall_strip (P : cp -> Prop) (s : pystr) : Forall P s -> Forall P (strip s).
Proof. intros H. now apply Forall_rstrip, Forall_lstrip. Qed.

(** *** Runs of whitespace *)

Lemma collapse_tidy (b : bool) (s : pystr) : tidy_from b (collapse_ws_from b s).
Proof.
  revert b. induction s as [|c s IH]; intros b; simpl; [exact I|].
  destruct (is_space c) eqn:Hc.
  - destruct b; [apply IH|]. simpl. auto.
  - simpl. rewrite Hc. apply IH.
Qed.

Lemma tidy_fixed (b : bool) (s : pystr) : tidy_from b s -> collapse_ws_from b s = s.
Proof.
  revert b. induction s as [|c s IH]; intros b; simpl; [reflexivity|].
  destruct (is_space c).
  - intros (-> & -> & H). f_equal. now apply IH.
  - intros H. f_equal. now apply IH.
Qed.

Lemma tidy_weaken (b : bool) (s : pystr) : tidy_from b s -> tidy_from false s.
Proof.
  destruct s as [|c s]; simpl; [auto|].
  destruct (is_space c); [|auto]. intros (-> & H). auto.
Qed.

Lemma tidy_prefix (b : bool) (s t : pystr) : tidy_from b (s ++ t) -> tidy_from b s.
Proof.
  revert b. induction s as [|c s IH]; intros b; simpl; [auto|].
  destruct (is_space c).
  - intros (Hb & Hc & H). repeat split; auto.
  - apply IH.
Qed.

Lemma tidy_suffix (b : bool) (s t : pystr) : tidy_from b (s ++ t) -> tidy_from false t.
Proof.
  revert b. induction s as [|c s IH]; intros b; simpl; [apply tidy_weaken|].
  destruct (is_space c).
  - intros (_ & _ & H). now apply IH in H.
  - apply IH.
Qed.

Lemma tidy_strip (s : pystr) : tidy_from false s -> tidy_from false (strip s).
Proof.
  intros H. unfold strip.
  destruct (lstrip_is_suffix s) as [pre Hpre].
  rewrite Hpre in H. apply tidy_suffix in H.
  destruct (rstrip_is_prefix (lstrip s)) as [post Hpost].
  rewrite Hpost in H. now apply tidy_prefix in H.
Qed.

(** The last two steps of a normalizer leave their own result alone. *)
Lemma strip_collapse_fixed (s : pystr) :
  strip (collapse_ws (strip (collapse_ws s))) = strip (collapse_ws s).
Proof.
  unfold collapse_ws at 1.
  rewrite (tidy_fixed false (strip (collapse_ws s))).
  - apply strip_idem.
  - apply tidy_strip. apply collapse_tidy.
Qed.

Lemma Forall_collapse (P Q : cp -> Prop) (b : bool) (s : pystr) :
  (forall c, P c -> is_space c = false -> Q c) -> Q 32 ->
  Forall P s -> Forall Q (collapse_ws_from b s).
Proof.
  intros HPQ H32 H. revert b.
  induction H as [|c s Hc Hs IH]; intros b; simpl; [constructor|].
  destruct (is_space c) eqn:Hsp; [destruct b|]; auto.
Qed.

(** *** Characters of a normal form *)

Lemma is_az_bounds (c : cp) : is_az c = true -> 97 <= c <= 122.
Proof.
  unfold is_az. rewrite andb_true_iff, !N.leb_le. tauto.
Qed.

Lemma az_or_space_ascii (c : cp) : az_or_space c -> is_ascii c = true.
Proof.
  intros [H| ->]; [|reflexivity]. apply is_az_bounds in H.
  unfold is_ascii. apply N.ltb_lt. lia.
Qed.

Lemma az_or_space_plain (c : cp) : az_or_space c -> plain c.
Proof.
  intros H. split; [now apply az_or_space_ascii|].
  destruct H as [H| ->]; [|reflexivity]. apply is_az_bounds in H.
  unfold is_AZ. apply andb_false_iff. right. apply N.leb_gt. lia.
Qed.

Lemma az_or_space_kept (c : cp) : az_or_space c -> is_az c || is_space c = true.
Proof. intros [->| ->]; reflexivity. Qed.

Section Fixpoints.
Context {E : Externals}.

Lemma ascii_not_digit (c : cp) :
  is_ascii c = true -> is_ascii_digit c = false -> is_digit c = false.
Proof. unfold is_digit. now intros -> ->. Qed.

Lemma az_or_space_not_digit (c : cp) : az_or_space c -> is_digit c = false.
Proof.
  intros H. apply ascii_not_digit; [now apply az_or_space_ascii|].
  destruct H as [H| ->]; [|reflexivity]. apply is_az_bounds in H.
  unfold is_ascii_digit. apply andb_false_iff. right. apply N.leb_gt. lia.
Qed.

Lemma forallb_ascii (s : pystr) :
  Forall (fun c => is_ascii c = true) s -> forallb is_ascii s = true.
Proof. intros H. apply forallb_forall. now apply Forall_forall. Qed.

Lemma lower_plain (s : pystr) : Forall plain s -> lower s = s.
Proof.
  intros H. unfold lower. rewrite forallb_ascii.
  - induction H as [|c s [_ Hc] _ IH]; simpl; [reflexivity|].
    unfold ascii_lower at 1. rewrite Hc. now f_equal.
  - eapply Forall_impl; [|exact H]. now intros c [Hc _].
Qed.

Lemma unidecode_plain (s : pystr) : Forall plain s -> unidecode s = s.
Proof.
  intros H. unfold unidecode. rewrite forallb_ascii; [reflexivity|].
  eapply Forall_impl; [|exact H]. now intros c [Hc _].
Qed.

Lemma replace_char_plain (old : cp) (new s : pystr) :
  is_ascii old = false -> Forall plain s -> replace_char old new s = s.
Proof.
  intros Hold H. unfold replace_char.
  induction H as [|c s [Hc _] _ IH]; simpl; [reflexivity|].
  destruct (N.eqb_spec c old) as [->|_]; [congruence|]. simpl. now f_equal.
Qed.

Lemma filter_all {A} (f : A -> bool) (l : list A) :
  Forall (fun a => f a = true) l -> filter f l = l.
Proof.
  induction 1 as [|a l Ha _ IH]; simpl; [reflexivity|]. rewrite Ha. now f_equal.
Qed.

(** *** The postal code *)

Lemma normalize_plz_idempotent (plz : value) :
  normalize_plz_vectorized (VStr (normalize_plz_vectorized plz))
  = normalize_plz_vectorized plz.
Proof.
  set (p := normalize_plz_vectorized plz).
  assert (Hlen : List.length p = 5%nat).
  { unfold p, normalize_plz_vectorized, slice_to, zfill.
    apply firstn_length_le. rewrite length_app, repeat_length.
    unfold pystr, cp in *. lia. }
  assert (Hdig : Forall (fun c => is_digit c = true) p).
  { unfold p, normalize_plz_vectorized, slice_to, zfill.
    apply Forall_forall. intros c Hc.
    assert (Hc' : In c (firstn 5 (repeat 48 (5 - List.length (filter is_digit (fillna_str plz)))
                                  ++ filter is_digit (fillna_str plz))
                        ++ skipn 5 (repeat 48 (5 - List.length (filter is_digit (fillna_str plz)))
                                    ++ filter is_digit (fillna_str plz))))
      by (apply in_or_app; now left).
    rewrite firstn_skipn in Hc'. clear Hc.
    apply in_app_iff in Hc' as [Hc|Hc].
    - apply repeat_spec in Hc. now subst.
    - now apply filter_In in Hc. }
  unfold normalize_plz_vectorized at 1. simpl fillna_str.
  rewrite (filter_all _ Hdig). unfold zfill, slice_to.
  rewrite Hlen. change (repeat 48 (5 - 5) ++ p) with p.
  apply firstn_all2. rewrite Hlen. apply Nat.le_refl.
Qed.

(** *** The name *)

Lemma normalize_name_shape (name : value) :
  exists w, normalize_name name = strip (collapse_ws w).
Proof.
  unfold normalize_name. destruct (isna name); [exists []; reflexivity | eauto].
Qed.

Lemma normalize_name_fixed (name : value) :
  Forall plain (normalize_name name) ->
  normalize_name (VStr (normalize_name name)) = normalize_name name.
Proof.
  intros H. destruct (normalize_name_shape name) as [w Hw].
  remember (normalize_name name) as o eqn:Ho. clear Ho.
  assert (Hs : strip o = o) by (rewrite Hw; apply strip_idem).
  unfold normalize_name. cbn [isna str]. cbv zeta.
  rewrite Hs, (lower_plain H).
  rewrite (@replace_char_plain 223 (u "ss") o eq_refl H).
  rewrite (@replace_char_plain 252 (u "ue") o eq_refl H).
  rewrite (@replace_char_plain 228 (u "ae") o eq_refl H).
  rewrite (@replace_char_plain 246 (u "oe") o eq_refl H).
  rewrite (unidecode_plain H), Hw.
  apply strip_collapse_fixed.
Qed.

(** *** The street *)

Lemma skip_while_is_suffix (p : cp -> bool) (s : pystr) :
  exists pre, s = pre ++ skip_while p s.
Proof.
  induction s as [|c s [pre IH]]; simpl; [now exists []|].
  destruct (p c).
  - exists (c :: pre). simpl. now f_equal.
  - now exists [].
Qed.

Lemma match_house_end_no_digit (s : pystr) :
  Forall (fun c => is_digit c = false) s -> match_house_end s = None.
Proof.
  intros H. unfold match_house_end.
  destruct s as [|w s]; [reflexivity|].
  destruct (is_space w); [|reflexivity].
  destruct (skip_while_is_suffix is_space (w :: s)) as [pre Hpre].
  destruct (skip_while is_space (w :: s)) as [|d r1]; [reflexivity|].
  assert (Hd : is_digit d = false).
  { rewrite Forall_forall in H. apply H. rewrite Hpre.
    apply in_or_app. right. now left. }
  now rewrite Hd.
Qed.

Lemma sub_house_end_no_digit (s : pystr) :
  Forall (fun c => is_digit c = false) s -> sub_house_end s = s.
Proof.
  induction 1 as [|c s Hc Hs IH]; [reflexivity|].
  change (sub_house_end (c :: s))
    with (match match_house_end (c :: s) with
          | Some r => r
          | None => c :: sub_house_end s
          end).
  rewrite match_house_end_no_digit by now constructor.
  now f_equal.
Qed.

Lemma sub_house_start_no_digit (s : pystr) :
  Forall (fun c => is_digit c = false) s -> sub_house_start s = s.
Proof.
  intros H. destruct H as [|c s Hc _]; [reflexivity|].
  unfold sub_house_start. now rewrite Hc.
Qed.

End Fixpoints.

(** *** The suffix map *)

Lemma starts_with_skipn (lit t : pystr) :
  starts_with lit t = true -> t = lit ++ skipn (List.length lit) t.
Proof.
  revert t. induction lit as [|a lit IH]; intros t; [reflexivity|].
  destruct t as [|b t]; simpl; [discriminate|].
  rewrite andb_true_iff, N.eqb_eq. intros [-> H]. f_equal. now apply IH.
Qed.

Lemma match_suffix_plain (lit t r : pystr) :
  match_suffix lit false t = Some r -> t = lit ++ r /\ at_end r = true.
Proof.
  unfold match_suffix. destruct (starts_with lit t) eqn:Hs; [|discriminate].
  destruct (at_end _) eqn:He; [|discriminate]. intros [= <-].
  split; [now apply starts_with_skipn | exact He].
Qed.

Lemma match_suffix_dot (lit t r : pystr) :
  match_suffix lit true t = Some r ->
  exists c, t = lit ++ c :: r /\ at_end r = true.
Proof.
  unfold match_suffix. destruct (starts_with lit t) eqn:Hs; [|discriminate].
  apply starts_with_skipn in Hs.
  remember (skipn (List.length lit) t) as rest eqn:Hrest. clear Hrest.
  destruct rest as [|c r']; [discriminate|].
  destruct (negb (c =? 10) && at_end r') eqn:He; [|discriminate]. intros [= <-].
  apply andb_true_iff in He as [_ He]. eauto.
Qed.

Lemma sub_suffix_unfold (lit : pystr) (dot : bool) (new : pystr) (c : cp) (s : pystr) :
  sub_suffix lit dot new (c :: s)
  = match match_suffix lit dot (c :: s) with
    | Some r => new ++ r
    | None => c :: sub_suffix lit dot new s
    end.
Proof. reflexivity. Qed.

(** A suffix replaced by itself: [weg], [allee], [platz], [gasse],
    [ring]. *)
Lemma sub_suffix_same (lit s : pystr) : sub_suffix lit false lit s = s.
Proof.
  induction s as [|c s IH]; [reflexivity|].
  rewrite sub_suffix_unfold.
  destruct (match_suffix lit false (c :: s)) as [r|] eqn:Hm.
  - apply match_suffix_plain in Hm as [Hm _]. now symmetry.
  - now f_equal.
Qed.

Lemma sub_suffix_no_match (lit : pystr) (dot : bool) (new s : pystr) :
  (forall pre t, s = pre ++ t -> match_suffix lit dot t = None) ->
  sub_suffix lit dot new s = s.
Proof.
  induction s as [|c s IH]; intros H; [reflexivity|].
  rewrite sub_suffix_unfold, (H [] (c :: s) eq_refl). f_equal.
  apply IH. intros pre t ->. apply (H (c :: pre)). reflexivity.
Qed.

Lemma at_end_nil (r : pystr) : at_end r = true -> ~ In 10 r -> r = [].
Proof.
  destruct r as [|c [|d r]]; simpl; [auto | | discriminate].
  intros Hc Hn. apply N.eqb_eq in Hc. subst. exfalso. apply Hn. now left.
Qed.

Lemma az_or_space_no_newline (s : pystr) : Forall az_or_space s -> ~ In 10 s.
Proof.
  intros H Hin. rewrite Forall_forall in H.
  destruct (H _ Hin) as [H1|H1]; [vm_compute in H1|]; discriminate.
Qed.

Lemma no_plain_match (lit s : pystr) :
  Forall az_or_space s -> endswith s lit = false ->
  forall pre t, s = pre ++ t -> match_suffix lit false t = None.
Proof.
  intros Hs He pre t ->.
  destruct (match_suffix lit false t) as [r|] eqn:Hm; [|reflexivity].
  apply match_suffix_plain in Hm as [-> Hr].
  apply at_end_nil in Hr.
  - subst r. rewrite app_nil_r in He.
    assert (Ht : endswith (pre ++ lit) lit = true) by (apply endswith_suffix; eauto).
    congruence.
  - intros Hin. apply (az_or_space_no_newline Hs).
    apply in_or_app. right. apply in_or_app. now right.
Qed.

Lemma no_dot_match (lit s : pystr) :
  Forall az_or_space s -> endswith (removelast s) lit = false ->
  forall pre t, s = pre ++ t -> match_suffix lit true t = None.
Proof.
  intros Hs He pre t ->.
  destruct (match_suffix lit true t) as [r|] eqn:Hm; [|reflexivity].
  apply match_suffix_dot in Hm as (c & -> & Hr).
  apply at_end_nil in Hr.
  - subst r.
    replace (pre ++ lit ++ [c]) with ((pre ++ lit) ++ [c]) in He
      by (now rewrite <- app_assoc).
    rewrite removelast_last in He.
    assert (Ht : endswith (pre ++ lit) lit = true) by (apply endswith_suffix; eauto).
    congruence.
  - intros Hin. apply (az_or_space_no_newline Hs).
    apply in_or_app. right. apply in_or_app. right. now right.
Qed.

Lemma replace_suffixes_fixed (s : pystr) :
  Forall az_or_space s ->
  endswith s (u "str") = false -> endswith (removelast s) (u "str") = false ->
  replace_suffixes s = s.
Proof.
  intros Hs H1 H2.
  assert (Hsz : endswith s (u "straße") = false).
  { destruct (endswith s (u "straße")) eqn:He; [|reflexivity].
    apply endswith_suffix in He as [q ->].
    apply Forall_app in Hs as [_ Hs]. rewrite Forall_forall in Hs.
    assert (Hin : In 223 (u "straße")) by (vm_compute; tauto).
    destruct (Hs _ Hin) as [H|H]; [vm_compute in H|]; discriminate. }
  unfold replace_suffixes, suffix_map. cbn [fold_left].
  rewrite (@sub_suffix_no_match (u "str") true (u "strasse") s
             (@no_dot_match (u "str") s Hs H2)).
  rewrite (@sub_suffix_no_match (u "straße") false (u "strasse") s
             (@no_plain_match (u "straße") s Hs Hsz)).
  rewrite (@sub_suffix_no_match (u "str") false (u "strasse") s
             (@no_plain_match (u "str") s Hs H1)).
  rewrite !sub_suffix_same. reflexivity.
Qed.

Section Idempotence.
Context {E : Externals}.

Lemma normalize_street_chars (street : value) :
  Forall az_or_space (normalize_street_vectorized street).
Proof.
  unfold normalize_street_vectorized. cbv zeta.
  apply Forall_strip.
  apply Forall_collapse with (P := fun c => is_az c || is_space c = true).
  - intros c Hc Hsp. left. now rewrite Hsp, orb_false_r in Hc.
  - now right.
  - apply Forall_forall. intros c Hc. unfold keep_az_space in Hc.
    now apply filter_In in Hc.
Qed.

Lemma normalize_street_shape (street : value) :
  exists w, normalize_street_vectorized street = strip (collapse_ws w).
Proof. unfold normalize_street_vectorized. cbv zeta. eauto. Qed.

Lemma normalize_street_fixed (street : value) :
  endswith (normalize_street_vectorized street) (u "str") = false ->
  endswith (removelast (normalize_street_vectorized street)) (u "str") = false ->
  normalize_street_vectorized (VStr (normalize_street_vectorized street))
  = normalize_street_vectorized street.
Proof.
  intros H1 H2.
  pose proof (normalize_street_chars street) as Hc.
  destruct (normalize_street_shape street) as [w Hw].
  remember (normalize_street_vectorized street) as o eqn:Ho. clear Ho.
  assert (Hp : Forall plain o)
    by (eapply Forall_impl; [|exact Hc]; apply az_or_space_plain).
  assert (Hd : Forall (fun c => is_digit c = false) o)
    by (eapply Forall_impl; [|exact Hc]; apply az_or_space_not_digit).
  assert (Hk : Forall (fun c => is_az c || is_space c = true) o)
    by (eapply Forall_impl; [|exact Hc]; apply az_or_space_kept).
  assert (Hs : strip o = o) by (rewrite Hw; apply strip_idem).
  assert (Hu : (if truthy o then unidecode o else []) = o).
  { destruct o as [|c o]; [reflexivity|]. cbn [truthy]. now apply unidecode_plain. }
  unfold normalize_street_vectorized. cbn [fillna_str]. cbv zeta.
  rewrite Hs, (lower_plain Hp), (replace_suffixes_fixed Hc H1 H2).
  rewrite (sub_house_end_no_digit Hd), (sub_house_start_no_digit Hd).
  rewrite (@replace_char_plain 223 (u "ss") o eq_refl Hp), Hu.
  unfold keep_az_space. rewrite (filter_all _ Hk), Hw.
  apply strip_collapse_fixed.
Qed.

(** On ASCII text the name normalizer yields no capital letter. *)
Lemma normalize_name_ascii (s : pystr) :
  Forall (fun c => is_ascii c = true) s -> Forall plain (normalize_name (VStr s)).
Proof.
  intros Hs. unfold normalize_name. cbn [isna str]. cbv zeta.
  assert (Hl : Forall plain (lower (strip s))).
  { apply Forall_strip in Hs. unfold lower. rewrite (forallb_ascii Hs).
    induction Hs as [|c t Hc _ IH]; simpl; constructor; auto.
    unfold plain, ascii_lower, is_ascii, is_AZ in *. apply N.ltb_lt in Hc.
    destruct ((65 <=? c) && (c <=? 90)) eqn:HAZ.
    - apply andb_true_iff in HAZ as [H1 H2]. apply N.leb_le in H1, H2.
      split; [apply N.ltb_lt; lia|].
      apply andb_false_iff. right. apply N.leb_gt. lia.
    - split; [now apply N.ltb_lt | exact HAZ]. }
  rewrite (@replace_char_plain 223 (u "ss") _ eq_refl Hl).
  rewrite (@replace_char_plain 252 (u "ue") _ eq_refl Hl).
  rewrite (@replace_char_plain 228 (u "ae") _ eq_refl Hl).
  rewrite (@replace_char_plain 246 (u "oe") _ eq_refl Hl).
  rewrite (unidecode_plain Hl).
  apply Forall_strip.
  apply Forall_collapse with (P := plain); auto.
  split; reflexivity.
Qed.

End Idempotence.

(** C8, as the code has it. The postal-code normalizer is idempotent on
    every input. The name normalizer is idempotent on every input whose
    normal form is ASCII text without capital letters. The street
    normalizer is idempotent on every input whose normal form ends
    neither in "str" nor in "str" followed by one more character. *)
Theorem normalizers_idempotent_on_settled_forms (E : Externals) :
  (forall plz,
      normalize_plz_vectorized (VStr (normalize_plz_vectorized plz))
      = normalize_plz_vectorized plz)
  /\ (forall name,
         Forall plain (normalize_name name) ->
         normalize_name (VStr (normalize_name name)) = normalize_name name)
  /\ (forall street,
         endswith (normalize_street_vectorized street) (u "str") = false ->
         endswith (removelast (normalize_street_vectorized street)) (u "str") = false ->
         normalize_street_vectorized (VStr (normalize_street_vectorized street))
         = normalize_street_vectorized street).
Proof.
  split; [exact normalize_plz_idempotent|].
  split; [exact normalize_name_fixed | exact normalize_street_fixed].
Qed.

Lemma normalizers_idempotent_on_settled_forms_witness :
  @normalize_plz_vectorized Latin1.externals
    (VStr (@normalize_plz_vectorized Latin1.externals (VStr (u "CH-8048"))))
  = @normalize_plz_vectorized Latin1.externals (VStr (u "CH-8048"))
  /\ @normalize_name Latin1.externals
       (VStr (@normalize_name Latin1.externals (VStr (u "  Müller "))))
     = @normalize_name Latin1.externals (VStr (u "  Müller "))
  /\ @normalize_street_vectorized Latin1.externals
       (VStr (@normalize_street_vectorized Latin1.externals (VStr (u "Hauptstraße 12a"))))
     = @normalize_street_vectorized Latin1.externals (VStr (u "Hauptstraße 12a")).
Proof.
  destruct (normalizers_idempotent_on_settled_forms Latin1.externals) as (Hp & Hn & Hs).
  split; [apply Hp|]. split.
  - apply Hn. vm_compute. repeat constructor.
  - apply Hs; vm_compute; reflexivity.
Defined.

(** ** The scenarios of the specification, run on the model *)

(** S1: one exact match with all four address fields equal. *)
Example scenario_identical :
  run_kinds (run identical_frame 70) = Some [(0, 1, exact_normal)]%Z
  /\ Forall (fun c => c == 100)%Q (run_confidences (run identical_frame 70)).
Proof. split; vm_compute; [reflexivity | repeat constructor]. Qed.

(** S2: the swapped names give confidence 95. *)
Example scenario_swapped :
  run_kinds (run swapped_frame 70) = Some [(0, 1, exact_swapped)]%Z
  /\ Forall (fun c => c == 95)%Q (run_confidences (run swapped_frame 70)).
Proof. split; vm_compute; [reflexivity | repeat constructor]. Qed.

(** S3: "Müller" and "Mueller" are the same normalized name. *)
Example scenario_umlaut :
  run_kinds (run umlaut_frame 70) = Some [(0, 1, exact_normal)]%Z
  /\ Forall (fun c => c == 100)%Q (run_confidences (run umlaut_frame 70)).
Proof. split; vm_compute; [reflexivity | repeat constructor]. Qed.

(** S4: "Hans" and "Haus" give a fuzzy match, 50 * 0.875 + 30. *)
Example scenario_typo :
  run_kinds (run fuzzy_frame 70) = Some [(0, 1, fuzzy_normal)]%Z
  /\ Forall (fun c => c == 7375 # 100)%Q (run_confidences (run fuzzy_frame 70)).
Proof. split; vm_compute; [reflexivity | repeat constructor]. Qed.

(** S5: the years 1998 and 1963 differ, no match. *)
Example scenario_date_conflict : run_kinds (run gloor_frame 70) = Some [].
Proof. vm_compute. reflexivity. Qed.

(** S6: the suffix "-Stassek" lets the pair through the second-name
    rule; the names "rohner-stassek" and "rohner" then match fuzzily. *)
Example scenario_compound_name :
  run_kinds (run rohner_frame 70) = Some [(0, 1, fuzzy_normal)]%Z.
Proof. vm_compute. reflexivity. Qed.

(** A borderline similarity with equal phonetic codes. *)
Example scenario_phonetic :
  run_kinds (run kai_frame 70) = Some [(0, 1, phonetic_assisted_normal)]%Z
  /\ Forall (fun c => c == 82)%Q (run_confidences (run kai_frame 70)).
Proof. split; vm_compute; [reflexivity | repeat constructor]. Qed.

(** A frame without a block of two rows: the log line of the average
    block size divides by zero. *)
Example scenario_no_block :
  run [bare_row] 70 = Raise ZeroDivisionError.
Proof. vm_compute. reflexivity. Qed.

(** A null cell is rendered by [str] as the text "None": two rows with
    null address cells agree on all four fields. *)
Example null_cells_are_compared :
  @comparable Latin1.externals Ort null_address_row null_address_row = true
  /\ @count_address Latin1.externals null_address_row null_address_row = (4, 4)%Z
  /\ @compute_address_ratio Latin1.externals null_address_row null_address_row
     = Ok (4 # 4).
Proof. repeat split; vm_compute; reflexivity. Qed.

(** The rows of the transliteration table that the examples rely on. *)
Example latin1_table_rows :
  map Latin1.table_entry [223; 228; 246; 252; 233; 163]
  = map u [ "ss"; "a"; "o"; "u"; "e"; "PS" ]%string.
Proof. vm_compute. reflexivity. Qed.

(** * Further properties of the code *)

(** ** The business rules *)

Lemma str_eqb_sym (a b : pystr) : str_eqb a b = str_eqb b a.
Proof.
  destruct (str_eqb a b) eqn:Hab, (str_eqb b a) eqn:Hba; try reflexivity.
  - apply str_eqb_eq in Hab. subst. rewrite (proj2 (str_eqb_eq b b) eq_refl) in Hba.
    discriminate.
  - apply str_eqb_eq in Hba. subst. rewrite (proj2 (str_eqb_eq a a) eq_refl) in Hab.
    discriminate.
Qed.

(** X1. The second-name rule gives the same verdict when the two sides
    are exchanged. *)
Theorem check_zweitname_symmetric (E : Externals) (name_a name2_a name_b name2_b : value) :
  check_zweitname name_a name2_a name_b name2_b
  = check_zweitname name_b name2_b name_a name2_a.
Proof.
  unfold check_zweitname.
  destruct (truthy (norm_field name2_a)), (truthy (norm_field name2_b)); simpl;
    try reflexivity.
  apply str_eqb_sym.
Qed.

(** X2. The date rule gives the same verdict when the two sides are
    exchanged. *)
Theorem check_date_rule_symmetric (E : Externals) (ga ja gb jb : value) :
  check_date_rule ga ja gb jb = check_date_rule gb jb ga ja.
Proof.
  unfold check_date_rule.
  destruct (effective_year ga ja) as [a|], (effective_year gb jb) as [b|]; simpl;
    try reflexivity.
  - rewrite (Z.eqb_sym a b).
    destruct (a =? 0)%Z, (b =? 0)%Z; reflexivity.
  - destruct (a =? 0)%Z; reflexivity.
  - destruct (b =? 0)%Z; reflexivity.
Qed.

(** X3. The year of a birth date takes precedence: when both birth
    dates hold a year other than 0, the rule compares these two years,
    whatever the two birth-year fields hold. *)
Theorem birth_date_overrides_jahrgang (E : Externals) (ga ja gb jb : value) (ya yb : Z) :
  extract_year ga = Some ya -> ya <> 0%Z ->
  extract_year gb = Some yb -> yb <> 0%Z ->
  check_date_rule ga ja gb jb = (ya =? yb)%Z.
Proof.
  intros Ha Hya Hb Hyb. unfold check_date_rule, effective_year.
  rewrite Ha, Hb. simpl.
  apply Z.eqb_neq in Hya, Hyb. rewrite Hya, Hyb. simpl. rewrite Hya, Hyb. reflexivity.
Qed.

Lemma birth_date_overrides_jahrgang_witness :
  @check_date_rule Latin1.externals
    (VStr (u "1984-03-12")) (VStr (u "1959.0")) (VStr (u "12.03.1984")) (VStr (u "1963"))
  = (1984 =? 1984)%Z.
Proof.
  apply (@birth_date_overrides_jahrgang Latin1.externals); vm_compute;
    (reflexivity || discriminate).
Defined.

(** ** Years *)

Lemma search_4digits_window (E : Externals) (s g : pystr) :
  search_4digits s = Some g ->
  List.length g = 4%nat /\ Forall (fun c => is_digit c = true) g
  /\ exists pre post, s = pre ++ g ++ post.
Proof.
  revert g. induction s as [|c s IH]; intros g; [discriminate|].
  change (search_4digits (c :: s))
    with (if (4 <=? List.length (firstn 4 (c :: s)))%nat
             && forallb is_digit (firstn 4 (c :: s))
          then Some (firstn 4 (c :: s)) else search_4digits s).
  destruct ((4 <=? List.length (firstn 4 (c :: s)))%nat
            && forallb is_digit (firstn 4 (c :: s))) eqn:Hw.
  - intros Heq. assert (Hg : g = firstn 4 (c :: s)) by congruence.
    clear Heq. subst g. apply andb_true_iff in Hw as [Hl Hd].
    apply Nat.leb_le in Hl. split; [|split].
    + pose proof (firstn_le_length 4 (c :: s)). unfold pystr, cp in *. lia.
    + apply Forall_forall. now apply forallb_forall.
    + exists [], (skipn 4 (c :: s)). symmetry. apply firstn_skipn.
  - intros H. destruct (IH g H) as (Hl & Hd & pre & post & ->).
    split; [exact Hl|]. split; [exact Hd|]. now exists (c :: pre), post.
Qed.

Lemma ascii_digit_value (E : Externals) (c : cp) :
  is_ascii c = true -> is_digit c = true -> (0 <= digit_value c <= 9)%Z.
Proof.
  unfold is_digit, digit_value. intros Ha Hd. rewrite Ha in Hd. simpl in Hd.
  rewrite orb_false_r in Hd. rewrite Hd.
  unfold is_ascii_digit in Hd. apply andb_true_iff in Hd as [H1 H2].
  apply N.leb_le in H1, H2. lia.
Qed.

(** X4. A year read from ASCII text is made of four digits that stand
    in a row in the text, and lies between 0 and 9999. *)
Theorem extract_year_four_digits (E : Externals) (s : pystr) (y : Z) :
  Forall (fun c => is_ascii c = true) s ->
  extract_year (VStr s) = Some y ->
  (0 <= y <= 9999)%Z
  /\ exists pre g post, strip s = pre ++ g ++ post /\ List.length g = 4%nat
       /\ Forall (fun c => is_digit c = true) g /\ y = int_of_digits g.
Proof.
  intros Hs. unfold extract_year. cbn [isna str orb].
  destruct (str_eqb (strip s) []); [discriminate|].
  destruct (search_4digits (strip s)) as [g|] eqn:Hg; [|discriminate].
  intros [= <-].
  destruct (search_4digits_window _ _ Hg) as (Hl & Hd & pre & post & Hsplit).
  split; [|now exists pre, g, post].
  assert (Ha : Forall (fun c => is_ascii c = true) g).
  { apply Forall_strip in Hs. rewrite Hsplit in Hs.
    apply Forall_app in Hs as [_ Hs]. now apply Forall_app in Hs as [Hs _]. }
  destruct g as [|d1 [|d2 [|d3 [|d4 [|]]]]]; try discriminate.
  repeat match goal with
    | H : Forall _ (_ :: _) |- _ => inversion H; subst; clear H
    end.
  repeat match goal with
    | Hx : is_ascii ?c = true, Hy : is_digit ?c = true |- _ =>
        pose proof (ascii_digit_value E c Hx Hy); clear Hy
    end.
  unfold int_of_digits. cbn [fold_left]. lia.
Qed.

Lemma extract_year_four_digits_witness :
  (0 <= 1963 <= 9999)%Z
  /\ exists pre g post, strip (u " geb. 16.07.1963 ") = pre ++ g ++ post
       /\ List.length g = 4%nat
       /\ Forall (fun c => @is_digit Latin1.externals c = true) g
       /\ 1963%Z = @int_of_digits Latin1.externals g.
Proof.
  apply (@extract_year_four_digits Latin1.externals (u " geb. 16.07.1963 ") 1963).
  - vm_compute. repeat constructor.
  - vm_compute. reflexivity.
Defined.

(** ** The name comparison *)

Lemma py_max_comm (a b a' b' : Q) :
  (a == a')%Q -> (b == b')%Q -> (py_max a b == py_max b' a')%Q.
Proof.
  intros Ha Hb. unfold py_max, Qltb.
  destruct (Qle_bool b a) eqn:H1, (Qle_bool a' b') eqn:H2; simpl;
    try (apply Qle_bool_iff in H1); try (apply Qle_bool_iff in H2);
    try (assert (~ (b <= a)%Q) by (intros Hc; apply Qle_bool_iff in Hc; congruence));
    try (assert (~ (a' <= b')%Q) by (intros Hc; apply Qle_bool_iff in Hc; congruence));
    lra.
Qed.

Lemma half_sum_comm (a b : Q) : ((a + b) / 2 == (b + a) / 2)%Q.
Proof. unfold Qdiv. now rewrite (Qplus_comm a b). Qed.

(** X5. Exchanging given and family name on one side exchanges the
    normal and the swapped score of the comparison and keeps the best
    score. *)
Theorem compare_names_swapped_side (E : Externals) (vorname_a name_a vorname_b name_b : value) :
  (normal_score (compare_names name_a vorname_a vorname_b name_b)
   == swapped_score (compare_names vorname_a name_a vorname_b name_b))%Q
  /\ (swapped_score (compare_names name_a vorname_a vorname_b name_b)
      == normal_score (compare_names vorname_a name_a vorname_b name_b))%Q
  /\ (best_score (compare_names name_a vorname_a vorname_b name_b)
      == best_score (compare_names vorname_a name_a vorname_b name_b))%Q.
Proof.
  unfold compare_names.
  destruct (truthy (normalize_name vorname_a)), (truthy (normalize_name name_a)),
           (truthy (normalize_name vorname_b)), (truthy (normalize_name name_b));
    cbn [negb orb normal_score swapped_score best_score];
    try (repeat split; reflexivity).
  split; [apply half_sum_comm|]. split; [apply half_sum_comm|].
  apply py_max_comm; apply half_sum_comm.
Qed.

(** ** The postal code *)

(** X6. The normalized postal code has exactly five characters, all of
    them digits, for every input; an input without digits gives 00000. *)
Theorem normalize_plz_five_digits (E : Externals) (plz : value) :
  List.length (normalize_plz_vectorized plz) = 5%nat
  /\ Forall (fun c => is_digit c = true) (normalize_plz_vectorized plz)
  /\ (filter is_digit (fillna_str plz) = [] -> normalize_plz_vectorized plz = u "00000").
Proof.
  unfold normalize_plz_vectorized, slice_to, zfill. split; [|split].
  - apply firstn_length_le. rewrite length_app, repeat_length.
    unfold pystr, cp in *. lia.
  - apply Forall_forall. intros c Hc.
    assert (Hc' : In c (repeat 48 (5 - List.length (filter is_digit (fillna_str plz)))
                        ++ filter is_digit (fillna_str plz))).
    { rewrite <- (firstn_skipn 5). apply in_or_app. now left. }
    apply in_app_iff in Hc' as [Hc'|Hc'].
    + apply repeat_spec in Hc'. now subst.
    + now apply filter_In in Hc'.
  - intros ->. reflexivity.
Qed.

Lemma normalize_plz_five_digits_witness :
  List.length (@normalize_plz_vectorized Latin1.externals (VStr (u "CH-8048"))) = 5%nat
  /\ Forall (fun c => @is_digit Latin1.externals c = true)
       (@normalize_plz_vectorized Latin1.externals (VStr (u "CH-8048")))
  /\ @normalize_plz_vectorized Latin1.externals VNone = u "00000".
Proof.
  destruct (normalize_plz_five_digits Latin1.externals (VStr (u "CH-8048"))) as (H1 & H2 & _).
  destruct (normalize_plz_five_digits Latin1.externals VNone) as (_ & _ & H3).
  split; [exact H1|]. split; [exact H2|]. apply H3. reflexivity.
Defined.

(** ** Phonetic blocking *)

Lemma groupby_phonetic (E : Externals) (df : frame) : groupby true df = groupby false df.
Proof.
  unfold groupby.
  assert (Hk : forall row : Z * record,
             blocking_key true (snd row) = blocking_key false (snd row)).
  { intros row. now rewrite !(proj2 (no_address_unreachable E (snd row))). }
  rewrite (map_ext _ _ Hk).
  apply map_ext. intros k. f_equal. apply filter_ext. intros row. now rewrite Hk.
Qed.

(** X7. The option [use_phonetic] has no effect on a run: the phonetic
    key is reserved for rows keyed ["no_address"], and no row is. *)
Theorem use_phonetic_has_no_effect (E : Externals) (ft : option Q) (up : option bool)
  (n_workers : option Z) (cpu_count : Z) (completion : nat -> list nat)
  (df : frame) (confidence_threshold : Q) :
  analyze_duplicates (init ft up n_workers (Some true) cpu_count)
    completion df confidence_threshold
  = analyze_duplicates (init ft up n_workers (Some false) cpu_count)
      completion df confidence_threshold.
Proof.
  unfold analyze_duplicates, create_blocks. cbn [init use_phonetic fuzzy_threshold use_parallel].
  now rewrite groupby_phonetic.
Qed.

(** ** The summary of the runner *)

Lemma kind_name_not_exact (k : match_kind) : str_eqb (kind_name k) (u "exact") = false.
Proof. destruct k; vm_compute; reflexivity. Qed.

Lemma count_if_none {A} (p : A -> bool) (l : list A) :
  (forall a, p a = false) -> count_if p l = 0%nat.
Proof.
  intros H. unfold count_if. induction l as [|a l IH]; simpl; [reflexivity|].
  now rewrite H.
Qed.

Lemma confidence_buckets (ms : list match_dict) :
  (count_if (fun m => Qgeb (confidence_score m) 90) ms
   + count_if (fun m => Qle_bool 80 (confidence_score m)
                        && Qltb (confidence_score m) 90) ms
   + count_if (fun m => Qltb (confidence_score m) 80) ms = List.length ms)%nat.
Proof.
  unfold count_if, Qgeb, Qltb. induction ms as [|m ms IH]; simpl; [reflexivity|].
  destruct (Qle_bool 90 (confidence_score m)) eqn:H90,
           (Qle_bool 80 (confidence_score m)) eqn:H80; simpl; try lia.
  exfalso. apply Qle_bool_iff in H90.
  assert (Hc : Qle_bool 80 (confidence_score m) = true) by (apply Qle_bool_iff; lra).
  congruence.
Qed.

(** X8. The summary is computed for every non-empty list of matches
    (the average divides by their number). Its three confidence classes
    add up to the number of matches, and its counter of exact matches is
    0 whatever the matches are: the worker names the kinds
    [exact_normal] and [exact_swapped], the counter looks for [exact]. *)
Theorem summarize_counts (ms : list match_dict) :
  ms <> [] ->
  exists s, summarize ms = Ok (Some s)
    /\ s_exact s = 0%nat
    /\ (s_high_conf s + s_med_conf s + s_low_conf s = List.length ms)%nat.
Proof.
  intros Hne. destruct ms as [|m ms]; [congruence|].
  unfold summarize, average, bind. rewrite length_map. cbn [List.length Nat.eqb].
  eexists. split; [reflexivity|]. cbn [s_exact s_high_conf s_med_conf s_low_conf].
  split; [|apply confidence_buckets].
  apply count_if_none. intros a. apply kind_name_not_exact.
Qed.

Lemma summarize_counts_witness :
  exists s,
    summarize (match run swapped_frame 70 with Ok ms => ms | Raise _ => [] end)
    = Ok (Some s)
    /\ s_exact s = 0%nat
    /\ (s_high_conf s + s_med_conf s + s_low_conf s
        = List.length (match run swapped_frame 70 with Ok ms => ms | Raise _ => [] end))%nat.
Proof.
  apply summarize_counts. vm_compute. discriminate.
Defined.

(** ** Where the matches of a block come from *)

Lemma mem_add_same (i : nat) (s : list nat) : mem i (add i s) = true.
Proof.
  unfold add. destruct (mem i s) eqn:H; [exact H|].
  unfold mem. simpl. now rewrite Nat.eqb_refl.
Qed.

Lemma mem_add_keep (i j : nat) (s : list nat) : mem i s = true -> mem i (add j s) = true.
Proof.
  intros H. unfold add. destruct (mem j s); [exact H|].
  unfold mem in *. simpl. rewrite H. apply orb_true_r.
Qed.

Lemma nth_error_pair (blk : block) (i : nat) (idx : Z) (a : record) :
  nth_error (map fst blk) i = Some idx -> nth_error (map snd blk) i = Some a ->
  nth_error blk i = Some (idx, a).
Proof.
  rewrite !nth_error_map. destruct (nth_error blk i) as [[x y]|]; simpl; congruence.
Qed.

Lemma stage2_confidence_kind (nr : name_results) (q c : Q) (k : match_kind) :
  stage2_confidence nr q = (c, k) -> is_exact k = false.
Proof.
  unfold stage2_confidence.
  destruct (phonetic_assisted nr), (is_swapped nr); intros [= <- <-]; reflexivity.
Qed.

Section Origin.
Context {E : Externals}.

Lemma stage1_pair_origin (blk : block) (i j : nat) (st st' : wstate) :
  (i < j)%nat -> stage1_pair blk i j st = Ok st' ->
  st' = st \/
  exists m a b,
    st' = (fst st ++ [m], add j (add i (snd st)))
    /\ located blk m i j a b
    /\ is_exact (match_type m) = true
    /\ exact_names a b (match_type m).
Proof.
  intros Hij. unfold stage1_pair, getitem, bind.
  destruct (nth_error (map snd blk) i) as [a|] eqn:Ha; [|discriminate].
  destruct (nth_error (map snd blk) j) as [b|] eqn:Hb; [|discriminate].
  destruct (check_zweitname _ _ _ _) eqn:Hz; cbn [negb]; [|intros [= <-]; now left].
  destruct (check_date_rule _ _ _ _) eqn:Hd; cbn [negb]; [|intros [= <-]; now left].
  destruct (truthy (normalize_name (Vorname a))) eqn:Tva; cbn [andb negb];
    [|intros [= <-]; now left].
  destruct (truthy (normalize_name (Name a))) eqn:Tna; cbn [andb negb];
    [|intros [= <-]; now left].
  destruct (truthy (normalize_name (Vorname b))) eqn:Tvb; cbn [andb negb];
    [|intros [= <-]; now left].
  destruct (truthy (normalize_name (Name b))) eqn:Tnb; cbn [andb negb];
    [|intros [= <-]; now left].
  apply truthy_true in Tva, Tna, Tvb, Tnb.
  assert (Hemit : forall conf kind ratio mt tt ia ib,
            nth_error (map fst blk) i = Some ia -> nth_error (map fst blk) j = Some ib ->
            is_exact kind = true -> exact_names a b kind ->
            exists m a0 b0,
              (fst st ++ [ {| record_a_idx := ia; record_b_idx := ib;
                              confidence_score := conf; match_type := kind;
                              match_details :=
                                {| d_name_results := None; address_ratio := ratio;
                                   address_matches := mt;
                                   total_address_fields := tt |} |} ],
               add j (add i (snd st)))
              = (fst st ++ [m], add j (add i (snd st)))
              /\ located blk m i j a0 b0
              /\ is_exact (match_type m) = true
              /\ exact_names a0 b0 (match_type m)).
  { intros conf kind ratio mt tt ia ib Hia Hib Hk Hnames.
    eexists. exists a, b. split; [reflexivity|].
    cbn [record_a_idx record_b_idx match_type].
    split; [|split; assumption].
    unfold located. cbn [record_a_idx record_b_idx].
    repeat split; auto using nth_error_pair. }
  destruct (str_eqb (normalize_name (Vorname a)) (normalize_name (Vorname b))
            && str_eqb (normalize_name (Name a)) (normalize_name (Name b))) eqn:Hn.
  - cbn [orb]. destruct (count_address a b) as [mt tt].
    destruct (compute_address_ratio a b) as [q|]; [|discriminate].
    destruct (nth_error (map fst blk) i) as [ia|] eqn:Hia; [|discriminate].
    destruct (nth_error (map fst blk) j) as [ib|] eqn:Hib; [|discriminate].
    intros [= <-]. right. apply Hemit; auto.
    apply andb_true_iff in Hn as [H1 H2]. apply str_eqb_eq in H1. apply str_eqb_eq in H2.
    unfold exact_names. auto 10.
  - destruct (str_eqb (normalize_name (Vorname a)) (normalize_name (Name b))
              && str_eqb (normalize_name (Name a)) (normalize_name (Vorname b))) eqn:Hs;
      cbn [orb]; [|intros [= <-]; now left].
    destruct (count_address a b) as [mt tt].
    destruct (compute_address_ratio a b) as [q|]; [|discriminate].
    destruct (nth_error (map fst blk) i) as [ia|] eqn:Hia; [|discriminate].
    destruct (nth_error (map fst blk) j) as [ib|] eqn:Hib; [|discriminate].
    intros [= <-]. right. apply Hemit; auto.
    apply andb_true_iff in Hs as [H1 H2]. apply str_eqb_eq in H1. apply str_eqb_eq in H2.
    unfold exact_names. repeat (split; [assumption|]).
    intros [H3 H4]. apply str_eqb_eq in H3. apply str_eqb_eq in H4.
    rewrite H3, H4 in Hn. discriminate.
Qed.

(** Under a positive threshold the name gate lets no pair with an
    empty normalized name through. *)
Lemma name_gate_named (ft : Q) (a b : record) (nr : name_results) :
  (0 < ft)%Q -> name_gate ft a b = Some nr -> named a b.
Proof.
  intros Hft. unfold name_gate, compare_names, named.
  destruct (truthy (normalize_name (Vorname a))) eqn:Tva,
           (truthy (normalize_name (Name a))) eqn:Tna,
           (truthy (normalize_name (Vorname b))) eqn:Tvb,
           (truthy (normalize_name (Name b))) eqn:Tnb;
    cbn [negb orb best_score];
    try (apply truthy_true in Tva, Tna, Tvb, Tnb; auto);
    (assert (Hlt : Qltb 0 ft = true)
      by (unfold Qltb; destruct (Qle_bool ft 0) eqn:Hle;
          [apply Qle_bool_iff in Hle; lra | reflexivity]));
    rewrite Hlt; cbn [Qle_bool]; discriminate.
Qed.

Lemma stage2_pair_origin (blk : block) (ct ft : Q) (i j : nat) (st st' : wstate) :
  (i < j)%nat -> stage2_pair blk ct ft i j st = Ok st' ->
  st' = st \/
  exists m a b,
    st' = (fst st ++ [m], snd st)
    /\ located blk m i j a b
    /\ is_exact (match_type m) = false
    /\ mem j (snd st) = false
    /\ ((0 < ft)%Q -> named a b).
Proof.
  intros Hij. unfold stage2_pair, getitem, bind.
  destruct (mem j (snd st)) eqn:Hmj; [intros [= <-]; now left|].
  destruct (nth_error (map snd blk) i) as [a|] eqn:Ha; [|discriminate].
  destruct (nth_error (map snd blk) j) as [b|] eqn:Hb; [|discriminate].
  destruct (check_zweitname _ _ _ _) eqn:Hz; cbn [negb]; [|intros [= <-]; now left].
  destruct (check_date_rule _ _ _ _) eqn:Hd; cbn [negb]; [|intros [= <-]; now left].
  destruct (name_gate ft a b) as [nr|] eqn:Hg; [|intros [= <-]; now left].
  destruct (count_address a b) as [mt tt].
  destruct (compute_address_ratio a b) as [q|]; [|discriminate].
  destruct (stage2_confidence nr q) as [c k] eqn:Hc.
  destruct (Qgeb c ct); [|intros [= <-]; now left].
  destruct (nth_error (map fst blk) i) as [ia|] eqn:Hia; [|discriminate].
  destruct (nth_error (map fst blk) j) as [ib|] eqn:Hib; [|discriminate].
  intros [= <-]. right. eexists. exists a, b.
  split; [reflexivity|]. cbn [record_a_idx record_b_idx match_type].
  split; [repeat split; auto using nth_error_pair|].
  split; [exact (stage2_confidence_kind _ _ Hc)|].
  split; [reflexivity|].
  intros Hft. exact (name_gate_named _ _ Hft Hg).
Qed.

Lemma stage1_marks (blk : block) (st st' : wstate) :
  marked_exact blk st -> stage1 blk st = Ok st' -> marked_exact blk st'.
Proof.
  unfold stage1. apply (for_each_inv (marked_exact blk)).
  intros i s s' Hi Hs. apply (for_each_inv (marked_exact blk)); [|exact Hs].
  intros j t t' Hj Ht Hpair.
  apply in_range in Hj.
  apply stage1_pair_origin in Hpair as [->|(m & a & b & -> & Hloc & Hex & Hnames)];
    [exact Ht | | lia].
  unfold marked_exact in *. cbn [fst snd]. apply Forall_app. split.
  - eapply Forall_impl; [|exact Ht].
    intros m' (i' & j' & a' & b' & H1 & H2 & H3 & H4 & H5).
    exists i', j', a', b'.
    split; [exact H1|]. split; [exact H2|]. split; [exact H3|].
    split; auto using mem_add_keep.
  - constructor; [|constructor]. exists i, j, a, b.
    split; [exact Hloc|]. split; [exact Hex|]. split; [exact Hnames|].
    split; auto using mem_add_keep, mem_add_same.
Qed.

Lemma stage2_keeps (blk : block) (ct ft : Q) (matched : list nat) (st st' : wstate) :
  snd st = matched /\ Forall (origin blk ft matched) (fst st) ->
  stage2 blk ct ft st = Ok st' ->
  snd st' = matched /\ Forall (origin blk ft matched) (fst st').
Proof.
  unfold stage2.
  apply (for_each_inv (fun s => snd s = matched /\ Forall (origin blk ft matched) (fst s))).
  intros i s s' Hi Hs. destruct (mem i (snd s)) eqn:Hmi; [intros [= <-]; exact Hs|].
  destruct Hs as [Hsnd Hs]. rewrite Hsnd in Hmi.
  apply (for_each_inv (fun s => snd s = matched /\ Forall (origin blk ft matched) (fst s)));
    [|now split].
  intros j t t' Hj [Htsnd Ht] Hpair. apply in_range in Hj.
  apply stage2_pair_origin in Hpair as [->|(m & a & b & -> & Hloc & Hex & Hmj & Hnm)];
    [now split | | lia].
  cbn [fst snd]. split; [exact Htsnd|].
  apply Forall_app. split; [exact Ht|]. constructor; [|constructor].
  exists i, j, a, b. split; [exact Hloc|]. right. rewrite Htsnd in Hmj. auto.
Qed.

(** Every match of the worker has its origin in the block. *)
Lemma process_block_worker_origin (blk : block) (ct ft : Q) (ms : list match_dict) :
  process_block_worker (blk, ct, ft) = Ok ms ->
  exists matched, Forall (origin blk ft matched) ms.
Proof.
  unfold process_block_worker.
  destruct (List.length blk <? 2)%nat; [intros [= <-]; exists []; constructor|].
  unfold bind.
  destruct (stage1 blk ([], [])) as [st1|] eqn:H1; [|discriminate].
  destruct (stage2 blk ct ft st1) as [st2|] eqn:H2; [|discriminate].
  intros [= <-]. exists (snd st1).
  apply stage1_marks in H1; [|constructor].
  apply (@stage2_keeps blk ct ft (snd st1) st1 st2) in H2; [apply H2|].
  split; [reflexivity|].
  eapply Forall_impl; [|exact H1].
  intros m (i & j & a & b & Hloc & Hex & Hn & Hi & Hj).
  exists i, j, a, b. split; [exact Hloc|]. left. auto.
Qed.

(** The rows of an exact match and the rows of a match of stage 2. *)
Lemma exact_rows_apart (blk : block) (ft : Q) (matched : list nat)
  (ms : list match_dict) (m1 m2 : match_dict) :
  NoDup (map fst blk) -> Forall (origin blk ft matched) ms ->
  In m1 ms -> In m2 ms ->
  is_exact (match_type m1) = true -> is_exact (match_type m2) = false ->
  record_a_idx m1 <> record_a_idx m2 /\ record_a_idx m1 <> record_b_idx m2
  /\ record_b_idx m1 <> record_a_idx m2 /\ record_b_idx m1 <> record_b_idx m2.
Proof.
  intros Hnd Hall Hin1 Hin2 He1 He2.
  rewrite Forall_forall in Hall.
  destruct (Hall m1 Hin1)
    as (i1 & j1 & a1 & b1 & (_ & Hi1 & Hj1 & _) & [(_ & _ & Mi1 & Mj1)|(Hx & _)]);
    [|congruence].
  destruct (Hall m2 Hin2)
    as (i2 & j2 & a2 & b2 & (_ & Hi2 & Hj2 & _) & [(Hx & _)|(_ & Mi2 & Mj2 & _)]);
    [congruence|].
  assert (Hpos : forall p q x y idx,
             nth_error blk p = Some (idx, x) -> nth_error blk q = Some (idx, y) -> p = q).
  { intros p q x y idx Hp Hq.
    apply (proj1 (NoDup_nth_error (map fst blk)) Hnd).
    - rewrite length_map. apply nth_error_Some. congruence.
    - rewrite !nth_error_map, Hp, Hq. reflexivity. }
  repeat split; intros Heq; rewrite Heq in *;
    match goal with
    | H1 : nth_error blk ?p = Some (?idx, _), H2 : nth_error blk ?q = Some (?idx, _),
      M1 : mem ?p matched = true, M2 : mem ?q matched = false |- _ =>
        rewrite (Hpos p q _ _ _ H1 H2) in M1; congruence
    end.
Qed.

End Origin.

(** X9. The worker returns for every block and thresholds: no index is
    out of range and no division fails. Every match it returns is in the
    range of its kind: 90 to 100 for [exact_normal], 85 to 95 for
    [exact_swapped], and from the confidence threshold to 95 for the
    kinds of stage 2. *)
Theorem process_block_worker_returns (E : Externals) (blk : block) (ct ft : Q) :
  exists ms, process_block_worker (blk, ct, ft) = Ok ms /\ Forall (emitted_ok ct) ms.
Proof.
  destruct (process_block_worker_total (blk, ct, ft)) as [ms Hms].
  exists ms. split; [exact Hms|]. exact (@process_block_worker_ok E blk ct ft ms Hms).
Qed.

(** X10. Every match of a block joins two different rows of the block,
    the first standing before the second, and these rows pass the
    second-name rule and the date rule. *)
Theorem matches_pass_both_rules (E : Externals) (blk : block) (ct ft : Q)
  (ms : list match_dict) (m : match_dict) :
  process_block_worker (blk, ct, ft) = Ok ms -> In m ms ->
  exists i j a b,
    (i < j)%nat
    /\ nth_error blk i = Some (record_a_idx m, a)
    /\ nth_error blk j = Some (record_b_idx m, b)
    /\ check_zweitname (Name a) (Name2 a) (Name b) (Name2 b) = true
    /\ check_date_rule (Geburtstag a) (Jahrgang a) (Geburtstag b) (Jahrgang b) = true.
Proof.
  intros Hw Hin. destruct (@process_block_worker_origin E blk ct ft ms Hw) as [matched Hall].
  rewrite Forall_forall in Hall.
  destruct (Hall m Hin) as (i & j & a & b & Hloc & _). now exists i, j, a, b.
Qed.

Lemma matches_pass_both_rules_witness :
  exists i j a b,
    (i < j)%nat
    /\ nth_error (indexed mixed_frame) i = Some (record_a_idx (nth 1 mixed_matches no_match), a)
    /\ nth_error (indexed mixed_frame) j = Some (record_b_idx (nth 1 mixed_matches no_match), b)
    /\ @check_zweitname Latin1.externals (Name a) (Name2 a) (Name b) (Name2 b) = true
    /\ @check_date_rule Latin1.externals
         (Geburtstag a) (Jahrgang a) (Geburtstag b) (Jahrgang b) = true.
Proof.
  apply (@matches_pass_both_rules Latin1.externals (indexed mixed_frame) 70 (7 # 10)
           mixed_matches).
  - vm_compute. reflexivity.
  - vm_compute. right. left. reflexivity.
Defined.

(** X11. An exact match joins two rows whose normalized given and
    family names are non-empty and equal, straight for [exact_normal],
    crossed (and not straight) for [exact_swapped]. *)
Theorem exact_matches_have_equal_names (E : Externals) (blk : block) (ct ft : Q)
  (ms : list match_dict) (m : match_dict) :
  process_block_worker (blk, ct, ft) = Ok ms -> In m ms ->
  is_exact (match_type m) = true ->
  exists i j a b, located blk m i j a b /\ exact_names a b (match_type m).
Proof.
  intros Hw Hin Hex. destruct (@process_block_worker_origin E blk ct ft ms Hw) as [matched Hall].
  rewrite Forall_forall in Hall.
  destruct (Hall m Hin) as (i & j & a & b & Hloc & [(_ & Hn & _)|(Hne & _)]).
  - now exists i, j, a, b.
  - congruence.
Qed.

Lemma exact_matches_have_equal_names_witness :
  exists i j a b,
    @located Latin1.externals (indexed mixed_frame) (nth 0 mixed_matches no_match) i j a b
    /\ @exact_names Latin1.externals a b (match_type (nth 0 mixed_matches no_match)).
Proof.
  apply (@exact_matches_have_equal_names Latin1.externals (indexed mixed_frame)
           70 (7 # 10) mixed_matches).
  - vm_compute. reflexivity.
  - vm_compute. left. reflexivity.
  - vm_compute. reflexivity.
Defined.

(** X12. Under a positive fuzzy threshold no match joins a row whose
    given or family name normalizes to the empty string. *)
Theorem matches_have_names (E : Externals) (blk : block) (ct ft : Q)
  (ms : list match_dict) (m : match_dict) :
  (0 < ft)%Q ->
  process_block_worker (blk, ct, ft) = Ok ms -> In m ms ->
  exists i j a b, located blk m i j a b /\ named a b.
Proof.
  intros Hft Hw Hin. destruct (@process_block_worker_origin E blk ct ft ms Hw) as [matched Hall].
  rewrite Forall_forall in Hall.
  destruct (Hall m Hin) as (i & j & a & b & Hloc & [(_ & Hn & _)|(_ & _ & _ & Hn)]);
    exists i, j, a, b; (split; [exact Hloc|]).
  - unfold exact_names in Hn. unfold named. tauto.
  - auto.
Qed.

Lemma matches_have_names_witness :
  exists i j a b,
    @located Latin1.externals (indexed mixed_frame) (nth 1 mixed_matches no_match) i j a b
    /\ @named Latin1.externals a b.
Proof.
  apply (@matches_have_names Latin1.externals (indexed mixed_frame)
           70 (7 # 10) mixed_matches).
  - reflexivity.
  - vm_compute. reflexivity.
  - vm_compute. right. left. reflexivity.
Defined.

(** X13. Stage 1 preempts stage 2: in a block whose rows have different
    indices, a row of an exact match is a row of no match of another
    kind. *)
Theorem exact_rows_are_consumed (E : Externals) (blk : block) (ct ft : Q)
  (ms : list match_dict) (m1 m2 : match_dict) :
  NoDup (map fst blk) ->
  process_block_worker (blk, ct, ft) = Ok ms -> In m1 ms -> In m2 ms ->
  is_exact (match_type m1) = true -> is_exact (match_type m2) = false ->
  record_a_idx m1 <> record_a_idx m2 /\ record_a_idx m1 <> record_b_idx m2
  /\ record_b_idx m1 <> record_a_idx m2 /\ record_b_idx m1 <> record_b_idx m2.
Proof.
  intros Hnd Hw Hin1 Hin2 He1 He2.
  destruct (@process_block_worker_origin E blk ct ft ms Hw) as [matched Hall].
  exact (@exact_rows_apart E blk ft matched ms m1 m2 Hnd Hall Hin1 Hin2 He1 He2).
Qed.

Lemma exact_rows_are_consumed_witness :
  record_a_idx (nth 0 mixed_matches no_match) <> record_a_idx (nth 1 mixed_matches no_match)
  /\ record_a_idx (nth 0 mixed_matches no_match) <> record_b_idx (nth 1 mixed_matches no_match)
  /\ record_b_idx (nth 0 mixed_matches no_match) <> record_a_idx (nth 1 mixed_matches no_match)
  /\ record_b_idx (nth 0 mixed_matches no_match) <> record_b_idx (nth 1 mixed_matches no_match).
Proof.
  apply (@exact_rows_are_consumed Latin1.externals (indexed mixed_frame) 70 (7 # 10)
           mixed_matches).
  - vm_compute. repeat constructor; simpl; intuition discriminate.
  - vm_compute. reflexivity.
  - vm_compute. left. reflexivity.
  - vm_compute. right. left. reflexivity.
  - vm_compute. reflexivity.
  - vm_compute. reflexivity.
Defined.

(** ** Blocks *)

Section SortedLists.
Context {A : Type} (R : A -> A -> Prop).

Lemma sorted_filter (f : A -> bool) (l : list A) :
  StronglySorted R l -> StronglySorted R (filter f l).
Proof.
  induction 1 as [|a l Hl IH Ha]; simpl; [constructor|].
  destruct (f a); [|exact IH]. constructor; [exact IH|].
  apply Forall_forall. intros x Hx. apply filter_In in Hx as [Hx _].
  rewrite Forall_forall in Ha. now apply Ha.
Qed.

Lemma sorted_app (l1 l2 : list A) :
  StronglySorted R (l1 ++ l2) -> StronglySorted R l1 /\ StronglySorted R l2.
Proof.
  induction l1 as [|a l1 IH]; simpl; intros H; [split; [constructor|exact H]|].
  apply StronglySorted_inv in H as [H Ha]. destruct (IH H) as [H1 H2].
  split; [|exact H2]. constructor; [exact H1|].
  now apply Forall_app in Ha as [Ha _].
Qed.

Lemma sorted_nth (l : list A) (i j : nat) (x y : A) :
  StronglySorted R l -> (i < j)%nat ->
  nth_error l i = Some x -> nth_error l j = Some y -> R x y.
Proof.
  intros H. revert i j. induction H as [|a l Hl IH Ha]; intros i j Hij Hx Hy.
  - destruct i; discriminate.
  - destruct j as [|j]; [lia|]. simpl in Hy. destruct i as [|i]; simpl in Hx.
    + injection Hx as <-. rewrite Forall_forall in Ha. apply Ha.
      eapply nth_error_In; eauto.
    + apply (IH i j); auto. lia.
Qed.

End SortedLists.

Lemma combine_seq_entry (s : nat) (l : list record) (idx : Z) (r : record) :
  In (idx, r) (combine (map Z.of_nat (seq s (List.length l))) l) ->
  exists k, idx = Z.of_nat (s + k) /\ nth_error l k = Some r.
Proof.
  revert s. induction l as [|a l IH]; intros s; simpl; [intros []|].
  intros [H|H].
  - injection H as <- <-. exists 0%nat. now rewrite Nat.add_0_r.
  - destruct (IH (S s) H) as (k & -> & Hk). exists (S k).
    split; [f_equal; lia | exact Hk].
Qed.

Lemma in_indexed (df : frame) (idx : Z) (r : record) :
  In (idx, r) (indexed df) ->
  (0 <= idx < Z.of_nat (List.length df))%Z /\ nth_error df (Z.to_nat idx) = Some r.
Proof.
  intros H. apply combine_seq_entry in H as (k & -> & Hk). simpl.
  rewrite Nat2Z.id. split; [|exact Hk].
  assert (k < List.length df)%nat by (apply nth_error_Some; congruence). lia.
Qed.

Lemma indexed_ascending (df : frame) : ascending (indexed df).
Proof.
  unfold ascending, indexed. generalize 0%nat.
  induction df as [|a df IH]; intros s; simpl; [constructor|].
  constructor; [apply IH|].
  apply Forall_forall. intros [idx r] H.
  apply combine_seq_entry in H as (k & -> & _). simpl. lia.
Qed.

Section BlockInvariant.
Context {E : Externals}.

Lemma block_of_segment (up : bool) (df : frame) (pre blk post : block) :
  block_of up df (pre ++ blk ++ post) -> block_of up df blk.
Proof.
  intros (Hs & Hin & key & Hkey). split; [|split].
  - apply sorted_app in Hs as [_ Hs]. now apply sorted_app in Hs as [Hs _].
  - intros row Hrow. apply Hin. apply in_or_app. right. apply in_or_app. now left.
  - exists key. intros row Hrow. apply Hkey.
    apply in_or_app. right. apply in_or_app. now left.
Qed.

Lemma groupby_block_of (up : bool) (df : frame) (key : pystr) (g : block) :
  In (key, g) (groupby up df) -> block_of up df g.
Proof.
  unfold groupby. intros H. apply in_map_iff in H as (k & [= <- <-] & _).
  split; [|split].
  - apply sorted_filter, indexed_ascending.
  - intros row Hrow. now apply filter_In in Hrow.
  - exists k. intros row Hrow. apply filter_In in Hrow as [_ Hrow].
    now apply str_eqb_eq in Hrow.
Qed.

Lemma chunks_from_segment (fuel start step : nat) (rows : block) (i : nat) (chunk : block) :
  In (i, chunk) (chunks_from fuel start step rows) ->
  (exists pre post, rows = pre ++ chunk ++ post)
  /\ (List.length chunk <= step)%nat.
Proof.
  revert start rows. induction fuel as [|fuel IH]; intros start rows; simpl; [intros []|].
  destruct rows as [|r rows]; [intros []|].
  intros [H|H].
  - injection H as _ <-. split.
    + exists [], (skipn step (r :: rows)). simpl. symmetry. apply firstn_skipn.
    + apply firstn_le_length.
  - apply IH in H as [(pre & post & Hsplit) Hlen]. split; [|exact Hlen].
    exists (firstn step (r :: rows) ++ pre), post.
    rewrite <- app_assoc, <- Hsplit. symmetry. apply firstn_skipn.
Qed.

Lemma dict_set_values {V} (P : V -> Prop) (d : list (pystr * V)) (key : pystr) (v : V) :
  Forall P (map snd d) -> P v -> Forall P (map snd (dict_set d key v)).
Proof.
  intros Hd Hv. induction d as [|[k v'] d IH]; simpl; [now constructor|].
  apply Forall_cons_iff in Hd as [Hv' Hd].
  destruct (str_eqb k key); simpl; constructor; auto.
Qed.

Lemma add_group_sized (up : bool) (df : frame) (max : nat) (g : pystr * block)
  (st st' : list (pystr * block) * nat) :
  In g (groupby up df) ->
  Forall (sized_block_of up df max) (map snd (fst st)) ->
  add_group max g st = Ok st' ->
  Forall (sized_block_of up df max) (map snd (fst st')).
Proof.
  intros Hg Hst. destruct g as [key group_df], st as [blocks total]. unfold add_group.
  pose proof (groupby_block_of _ _ _ _ Hg) as Hgroup.
  destruct ((1 <? List.length group_df)%nat && (List.length group_df <=? max)%nat) eqn:Hsize.
  - intros [= <-]. cbn [fst]. apply dict_set_values; [exact Hst|].
    apply andb_true_iff in Hsize as [H1 H2].
    apply Nat.ltb_lt in H1. apply Nat.leb_le in H2. split; [exact Hgroup|lia].
  - destruct (max <? List.length group_df)%nat; [|intros [= <-]; exact Hst].
    destruct (max =? 0)%nat; [discriminate|]. intros [= <-].
    assert (Hchunks : forall chunks acc,
      (forall ic, In ic chunks ->
                  In ic (chunks_from (List.length group_df) 0 max group_df)) ->
      Forall (sized_block_of up df max) (map snd (fst acc)) ->
      Forall (sized_block_of up df max)
        (map snd (fst (fold_left
           (fun '(blocks, total_records) '(i, chunk) =>
              if (1 <? List.length chunk)%nat
              then (dict_set blocks (key ++ u "_chunk_" ++ decimal i) chunk,
                    (total_records + List.length chunk)%nat)
              else (blocks, total_records)) chunks acc)))).
    { induction chunks as [|[i chunk] chunks IH]; intros [bl tot] Hsub Hacc; simpl;
        [exact Hacc|].
      apply IH; [intros ic Hic; apply Hsub; now right|].
      destruct (1 <? List.length chunk)%nat eqn:H1; [|exact Hacc].
      cbn [fst]. apply dict_set_values; [exact Hacc|].
      apply Nat.ltb_lt in H1.
      destruct (chunks_from_segment _ _ _ _ _ _ (Hsub (i, chunk) (or_introl eq_refl)))
        as [(pre & post & Hsplit) Hlen].
      split; [|lia]. rewrite Hsplit in Hgroup. now apply block_of_segment in Hgroup. }
    apply Hchunks; [auto | exact Hst].
Qed.

(** The blocks of [create_blocks]: there is at least one, and each has
    its rows from one group of the frame and a size between 2 and the
    maximum. *)
Lemma create_blocks_sized (up : bool) (df : frame) (max : nat)
  (blocks : list (pystr * block)) :
  create_blocks up df max = Ok blocks ->
  blocks <> [] /\ Forall (sized_block_of up df max) (map snd blocks).
Proof.
  unfold create_blocks, bind.
  destruct (for_each (groupby up df) (add_group max) ([], 0%nat)) as [[bl tot]|] eqn:Hloop;
    [|discriminate].
  unfold truediv.
  destruct (Z.eqb_spec (Z.of_nat (List.length bl)) 0) as [H0|H0]; [discriminate|].
  intros [= <-]. split; [intros ->; now apply H0|].
  revert Hloop.
  apply (for_each_inv (fun st => Forall (sized_block_of up df max) (map snd (fst st))));
    [|constructor].
  intros g s s' Hg Hs. now apply add_group_sized.
Qed.

(** A match of a run is a match of the worker on one of the blocks. *)
Lemma analyze_duplicates_block (self : checker) (completion : nat -> list nat)
  (df : frame) (ct : Q) (ms : list match_dict) (m : match_dict) :
  analyze_duplicates self completion df ct = Ok ms -> In m ms ->
  exists blocks key blk ms',
    create_blocks (use_phonetic self) df default_max_block_size = Ok blocks
    /\ In (key, blk) blocks
    /\ process_block_worker (blk, ct, fuzzy_threshold self) = Ok ms'
    /\ In m ms'.
Proof.
  unfold analyze_duplicates, bind.
  destruct (create_blocks _ _ _) as [blocks|] eqn:Hb; [|discriminate].
  destruct blocks as [|kb blocks]; [intros [= <-] []|].
  cbv beta iota zeta. revert Hb. generalize (kb :: blocks). clear kb blocks.
  intros blocks Hb.
  assert (Htask : forall kb, In kb blocks ->
            In m (task_matches (snd kb, ct, fuzzy_threshold self)) ->
            exists blocks0 key blk ms',
              Ok blocks = Ok blocks0 /\ In (key, blk) blocks0
              /\ process_block_worker (blk, ct, fuzzy_threshold self) = Ok ms'
              /\ In m ms').
  { intros [key blk] Hin Hm. unfold task_matches in Hm. cbn [snd] in Hm.
    destruct (process_block_worker _) as [ms'|] eqn:Hw; [|destruct Hm].
    exists blocks, key, blk, ms'. auto. }
  destruct (_ && _); [destruct (create_pool _); [|discriminate]|];
    intros Hms Hin; injection Hms as <-;
    apply in_flat_map in Hin as (x & Hx & Hm).
  - rewrite nth_error_map in Hm.
    destruct (nth_error blocks x) as [kb|] eqn:Hn; [|destruct Hm].
    apply (Htask kb); [eapply nth_error_In; eauto | exact Hm].
  - apply in_map_iff in Hx as (kb & <- & Hkb). now apply (Htask kb).
Qed.

End BlockInvariant.

(** X14. Every block that [create_blocks] returns has between 2 rows
    and the maximal block size; its rows are rows of the frame under
    their own index, stand in ascending order of the index, and share
    one blocking key. *)
Theorem create_blocks_shape (E : Externals) (up : bool) (df : frame) (max : nat)
  (blocks : list (pystr * block)) (key : pystr) (blk : block) :
  create_blocks up df max = Ok blocks -> In (key, blk) blocks ->
  (2 <= List.length blk <= max)%nat
  /\ (forall i j x y, (i < j)%nat -> nth_error blk i = Some x -> nth_error blk j = Some y ->
                      (fst x < fst y)%Z)
  /\ (forall idx r, In (idx, r) blk ->
                    (0 <= idx)%Z /\ nth_error df (Z.to_nat idx) = Some r)
  /\ (forall x y, In x blk -> In y blk ->
                  blocking_key up (snd x) = blocking_key up (snd y)).
Proof.
  intros Hb Hin. apply create_blocks_sized in Hb as [_ Hall].
  rewrite Forall_forall in Hall.
  destruct (Hall blk) as [(Hasc & Hrows & k & Hkey) Hsize].
  { apply in_map_iff. now exists (key, blk). }
  split; [exact Hsize|]. split; [|split].
  - intros i j x y Hij Hx Hy. exact (sorted_nth Hasc Hij Hx Hy).
  - intros idx r Hr. apply Hrows, in_indexed in Hr. split; [lia | apply Hr].
  - intros x y Hx Hy. now rewrite (Hkey x Hx), (Hkey y Hy).
Qed.

Lemma create_blocks_shape_witness :
  (2 <= List.length (indexed mixed_frame) <= default_max_block_size)%nat
  /\ (forall i j x y, (i < j)%nat ->
        nth_error (indexed mixed_frame) i = Some x ->
        nth_error (indexed mixed_frame) j = Some y -> (fst x < fst y)%Z)
  /\ (forall idx r, In (idx, r) (indexed mixed_frame) ->
        (0 <= idx)%Z /\ nth_error mixed_frame (Z.to_nat idx) = Some r)
  /\ (forall x y, In x (indexed mixed_frame) -> In y (indexed mixed_frame) ->
        @blocking_key Latin1.externals true (snd x)
        = @blocking_key Latin1.externals true (snd y)).
Proof.
  apply (@create_blocks_shape Latin1.externals true mixed_frame default_max_block_size
           mixed_blocks (u "12345_hauptstrasse")).
  - vm_compute. reflexivity.
  - vm_compute. left. reflexivity.
Defined.

Section Runs.
Context {E : Externals}.

Lemma add_group_returns (max : nat) (g : pystr * block) (st : list (pystr * block) * nat) :
  max <> 0%nat -> exists st', add_group max g st = Ok st'.
Proof.
  intros Hmax. destruct g as [key group_df], st as [blocks total]. unfold add_group.
  destruct (_ && _); [eauto|].
  destruct (max <? List.length group_df)%nat; [|eauto].
  destruct (Nat.eqb_spec max 0); [contradiction|eauto].
Qed.

(** [create_blocks] with a positive maximal size raises nothing but the
    division by zero of its log line. *)
Lemma create_blocks_outcome (up : bool) (df : frame) (max : nat) :
  max <> 0%nat ->
  (exists blocks, create_blocks up df max = Ok blocks)
  \/ create_blocks up df max = Raise ZeroDivisionError.
Proof.
  intros Hmax. unfold create_blocks, bind.
  destruct (for_each_total (groupby up df) (add_group max)
              (fun g s _ => add_group_returns g s Hmax) ([], 0%nat)) as [[bl tot] ->].
  unfold truediv. destruct (Z.of_nat (List.length bl) =? 0)%Z; eauto.
Qed.

(** The rows of a match of a run. *)
Lemma run_match_rows (self : checker) (completion : nat -> list nat)
  (df : frame) (ct : Q) (ms : list match_dict) (m : match_dict) :
  analyze_duplicates self completion df ct = Ok ms -> In m ms ->
  (0 <= record_a_idx m < record_b_idx m)%Z
  /\ (record_b_idx m < Z.of_nat (List.length df))%Z
  /\ exists a b,
       nth_error df (Z.to_nat (record_a_idx m)) = Some a
       /\ nth_error df (Z.to_nat (record_b_idx m)) = Some b
       /\ blocking_key (use_phonetic self) a = blocking_key (use_phonetic self) b
       /\ check_zweitname (Name a) (Name2 a) (Name b) (Name2 b) = true
       /\ check_date_rule (Geburtstag a) (Jahrgang a) (Geburtstag b) (Jahrgang b) = true.
Proof.
  intros Hrun Hin.
  destruct (@analyze_duplicates_block _ _ _ _ _ _ _ Hrun Hin)
    as (blocks & key & blk & ms' & Hb & Hblk & Hw & Hin').
  apply create_blocks_sized in Hb as [_ Hall]. rewrite Forall_forall in Hall.
  destruct (Hall blk) as [(Hasc & Hrows & k & Hkey) _].
  { apply in_map_iff. now exists (key, blk). }
  destruct (@process_block_worker_origin _ _ _ _ _ Hw) as [matched Horigin].
  rewrite Forall_forall in Horigin.
  destruct (Horigin m Hin') as (i & j & a & b & (Hij & Hi & Hj & Hz & Hd) & _).
  pose proof (sorted_nth Hasc Hij Hi Hj) as Hlt. cbn [fst] in Hlt.
  pose proof (@nth_error_In _ _ _ _ Hi) as Ia. pose proof (@nth_error_In _ _ _ _ Hj) as Ib.
  destruct (in_indexed _ _ _ (Hrows _ Ia)) as [Ba Na].
  destruct (in_indexed _ _ _ (Hrows _ Ib)) as [Bb Nb].
  split; [lia|]. split; [lia|]. exists a, b.
  split; [exact Na|]. split; [exact Nb|].
  split; [|split; assumption].
  transitivity k; [exact (Hkey _ Ia) | symmetry; exact (Hkey _ Ib)].
Qed.

Lemma iloc_valid (df : list record) (idx : Z) (r : record) :
  (0 <= idx < Z.of_nat (List.length df))%Z -> nth_error df (Z.to_nat idx) = Some r ->
  iloc df idx = Ok r.
Proof.
  intros [H1 H2] Hr. unfold iloc, getitem.
  apply Z.leb_le in H1. apply Z.ltb_lt in H2. now rewrite H1, H2, Hr.
Qed.

Lemma export_match_sides (df : list record) (m : match_dict) (rows : list export_row) :
  export_match df m = Ok rows -> exists ra rb, rows = [ra; rb] /\ sides_of m ra rb.
Proof.
  unfold export_match, bind.
  destruct (iloc df (record_a_idx m)); [|discriminate].
  destruct (iloc df (record_b_idx m)); [|discriminate].
  intros [= <-]. do 2 eexists. split; [reflexivity|].
  unfold sides_of. cbn. repeat split; reflexivity.
Qed.

Lemma export_loop (df : list record) (ms : list match_dict) (acc rows : list export_row) :
  for_each ms (fun m export_rows => rows <- export_match df m ;; Ok (export_rows ++ rows))
    acc = Ok rows ->
  exists pairs,
    rows = acc ++ flat_map (fun pr : export_row * export_row => [fst pr; snd pr]) pairs
    /\ Forall2 (fun m pr => sides_of m (fst pr) (snd pr)) ms pairs.
Proof.
  revert acc. induction ms as [|m ms IH]; intros acc; simpl.
  - intros [= <-]. exists []. simpl. now rewrite app_nil_r.
  - unfold bind at 1. unfold bind at 1.
    destruct (export_match df m) as [rs|] eqn:Hm; [|discriminate].
    apply export_match_sides in Hm as (ra & rb & -> & Hs).
    intros H. apply IH in H as (pairs & -> & Hall).
    exists ((ra, rb) :: pairs). split; [|now constructor].
    simpl. now rewrite <- app_assoc.
Qed.

Lemma pairs_nth (pairs : list (export_row * export_row)) (k : nat) (pr : export_row * export_row) :
  nth_error pairs k = Some pr ->
  nth_error (flat_map (fun pr : export_row * export_row => [fst pr; snd pr]) pairs) (2 * k)
  = Some (fst pr)
  /\ nth_error (flat_map (fun pr : export_row * export_row => [fst pr; snd pr]) pairs)
       (2 * k + 1)
     = Some (snd pr).
Proof.
  revert k. induction pairs as [|p pairs IH]; intros k; [destruct k; discriminate|].
  destruct k as [|k]; simpl.
  - intros [= <-]. split; reflexivity.
  - intros H. apply IH in H as [H1 H2].
    replace (k + S (k + 0))%nat with (S (2 * k)) by lia. simpl.
    split; [exact H1|]. replace (k + (k + 0) + 1)%nat with (2 * k + 1)%nat by lia.
    exact H2.
Qed.

End Runs.

Section RunsAndExport.
Context {E : Externals}.

Lemma Forall2_nth_l {A B} (R : A -> B -> Prop) (l : list A) (l' : list B) (k : nat) (a : A) :
  Forall2 R l l' -> nth_error l k = Some a -> exists b, nth_error l' k = Some b /\ R a b.
Proof.
  intros H. revert k. induction H as [|x y l l' Hxy _ IH]; intros k.
  - destruct k; discriminate.
  - destruct k as [|k]; simpl.
    + intros [= <-]. eauto.
    + apply IH.
Qed.

Lemma pairs_length (pairs : list (export_row * export_row)) :
  List.length (flat_map (fun pr : export_row * export_row => [fst pr; snd pr]) pairs)
  = (2 * List.length pairs)%nat.
Proof. induction pairs as [|p pairs IH]; simpl; [reflexivity|]. rewrite IH. lia. Qed.

(** The two rows of a match whose indices lie in the frame. *)
Lemma export_match_valid (df : list record) (m : match_dict) (a b : record) :
  (0 <= record_a_idx m < Z.of_nat (List.length df))%Z ->
  (0 <= record_b_idx m < Z.of_nat (List.length df))%Z ->
  nth_error df (Z.to_nat (record_a_idx m)) = Some a ->
  nth_error df (Z.to_nat (record_b_idx m)) = Some b ->
  exists ra rb, export_match df m = Ok [ra; rb] /\ row_of df ra /\ row_of df rb.
Proof.
  intros Ba Bb Na Nb. unfold export_match, bind.
  rewrite (@iloc_valid df _ a Ba Na), (@iloc_valid df _ b Bb Nb).
  do 2 eexists. split; [reflexivity|].
  split; (split; [cbn; lia|]); [exists a | exists b]; cbn; repeat split; assumption.
Qed.

End RunsAndExport.

(** X15. On a frame with the default index (the index of a row is its
    position), every match of a run joins two different rows of the
    frame that stand in one block: its indices are positions of the
    frame, the first before the second, and the two rows share the
    blocking key and pass the second-name rule and the date rule. *)
Theorem run_matches_join_block_rows (E : Externals) (self : checker)
  (completion : nat -> list nat) (df : frame) (ct : Q)
  (ms : list match_dict) (m : match_dict) :
  analyze_duplicates self completion df ct = Ok ms -> In m ms ->
  (0 <= record_a_idx m < record_b_idx m)%Z
  /\ (record_b_idx m < Z.of_nat (List.length df))%Z
  /\ exists a b,
       nth_error df (Z.to_nat (record_a_idx m)) = Some a
       /\ nth_error df (Z.to_nat (record_b_idx m)) = Some b
       /\ blocking_key (use_phonetic self) a = blocking_key (use_phonetic self) b
       /\ check_zweitname (Name a) (Name2 a) (Name b) (Name2 b) = true
       /\ check_date_rule (Geburtstag a) (Jahrgang a) (Geburtstag b) (Jahrgang b) = true.
Proof. intros Hrun Hin. exact (@run_match_rows E self completion df ct ms m Hrun Hin). Qed.

Lemma run_matches_join_block_rows_witness :
  (0 <= record_a_idx (nth 1 mixed_run_matches no_match)
   < record_b_idx (nth 1 mixed_run_matches no_match))%Z
  /\ (record_b_idx (nth 1 mixed_run_matches no_match)
      < Z.of_nat (List.length mixed_frame))%Z
  /\ exists a b,
       nth_error mixed_frame (Z.to_nat (record_a_idx (nth 1 mixed_run_matches no_match)))
       = Some a
       /\ nth_error mixed_frame (Z.to_nat (record_b_idx (nth 1 mixed_run_matches no_match)))
          = Some b
       /\ @blocking_key Latin1.externals (use_phonetic sequential_checker) a
          = @blocking_key Latin1.externals (use_phonetic sequential_checker) b
       /\ @check_zweitname Latin1.externals (Name a) (Name2 a) (Name b) (Name2 b) = true
       /\ @check_date_rule Latin1.externals
            (Geburtstag a) (Jahrgang a) (Geburtstag b) (Jahrgang b) = true.
Proof.
  apply (@run_matches_join_block_rows Latin1.externals sequential_checker
           (fun n => seq 0 n) mixed_frame 70 mixed_run_matches).
  - vm_compute. reflexivity.
  - vm_compute. right. left. reflexivity.
Defined.

(** X16. A run that returns has found two different rows of the frame
    under one blocking key. On a frame in which no two rows share a
    blocking key (an empty frame, a single row) the run raises
    [ZeroDivisionError], from the log line of the average block size of
    [create_blocks]: such a frame is not answered by an empty list. *)
Theorem analyze_duplicates_outcome (E : Externals) (self : checker)
  (completion : nat -> list nat) (df : frame) (ct : Q) :
  (forall ms,
      analyze_duplicates self completion df ct = Ok ms ->
      exists i j a b,
        (i < j)%nat /\ nth_error df i = Some a /\ nth_error df j = Some b
        /\ blocking_key (use_phonetic self) a = blocking_key (use_phonetic self) b)
  /\ ((forall i j a b,
          (i < j)%nat -> nth_error df i = Some a -> nth_error df j = Some b ->
          blocking_key (use_phonetic self) a <> blocking_key (use_phonetic self) b) ->
      analyze_duplicates self completion df ct = Raise ZeroDivisionError).
Proof.
  assert (Hmax : default_max_block_size <> 0%nat) by (unfold default_max_block_size; lia).
  unfold analyze_duplicates, bind.
  destruct (@create_blocks_outcome E (use_phonetic self) df _ Hmax) as [[blocks Hb]|Hb];
    rewrite Hb; [|split; [discriminate | reflexivity]].
  destruct (@create_blocks_sized E _ _ _ _ Hb) as [Hne Hall].
  destruct blocks as [|[key blk] blocks]; [contradiction|].
  assert (Hrows : exists i j a b,
             (i < j)%nat /\ nth_error df i = Some a /\ nth_error df j = Some b
             /\ blocking_key (use_phonetic self) a = blocking_key (use_phonetic self) b).
  { apply Forall_inv in Hall. cbn [snd map] in Hall.
    destruct Hall as [(Hasc & Hin & k & Hkey) [Hlen _]].
    destruct blk as [|[ia a] [|[ib b] blk]]; [simpl in Hlen; lia..|].
    assert (Hlt : (ia < ib)%Z).
    { apply (@sorted_nth _ _ _ 0%nat 1%nat (ia, a) (ib, b) Hasc); [lia|reflexivity..]. }
    destruct (in_indexed _ _ _ (Hin (ia, a) (or_introl eq_refl))) as [Ba Na].
    destruct (in_indexed _ _ _ (Hin (ib, b) (or_intror (or_introl eq_refl)))) as [Bb Nb].
    exists (Z.to_nat ia), (Z.to_nat ib), a, b.
    split; [lia|]. split; [exact Na|]. split; [exact Nb|].
    transitivity k.
    - exact (Hkey (ia, a) (or_introl eq_refl)).
    - symmetry. exact (Hkey (ib, b) (or_intror (or_introl eq_refl))). }
  split; [intros _ _; exact Hrows|].
  intros Hnone. destruct Hrows as (i & j & a & b & Hij & Ha & Hb' & Hkey).
  destruct (Hnone i j a b Hij Ha Hb' Hkey).
Qed.

Lemma analyze_duplicates_outcome_witness :
  (forall ms,
      run mixed_frame 70 = Ok ms ->
      exists i j a b,
        (i < j)%nat /\ nth_error mixed_frame i = Some a /\ nth_error mixed_frame j = Some b
        /\ @blocking_key Latin1.externals (use_phonetic sequential_checker) a
           = @blocking_key Latin1.externals (use_phonetic sequential_checker) b)
  /\ run [bare_row] 70 = Raise ZeroDivisionError.
Proof.
  split.
  - exact (proj1 (@analyze_duplicates_outcome Latin1.externals sequential_checker
                    (fun n => seq 0 n) mixed_frame 70)).
  - apply (proj2 (@analyze_duplicates_outcome Latin1.externals sequential_checker
                    (fun n => seq 0 n) [bare_row] 70)).
    intros i j a b Hij _ Hb. destruct j as [|j]; [lia|].
    destruct j; discriminate Hb.
Defined.

(** X17. [export_results] writes two rows for each match, in the order
    of the matches: the row of side A and then the row of side B, with
    the indices, the confidence and the kind of the match and one match
    id for both. *)
Theorem export_results_two_rows_per_match (ms : list match_dict) (df : list record)
  (rows : list export_row) :
  export_results ms df = Ok (Some rows) ->
  List.length rows = (2 * List.length ms)%nat
  /\ forall k m, nth_error ms k = Some m ->
       exists ra rb,
         nth_error rows (2 * k) = Some ra /\ nth_error rows (2 * k + 1) = Some rb
         /\ sides_of m ra rb.
Proof.
  unfold export_results. destruct ms as [|m0 ms]; [discriminate|].
  generalize (m0 :: ms). clear m0 ms. intros ms. unfold bind at 1.
  destruct (for_each ms _ []) as [rs|] eqn:Hloop; [|discriminate].
  intros [= <-]. apply export_loop in Hloop as (pairs & -> & Hall). cbn [app].
  split.
  - rewrite pairs_length. f_equal. symmetry. exact (Forall2_length Hall).
  - intros k m Hk. destruct (@Forall2_nth_l _ _ _ _ _ k m Hall Hk) as ([ra rb] & Hp & Hs).
    destruct (@pairs_nth _ _ _ Hp) as [H1 H2]. exists ra, rb. auto.
Qed.

Lemma export_results_two_rows_per_match_witness :
  List.length mixed_export = (2 * List.length mixed_run_matches)%nat
  /\ forall k m, nth_error mixed_run_matches k = Some m ->
       exists ra rb,
         nth_error mixed_export (2 * k) = Some ra
         /\ nth_error mixed_export (2 * k + 1) = Some rb
         /\ sides_of m ra rb.
Proof.
  apply (@export_results_two_rows_per_match mixed_run_matches mixed_frame).
  vm_compute. reflexivity.
Defined.

(** X18. On a frame with the default index (the index of a row is its
    position), the matches of a run can be exported over the frame of
    the run: [export_results] raises no [IndexError], it returns nothing
    exactly when there is no match, and each row it writes carries the
    cells of the row of the frame at its index. *)
Theorem export_of_run_returns (E : Externals) (self : checker)
  (completion : nat -> list nat) (df : frame) (ct : Q) (ms : list match_dict) :
  analyze_duplicates self completion df ct = Ok ms ->
  exists r,
    export_results ms df = Ok r
    /\ match r with
       | None => ms = []
       | Some rows => ms <> [] /\ Forall (row_of df) rows
       end.
Proof.
  intros Hrun. unfold export_results.
  assert (Hbody : forall m, In m ms ->
             exists ra rb, export_match df m = Ok [ra; rb] /\ row_of df ra /\ row_of df rb).
  { intros m Hin.
    destruct (@run_match_rows E self completion df ct ms m Hrun Hin)
      as (Hab & Hb & a & b & Na & Nb & _).
    apply (@export_match_valid df m a b); [lia | lia | exact Na | exact Nb]. }
  clear Hrun. destruct ms as [|m0 ms]; [exists None; split; reflexivity|].
  assert (Hne : m0 :: ms <> []) by discriminate.
  revert Hbody Hne. generalize (m0 :: ms). clear m0 ms. intros ms Hbody Hne.
  unfold bind at 1.
  assert (Htot : forall m s, In m ms ->
             exists s', (rows <- export_match df m ;; Ok (s ++ rows)) = Ok s').
  { intros m s Hin. destruct (Hbody m Hin) as (ra & rb & -> & _). eexists. reflexivity. }
  destruct (for_each_total ms
              (fun m export_rows => rows <- export_match df m ;; Ok (export_rows ++ rows))
              Htot []) as [rows Hrows].
  rewrite Hrows. exists (Some rows). split; [reflexivity|]. split; [exact Hne|].
  refine (@for_each_inv _ _ (Forall (row_of df)) ms _ _ [] rows (Forall_nil _) Hrows).
  intros m s s' Hin Hs. destruct (Hbody m Hin) as (ra & rb & -> & Ha & Hb).
  unfold bind. intros [= <-]. apply Forall_app. split; [exact Hs|].
  constructor; [exact Ha|]. constructor; [exact Hb|]. constructor.
Qed.

Lemma export_of_run_returns_witness :
  exists r,
    export_results mixed_run_matches mixed_frame = Ok r
    /\ match r with
       | None => mixed_run_matches = []
       | Some rows => mixed_run_matches <> [] /\ Forall (row_of mixed_frame) rows
       end.
Proof.
  apply (@export_of_run_returns Latin1.externals sequential_checker
           (fun n => seq 0 n) mixed_frame 70 mixed_run_matches).
  vm_compute. reflexivity.
Defined.

(** The default index matters here. The worker reports the index labels
    of the rows, and [export_results] reads them as positions: for two
    rows under the labels 10 and 20 the match is (10, 20), and its
    export over the two rows raises [IndexError]. *)
Example labels_are_read_as_positions :
  map index_pair labelled_matches = [(10, 20)%Z]
  /\ export_results labelled_matches (map snd labelled_block) = Raise IndexError.
Proof. split; vm_compute; reflexivity. Qed.

(** ** What a blocking key stands for *)

Lemma app_inj_length {A} (a b c d : list A) :
  List.length a = List.length b -> a ++ c = b ++ d -> a = b /\ c = d.
Proof.
  revert b. induction a as [|x a IH]; intros [|y b] Hlen; try discriminate.
  - simpl. auto.
  - simpl. intros [= -> H]. injection Hlen as Hlen.
    destruct (IH b Hlen H) as [-> ->]. auto.
Qed.

Lemma normalize_plz_length (E : Externals) (plz : value) :
  List.length (normalize_plz_vectorized plz) = 5%nat.
Proof.
  unfold normalize_plz_vectorized, slice_to, zfill.
  apply firstn_length_le. rewrite length_app, repeat_length.
  unfold pystr, cp in *. lia.
Qed.

(** The standard key of a row, by its street. *)
Lemma standard_blocking_key_cases (E : Externals) (r : record) :
  standard_blocking_key r
  = if str_eqb (normalize_street_vectorized (Strasse r)) []
    then u "plz_only_" ++ normalize_plz_vectorized (Plz r)
    else normalize_plz_vectorized (Plz r) ++ u "_" ++ normalize_street_vectorized (Strasse r).
Proof.
  unfold standard_blocking_key.
  destruct (normalize_plz_head E (Plz r)) as (c & rest & -> & _).
  generalize (normalize_street_vectorized (Strasse r)). intros street.
  assert (Hne : str_eqb (c :: rest) [] = false).
  { destruct (str_eqb (c :: rest) []) eqn:Heq;
      [apply str_eqb_eq in Heq; discriminate | reflexivity]. }
  cbv zeta. rewrite Hne. destruct (str_eqb street []); reflexivity.
Qed.

(** X19. Two rows have the same blocking key exactly when their
    normalized postal codes agree and their normalized streets agree;
    the names, the house number and the town take no part in it, with
    and without phonetic blocking. *)
Theorem blocking_key_same_address (E : Externals) (use_phonetic : bool) (a b : record) :
  blocking_key use_phonetic a = blocking_key use_phonetic b
  <-> normalize_plz_vectorized (Plz a) = normalize_plz_vectorized (Plz b)
      /\ normalize_street_vectorized (Strasse a) = normalize_street_vectorized (Strasse b).
Proof.
  rewrite !(proj2 (no_address_unreachable E _)), !standard_blocking_key_cases.
  pose proof (normalize_plz_length E (Plz a)) as La.
  pose proof (normalize_plz_length E (Plz b)) as Lb.
  destruct (normalize_plz_head E (Plz a)) as (ca & ra & Ha & Da).
  destruct (normalize_plz_head E (Plz b)) as (cb & rb & Hb & Db).
  revert La Lb Ha Hb.
  generalize (normalize_plz_vectorized (Plz a)) (normalize_plz_vectorized (Plz b)).
  generalize (normalize_street_vectorized (Strasse a))
             (normalize_street_vectorized (Strasse b)).
  intros sa sb pa pb La Lb Ha Hb.
  split.
  - destruct (str_eqb sa []) eqn:Ea, (str_eqb sb []) eqn:Eb; intros Heq.
    + apply str_eqb_eq in Ea, Eb. subst sa sb.
      apply app_inv_head in Heq. auto.
    + exfalso. subst pb. vm_compute in Heq. injection Heq as <- _.
      vm_compute in Db. discriminate Db.
    + exfalso. subst pa. vm_compute in Heq. injection Heq as -> _.
      vm_compute in Da. discriminate Da.
    + apply app_inj_length in Heq as [-> Heq]; [|congruence].
      apply app_inv_head in Heq. auto.
  - intros [-> ->]. reflexivity.
Qed.

(** ** The shape of the normal forms *)

(** X20. A normalized street holds nothing but the letters a to z and
    single spaces, and neither starts nor ends with a space: digits,
    punctuation and every character that unidecode does not turn into
    such a letter are dropped. *)
Theorem normalize_street_output (E : Externals) (street : value) :
  Forall az_or_space (normalize_street_vectorized street)
  /\ tidy_from false (normalize_street_vectorized street)
  /\ strip (normalize_street_vectorized street) = normalize_street_vectorized street.
Proof.
  split; [apply normalize_street_chars|].
  destruct (normalize_street_shape street) as [w ->]. split.
  - apply tidy_strip. apply (tidy_weaken false). apply collapse_tidy.
  - apply strip_idem.
Qed.

Section NameNormalizers.
Context {E : Externals}.

Lemma lower_strip_plain (s : pystr) :
  Forall (fun c => is_ascii c = true) s -> Forall plain (lower (strip s)).
Proof.
  intros Hs. apply Forall_strip in Hs. unfold lower. rewrite (forallb_ascii Hs).
  induction Hs as [|c t Hc _ IH]; simpl; constructor; auto.
  unfold plain, ascii_lower, is_ascii, is_AZ in *. apply N.ltb_lt in Hc.
  destruct ((65 <=? c) && (c <=? 90)) eqn:HAZ.
  - apply andb_true_iff in HAZ as [H1 H2]. apply N.leb_le in H1, H2.
    split; [apply N.ltb_lt; lia|].
    apply andb_false_iff. right. apply N.leb_gt. lia.
  - split; [now apply N.ltb_lt | exact HAZ].
Qed.

End NameNormalizers.

(** X21. On ASCII text the two name normalizers of the module agree:
    [VectorizedAddressNormalizer.normalize_name_vectorized] and
    [OptimizedFuzzyMatcher.normalize_name] differ only in how they write
    the umlauts. *)
Theorem name_normalizers_agree_on_ascii (E : Externals) (s : pystr) :
  Forall (fun c => is_ascii c = true) s ->
  normalize_name_vectorized (VStr s) = normalize_name (VStr s).
Proof.
  intros Hs. pose proof (lower_strip_plain Hs) as Hl.
  unfold normalize_name_vectorized, normalize_name. cbn [isna str fillna_str]. cbv zeta.
  rewrite (@replace_char_plain 223 (u "ss") _ eq_refl Hl).
  rewrite (@replace_char_plain 252 (u "ue") _ eq_refl Hl).
  rewrite (@replace_char_plain 228 (u "ae") _ eq_refl Hl).
  rewrite (@replace_char_plain 246 (u "oe") _ eq_refl Hl).
  rewrite (unidecode_plain Hl).
  destruct (lower (strip s)); reflexivity.
Qed.

Lemma name_normalizers_agree_on_ascii_witness :
  @normalize_name_vectorized Latin1.externals (VStr (u "  Anna  Maria "))
  = @normalize_name Latin1.externals (VStr (u "  Anna  Maria ")).
Proof.
  apply (@name_normalizers_agree_on_ascii Latin1.externals (u "  Anna  Maria ")).
  vm_compute. repeat constructor.
Defined.

(** The two normalizers on an umlaut. *)
Example name_normalizers_differ_on_umlaut :
  @normalize_name_vectorized Latin1.externals (VStr (u "Müller")) = u "muller"
  /\ @normalize_name Latin1.externals (VStr (u "Müller")) = u "mueller".
Proof. split; vm_compute; reflexivity. Qed.

(** X22. On ASCII text the name normalizer is idempotent. *)
Theorem normalize_name_settles_ascii (E : Externals) (s : pystr) :
  Forall (fun c => is_ascii c = true) s ->
  normalize_name (VStr (normalize_name (VStr s))) = normalize_name (VStr s).
Proof. intros H. now apply normalize_name_fixed, normalize_name_ascii. Qed.

Lemma normalize_name_settles_ascii_witness :
  @normalize_name Latin1.externals
    (VStr (@normalize_name Latin1.externals (VStr (u "  Anna  MARIA "))))
  = @normalize_name Latin1.externals (VStr (u "  Anna  MARIA ")).
Proof.
  apply (@normalize_name_settles_ascii Latin1.externals (u "  Anna  MARIA ")).
  vm_compute. repeat constructor.
Defined.

(** ** Each pair once *)

Lemma for_each_seq_inv {S} (I : nat -> S -> Prop) (body : nat -> S -> result S) (n a : nat) :
  (forall k s s', (a <= k < a + n)%nat -> I k s -> body k s = Ok s' -> I (Datatypes.S k) s') ->
  forall s s', I a s -> for_each (seq a n) body s = Ok s' -> I (a + n)%nat s'.
Proof.
  revert a. induction n as [|n IH]; intros a Hstep s s' Hs; simpl.
  - intros [= <-]. now rewrite Nat.add_0_r.
  - unfold bind. destruct (body a s) as [s1|] eqn:Hb; [|discriminate].
    intros H. replace (a + Datatypes.S n)%nat with (Datatypes.S a + n)%nat by lia.
    apply (IH (Datatypes.S a)) with (s := s1).
    + intros k t t' Hk. apply Hstep. lia.
    + apply (Hstep a s s1); [lia | exact Hs | exact Hb].
    + exact H.
Qed.

Lemma for_each_range_inv {S} (I : nat -> S -> Prop) (body : nat -> S -> result S) (a b : nat) :
  (a <= b)%nat ->
  (forall k s s', (a <= k < b)%nat -> I k s -> body k s = Ok s' -> I (Datatypes.S k) s') ->
  forall s s', I a s -> for_each (range a b) body s = Ok s' -> I b s'.
Proof.
  intros Hab Hstep s s' Hs H. unfold range in H.
  replace b with (a + (b - a))%nat by lia.
  apply (@for_each_seq_inv S I body (b - a) a) with (s := s); [|exact Hs|exact H].
  intros k t t' Hk. apply Hstep. lia.
Qed.

Lemma sorted_snoc {A} (R : A -> A -> Prop) (l : list A) (y : A) :
  StronglySorted R l -> Forall (fun x => R x y) l -> StronglySorted R (l ++ [y]).
Proof.
  induction 1 as [|a l Hl IH Ha]; intros Hy; simpl.
  - constructor; constructor.
  - apply Forall_cons_iff in Hy as [Hay Hy]. constructor; [now apply IH|].
    apply Forall_app. split; [exact Ha|]. constructor; [exact Hay|constructor].
Qed.

Lemma match_lt_irrefl (m1 m2 : match_dict) :
  match_lt m1 m2 -> index_pair m1 <> index_pair m2.
Proof. unfold match_lt, index_pair. intros [H|[_ H]] [= H1 H2]; lia. Qed.

Lemma sorted_pairs_NoDup (ms : list match_dict) :
  StronglySorted match_lt ms -> NoDup (map index_pair ms).
Proof.
  induction 1 as [|m ms Hms IH Hm]; simpl; constructor; [|exact IH].
  intros Hin. apply in_map_iff in Hin as (m' & Heq & Hin).
  rewrite Forall_forall in Hm. apply (match_lt_irrefl (Hm m' Hin)). now symmetry.
Qed.

Lemma ascending_nth (blk : block) (p q : nat) (x y : Z) :
  ascending blk -> (p < q)%nat ->
  nth_error (map fst blk) p = Some x -> nth_error (map fst blk) q = Some y -> (x < y)%Z.
Proof.
  intros Hasc Hpq Hp Hq. rewrite nth_error_map in Hp, Hq.
  destruct (nth_error blk p) as [rp|] eqn:Ep; [|discriminate].
  destruct (nth_error blk q) as [rq|] eqn:Eq; [|discriminate].
  injection Hp as <-. injection Hq as <-.
  exact (@sorted_nth _ _ blk p q rp rq Hasc Hpq Ep Eq).
Qed.

Lemma ascending_NoDup (blk : block) : ascending blk -> NoDup (map fst blk).
Proof.
  induction 1 as [|r blk Hblk IH Hr]; simpl; constructor; [|exact IH].
  intros Hin. apply in_map_iff in Hin as (r' & Heq & Hin).
  rewrite Forall_forall in Hr. specialize (Hr r' Hin). lia.
Qed.

Section PairOrder.
Context {E : Externals}.

Lemma stage_inv_later (blk : block) (ex : bool) (ms0 : list match_dict)
  (i j i2 j2 : nat) (st : wstate) :
  ((i < i2)%nat \/ (i = i2 /\ (j <= j2)%nat)) ->
  stage_inv blk ex ms0 i j st -> stage_inv blk ex ms0 i2 j2 st.
Proof.
  intros Hle (new & Hst & Hs & Hall). exists new. split; [exact Hst|]. split; [exact Hs|].
  eapply Forall_impl; [|exact Hall].
  intros m [(i' & j' & Hij & Hpos & Ha & Hb) Hex]. split; [|exact Hex].
  exists i', j'. split; [exact Hij|]. split; [lia|]. auto.
Qed.

Lemma stage_inv_emit (blk : block) (ex : bool) (ms0 : list match_dict)
  (i j : nat) (st : wstate) (m : match_dict) (a b : record) (marks : list nat) :
  ascending blk -> stage_inv blk ex ms0 i j st ->
  located blk m i j a b -> is_exact (match_type m) = ex ->
  stage_inv blk ex ms0 i (Datatypes.S j) (fst st ++ [m], marks).
Proof.
  intros Hasc (new & Hst & Hs & Hall) (Hij & Hi & Hj & _) Hex.
  assert (Hia : nth_error (map fst blk) i = Some (record_a_idx m))
    by (rewrite nth_error_map, Hi; reflexivity).
  assert (Hjb : nth_error (map fst blk) j = Some (record_b_idx m))
    by (rewrite nth_error_map, Hj; reflexivity).
  exists (new ++ [m]). cbn [fst]. split; [rewrite Hst; now rewrite app_assoc|]. split.
  - apply sorted_snoc; [exact Hs|].
    eapply Forall_impl; [|exact Hall].
    intros m' [(i' & j' & Hij' & Hpos & Ha & Hb) _]. unfold match_lt.
    destruct Hpos as [Hlt|[-> Hlt]].
    + left. exact (ascending_nth Hasc Hlt Ha Hia).
    + right. split; [congruence|]. exact (ascending_nth Hasc Hlt Hb Hjb).
  - apply Forall_app. split.
    + eapply Forall_impl; [|exact Hall].
      intros m' [(i' & j' & Hij' & Hpos & Ha & Hb) Hex']. split; [|exact Hex'].
      exists i', j'. split; [exact Hij'|]. split; [lia|]. auto.
    + constructor; [|constructor]. split; [|exact Hex].
      exists i, j. split; [exact Hij|]. split; [right; lia|]. auto.
Qed.

Lemma stage1_in_order (blk : block) (st st' : wstate) :
  ascending blk -> stage1 blk st = Ok st' ->
  stage_inv blk true (fst st) (List.length blk) 0 st'.
Proof.
  intros Hasc. unfold stage1. cbv zeta.
  apply (@for_each_range_inv _ (fun i s => stage_inv blk true (fst st) i 0 s)); [lia| |].
  - intros i s s' Hi Hs Hloop.
    apply (@stage_inv_later blk true (fst st) i (List.length blk)); [left; lia|].
    revert Hloop.
    apply (@for_each_range_inv _ (fun j t => stage_inv blk true (fst st) i j t)); [lia| |].
    + intros j t t' Hj Ht Hpair.
      apply stage1_pair_origin in Hpair as [->|(m & a & b & -> & Hloc & Hex & _)]; [| |lia].
      * apply (@stage_inv_later blk true (fst st) i j); [right; lia | exact Ht].
      * exact (stage_inv_emit _ Hasc Ht Hloc Hex).
    + apply (@stage_inv_later blk true (fst st) i 0); [right; lia | exact Hs].
  - exists []. split; [now rewrite app_nil_r|]. split; constructor.
Qed.

Lemma stage2_in_order (blk : block) (ct ft : Q) (st st' : wstate) :
  ascending blk -> stage2 blk ct ft st = Ok st' ->
  stage_inv blk false (fst st) (List.length blk) 0 st'.
Proof.
  intros Hasc. unfold stage2. cbv zeta.
  apply (@for_each_range_inv _ (fun i s => stage_inv blk false (fst st) i 0 s)); [lia| |].
  - intros i s s' Hi Hs.
    destruct (mem i (snd s)).
    { intros [= <-]. apply (@stage_inv_later blk false (fst st) i 0); [left; lia | exact Hs]. }
    intros Hloop.
    apply (@stage_inv_later blk false (fst st) i (List.length blk)); [left; lia|].
    revert Hloop.
    apply (@for_each_range_inv _ (fun j t => stage_inv blk false (fst st) i j t)); [lia| |].
    + intros j t t' Hj Ht Hpair.
      apply stage2_pair_origin in Hpair as [->|(m & a & b & -> & Hloc & Hex & _)]; [| |lia].
      * apply (@stage_inv_later blk false (fst st) i j); [right; lia | exact Ht].
      * exact (stage_inv_emit _ Hasc Ht Hloc Hex).
    + apply (@stage_inv_later blk false (fst st) i 0); [right; lia | exact Hs].
  - exists []. split; [now rewrite app_nil_r|]. split; constructor.
Qed.

End PairOrder.

(** The pairs of a block, over both stages. *)
Lemma worker_pairs_NoDup (E : Externals) (blk : block) (ct ft : Q)
  (ms : list match_dict) :
  ascending blk -> process_block_worker (blk, ct, ft) = Ok ms ->
  NoDup (map index_pair ms).
Proof.
  intros Hasc Hw.
  destruct (@process_block_worker_origin E blk ct ft ms Hw) as [matched Horigin].
  revert Hw. unfold process_block_worker.
  destruct (List.length blk <? 2)%nat; [intros [= <-]; constructor|].
  unfold bind.
  destruct (stage1 blk ([], [])) as [st1|] eqn:H1; [|discriminate].
  destruct (stage2 blk ct ft st1) as [st2|] eqn:H2; [|discriminate].
  intros [= <-].
  apply (stage1_in_order _ Hasc) in H1 as (new1 & Hst1 & Hs1 & Hall1).
  apply (stage2_in_order _ _ _ Hasc) in H2 as (new2 & Hst2 & Hs2 & Hall2).
  cbn [fst app] in Hst1. rewrite Hst2, Hst1 in *. rewrite map_app.
  apply NoDup_app; [now apply sorted_pairs_NoDup | now apply sorted_pairs_NoDup |].
  intros p Hp1 Hp2.
  apply in_map_iff in Hp1 as (m1 & <- & Hin1). apply in_map_iff in Hp2 as (m2 & Heq & Hin2).
  rewrite Forall_forall in Hall1, Hall2.
  destruct (@exact_rows_apart E blk ft matched (new1 ++ new2) m1 m2
              (ascending_NoDup Hasc) Horigin) as [Hne _].
  - apply in_or_app. now left.
  - apply in_or_app. now right.
  - apply (Hall1 m1 Hin1).
  - apply (Hall2 m2 Hin2).
  - apply Hne. now injection Heq.
Qed.

(** X23. The worker reports no pair of rows twice: in a block whose
    rows stand in ascending order of their index, as the blocks of
    [create_blocks] do, the pairs of indices of the matches are all
    different, over both stages. *)
Theorem block_pairs_unique (E : Externals) (blk : block) (ct ft : Q)
  (ms : list match_dict) :
  ascending blk -> process_block_worker (blk, ct, ft) = Ok ms ->
  NoDup (map index_pair ms).
Proof. exact (@worker_pairs_NoDup E blk ct ft ms). Qed.

Lemma block_pairs_unique_witness : NoDup (map index_pair mixed_matches).
Proof.
  apply (@block_pairs_unique Latin1.externals (indexed mixed_frame) 70 (7 # 10)).
  - unfold ascending. vm_compute. repeat constructor.
  - vm_compute. reflexivity.
Defined.

(** ** Each pair once in a run *)

(** *** The order of the keys *)

Lemma str_ltb_irrefl (a : pystr) : str_ltb a a = false.
Proof.
  induction a as [|x a IH]; simpl; [reflexivity|].
  rewrite N.ltb_irrefl, N.eqb_refl, IH. reflexivity.
Qed.

Lemma str_ltb_trans (a b c : pystr) :
  str_ltb a b = true -> str_ltb b c = true -> str_ltb a c = true.
Proof.
  revert b c. induction a as [|x a IH]; intros [|y b] [|z c]; simpl; try discriminate; auto.
  rewrite !orb_true_iff, !andb_true_iff, !N.ltb_lt, !N.eqb_eq.
  intros [H1|[H1 H1']] [H2|[H2 H2']].
  - left. lia.
  - left. lia.
  - left. lia.
  - right. split; [lia|]. exact (IH b c H1' H2').
Qed.

Lemma str_ltb_total (a b : pystr) :
  str_eqb a b = false -> str_ltb a b = false -> str_ltb b a = true.
Proof.
  intros Hne. assert (Hab : a <> b).
  { intros ->. unfold str_eqb in Hne. destruct (list_eq_dec N.eq_dec b b); congruence. }
  clear Hne. revert b Hab. induction a as [|x a IH]; intros [|y b] Hab; simpl;
    try congruence; auto.
  rewrite orb_false_iff, andb_false_iff, N.ltb_ge, N.eqb_neq.
  intros [H1 H2]. rewrite orb_true_iff, andb_true_iff, N.ltb_lt, N.eqb_eq.
  destruct (N.eq_dec x y) as [->|Hxy].
  - right. split; [reflexivity|]. apply IH; [congruence|]. destruct H2; congruence.
  - left. lia.
Qed.

Lemma insert_key_sorted (k : pystr) (ks : list pystr) :
  StronglySorted str_lt ks ->
  StronglySorted str_lt (insert_key k ks)
  /\ forall x, In x (insert_key k ks) -> x = k \/ In x ks.
Proof.
  induction 1 as [|k' ks Hks IH Hk']; simpl.
  - split; [constructor; constructor|]. intros x [<-|[]]. now left.
  - destruct (str_eqb k k') eqn:Heq.
    + split; [now constructor|]. intros x Hx. now right.
    + destruct (str_ltb k k') eqn:Hlt.
      * split; [|intros x [<-|Hx]; [now left|now right]].
        constructor; [now constructor|]. constructor; [exact Hlt|].
        eapply Forall_impl; [|exact Hk']. intros x Hx. exact (str_ltb_trans _ _ _ Hlt Hx).
      * destruct IH as [IH1 IH2]. split.
        -- constructor; [exact IH1|]. apply Forall_forall. intros x Hx.
           destruct (IH2 x Hx) as [->|Hin].
           ++ exact (str_ltb_total _ _ Heq Hlt).
           ++ rewrite Forall_forall in Hk'. now apply Hk'.
        -- intros x [<-|Hx]; [right; now left|].
           destruct (IH2 x Hx) as [->|Hin]; [now left | right; now right].
Qed.

Lemma sorted_keys_sorted (ks : list pystr) : StronglySorted str_lt (sorted_keys ks).
Proof.
  unfold sorted_keys. induction ks as [|k ks IH]; simpl; [constructor|].
  now apply insert_key_sorted.
Qed.

Lemma sorted_keys_NoDup (ks : list pystr) : NoDup (sorted_keys ks).
Proof.
  generalize (sorted_keys_sorted ks). generalize (sorted_keys ks). clear ks.
  induction 1 as [|k ks Hks IH Hk]; constructor; [|exact IH].
  intros Hin. rewrite Forall_forall in Hk. specialize (Hk k Hin).
  unfold str_lt in Hk. rewrite str_ltb_irrefl in Hk. discriminate.
Qed.

(** *** The groups share no row *)

Lemma filter_keeps_NoDup {A B} (key : A -> B) (keep : A -> bool) (rows : list A)
  (Hrows : NoDup (map key rows)) : NoDup (map key (filter keep rows)).
Proof.
  induction rows as [|r rows IH]; simpl in *; [constructor|].
  apply NoDup_cons_iff in Hrows as [Hr Hrows].
  destruct (keep r); simpl; [|now apply IH].
  constructor; [|now apply IH].
  intros Hin. apply Hr. apply in_map_iff in Hin as (r' & Hkey & Hin).
  apply in_map_iff. exists r'. split; [exact Hkey|]. now apply filter_In in Hin.
Qed.

Lemma NoDup_map_inj {A B} (f : A -> B) (l : list A) (a b : A) :
  NoDup (map f l) -> In a l -> In b l -> f a = f b -> a = b.
Proof.
  induction l as [|c l IH]; simpl; [intros _ []|].
  intros H. apply NoDup_cons_iff in H as [Hc Hl].
  intros [->|Ha] [->|Hb] Heq; auto.
  - exfalso. apply Hc. rewrite Heq. now apply in_map.
  - exfalso. apply Hc. rewrite <- Heq. now apply in_map.
Qed.

Section Disjoint.
Context {E : Externals}.

Lemma indexed_NoDup (df : frame) : NoDup (map fst (indexed df)).
Proof. apply ascending_NoDup, indexed_ascending. Qed.

Lemma groups_NoDup (key_of : Z * record -> pystr) (rows : block) (keys : list pystr) :
  NoDup keys -> NoDup (map fst rows) ->
  NoDup (map fst (flat_map (fun k => filter (fun row => str_eqb (key_of row) k) rows) keys)).
Proof.
  intros Hkeys Hrows. induction Hkeys as [|k keys Hk Hkeys IH]; simpl; [constructor|].
  rewrite map_app. apply NoDup_app; [now apply filter_keeps_NoDup | exact IH |].
  intros x H1 H2.
  apply in_map_iff in H1 as (r1 & <- & H1). apply filter_In in H1 as [In1 K1].
  apply in_map_iff in H2 as (r2 & Hx & H2). apply in_flat_map in H2 as (k' & Hk' & H2).
  apply filter_In in H2 as [In2 K2].
  assert (r2 = r1) as -> by exact (@NoDup_map_inj _ _ fst _ _ _ Hrows In2 In1 Hx).
  apply str_eqb_eq in K1, K2. congruence.
Qed.

Lemma groupby_NoDup (up : bool) (df : frame) :
  NoDup (map fst (flat_map snd (groupby up df))).
Proof.
  unfold groupby. cbv zeta. rewrite flat_map_concat_map, map_map. cbn [snd].
  rewrite <- flat_map_concat_map.
  apply groups_NoDup; [apply sorted_keys_NoDup | apply indexed_NoDup].
Qed.

(** *** Adding a block *)

Lemma all_idx_dict_set (d : list (pystr * block)) (key : pystr) (v : block) (x : Z) :
  In x (all_idx (dict_set d key v)) -> In x (all_idx d) \/ In x (map fst v).
Proof.
  unfold all_idx. induction d as [|[k v'] d IH]; simpl.
  - rewrite app_nil_r. now right.
  - destruct (str_eqb k key); simpl; rewrite !in_app_iff.
    + intros [H|H]; [now right | left; now right].
    + intros [H|H]; [left; now left|]. destruct (IH H); [left; now right | now right].
Qed.

Lemma fresh_drop (d : list (pystr * block)) (v rest : block) :
  fresh d (v ++ rest) -> fresh d rest.
Proof.
  intros (Hd & Hr & Hx). rewrite map_app in *. split; [exact Hd|]. split.
  - now apply NoDup_app_remove_l in Hr.
  - intros x H1 H2. apply (Hx x H1). apply in_or_app. now right.
Qed.

Lemma NoDup_app_inv {A} (l1 l2 : list A) :
  NoDup (l1 ++ l2) -> NoDup l1 /\ NoDup l2 /\ forall x, In x l1 -> In x l2 -> False.
Proof.
  induction l1 as [|a l1 IH]; simpl.
  - intros H. split; [constructor|]. split; [exact H|]. intros x [].
  - intros H. apply NoDup_cons_iff in H as [Ha H]. destruct (IH H) as (H1 & H2 & H3).
    split; [constructor; [|exact H1]|split; [exact H2|]].
    + intros Hin. apply Ha. apply in_or_app. now left.
    + intros x [<-|Hx] Hx2; [apply Ha, in_or_app; now right | exact (H3 x Hx Hx2)].
Qed.

Lemma dict_set_NoDup (d : list (pystr * block)) (key : pystr) (v : block) :
  NoDup (all_idx d) -> NoDup (map fst v) ->
  (forall x, In x (all_idx d) -> In x (map fst v) -> False) ->
  NoDup (all_idx (dict_set d key v)).
Proof.
  intros Hd Hv. induction d as [|[k v'] d IH]; intros Hx.
  - simpl. unfold all_idx. simpl. now rewrite app_nil_r.
  - change (all_idx ((k, v') :: d)) with (map fst v' ++ all_idx d) in *.
    apply NoDup_app_inv in Hd as (H1 & H2 & H3).
    simpl. destruct (str_eqb k key).
    + change (NoDup (map fst v ++ all_idx d)).
      apply NoDup_app; [exact Hv | exact H2 |].
      intros x Hxv Hxd. apply (Hx x); [apply in_or_app; now right | exact Hxv].
    + change (NoDup (map fst v' ++ all_idx (dict_set d key v))).
      apply NoDup_app; [exact H1 | |].
      * apply IH; [exact H2|]. intros x Hxd. apply Hx. apply in_or_app. now right.
      * intros x Hx1 Hx2. apply all_idx_dict_set in Hx2 as [Hx2|Hx2].
        -- exact (H3 x Hx1 Hx2).
        -- apply (Hx x); [apply in_or_app; now left | exact Hx2].
Qed.

Lemma fresh_set (d : list (pystr * block)) (key : pystr) (v rest : block) :
  fresh d (v ++ rest) -> fresh (dict_set d key v) rest.
Proof.
  intros (Hd & Hr & Hx). rewrite map_app in *.
  apply NoDup_app_inv in Hr as (Hv & Hrest & Hvr).
  split; [|split; [exact Hrest|]].
  - apply dict_set_NoDup; [exact Hd | exact Hv |].
    intros x H1 H2. apply (Hx x H1). apply in_or_app. now left.
  - intros x H1 H2. apply all_idx_dict_set in H1 as [H1|H1].
    + apply (Hx x H1). apply in_or_app. now right.
    + exact (Hvr x H1 H2).
Qed.

Lemma chunks_fresh (key : pystr) (step fuel start : nat) (rows rest : block)
  (acc : list (pystr * block) * nat) :
  fresh (fst acc) (rows ++ rest) ->
  fresh (fst (fold_left
           (fun '(blocks, total_records) '(i, chunk) =>
              if (1 <? List.length chunk)%nat
              then (dict_set blocks (key ++ u "_chunk_" ++ decimal i) chunk,
                    (total_records + List.length chunk)%nat)
              else (blocks, total_records))
           (chunks_from fuel start step rows) acc)) rest.
Proof.
  revert start rows acc. induction fuel as [|fuel IH]; intros start rows [bl tot] H.
  - simpl. exact (@fresh_drop _ _ _ H).
  - destruct rows as [|r rows]; [exact H|].
    cbn [chunks_from fold_left]. apply IH.
    rewrite <- (firstn_skipn step (r :: rows)), <- app_assoc in H. cbn [fst] in H.
    destruct (1 <? _)%nat; cbn [fst]; [exact (@fresh_set _ _ _ _ H) | exact (@fresh_drop _ _ _ H)].
Qed.

Lemma add_group_fresh (max : nat) (g : pystr * block) (rest : block)
  (st st' : list (pystr * block) * nat) :
  fresh (fst st) (snd g ++ rest) -> add_group max g st = Ok st' -> fresh (fst st') rest.
Proof.
  destruct g as [key group_df], st as [blocks total]. cbn [fst snd]. intros H.
  unfold add_group.
  destruct (_ && _); [intros [= <-]; exact (@fresh_set _ _ _ _ H)|].
  destruct (max <? List.length group_df)%nat; [|intros [= <-]; exact (@fresh_drop _ _ _ H)].
  destruct (max =? 0)%nat; [discriminate|]. intros [= <-].
  now apply chunks_fresh.
Qed.

Lemma groups_fresh (max : nat) (groups : list (pystr * block))
  (st st' : list (pystr * block) * nat) :
  fresh (fst st) (flat_map snd groups) ->
  for_each groups (add_group max) st = Ok st' -> NoDup (all_idx (fst st')).
Proof.
  revert st. induction groups as [|g groups IH]; intros st H; simpl.
  - intros [= <-]. apply H.
  - unfold bind. destruct (add_group max g st) as [st1|] eqn:Hg; [|discriminate].
    apply IH. exact (@add_group_fresh max g _ st st1 H Hg).
Qed.

(** No row stands in two blocks of [create_blocks]. *)
Lemma create_blocks_disjoint (up : bool) (df : frame) (max : nat)
  (blocks : list (pystr * block)) :
  create_blocks up df max = Ok blocks -> NoDup (all_idx blocks).
Proof.
  unfold create_blocks, bind.
  destruct (for_each (groupby up df) (add_group max) ([], 0%nat)) as [[bl tot]|] eqn:Hloop;
    [|discriminate].
  destruct (truediv _ _); [|discriminate]. intros [= <-].
  apply groups_fresh in Hloop; [exact Hloop|].
  split; [constructor|]. split; [apply groupby_NoDup|]. intros x [].
Qed.

(** *** The matches of the tasks *)

Lemma task_match_in_block (blk : block) (ct ft : Q) (m : match_dict) :
  In m (task_matches (blk, ct, ft)) -> In (record_a_idx m) (map fst blk).
Proof.
  unfold task_matches. destruct (process_block_worker _) as [ms|] eqn:Hw; [|intros []].
  intros Hin. destruct (@process_block_worker_origin E blk ct ft ms Hw) as [matched Hall].
  rewrite Forall_forall in Hall.
  destruct (Hall m Hin) as (i & j & a & b & (_ & Hi & _) & _).
  apply in_map_iff. exists (record_a_idx m, a). split; [reflexivity|].
  exact (@nth_error_In _ _ _ _ Hi).
Qed.

Lemma tasks_pairs_NoDup (ct ft : Q) (blocks : list (pystr * block)) :
  Forall ascending (map snd blocks) -> NoDup (all_idx blocks) ->
  NoDup (map index_pair
           (flat_map task_matches (map (fun kb => (snd kb, ct, ft)) blocks))).
Proof.
  induction blocks as [|[key blk] blocks IH]; simpl; [constructor|].
  intros Hasc Hnd. apply Forall_cons_iff in Hasc as [Hblk Hasc].
  change (all_idx ((key, blk) :: blocks)) with (map fst blk ++ all_idx blocks) in Hnd.
  apply NoDup_app_inv in Hnd as (_ & Hrest & Hdis).
  rewrite map_app. apply NoDup_app; [|now apply IH|].
  - unfold task_matches. destruct (process_block_worker _) as [ms|] eqn:Hw; [|constructor].
    exact (@worker_pairs_NoDup E blk ct ft ms Hblk Hw).
  - intros p H1 H2.
    apply in_map_iff in H1 as (m1 & <- & H1). apply in_map_iff in H2 as (m2 & Heq & H2).
    apply task_match_in_block in H1.
    apply in_flat_map in H2 as (args & Hargs & H2).
    apply in_map_iff in Hargs as ([key' blk'] & <- & Hkb). cbn [snd] in H2.
    apply task_match_in_block in H2.
    apply (Hdis (record_a_idx m1) H1).
    injection Heq as <- _. unfold all_idx. apply in_flat_map.
    exists (key', blk'). split; [exact Hkb | exact H2].
Qed.

Lemma run_pairs_NoDup (self : checker) (completion : nat -> list nat)
  (df : frame) (ct : Q) (ms : list match_dict) :
  (forall n, Permutation (completion n) (seq 0 n)) ->
  analyze_duplicates self completion df ct = Ok ms ->
  NoDup (map index_pair ms).
Proof.
  intros Hsched. unfold analyze_duplicates, bind.
  destruct (create_blocks _ _ _) as [blocks|] eqn:Hb; [|discriminate].
  pose proof (@create_blocks_disjoint _ _ _ _ Hb) as Hnd.
  destruct (@create_blocks_sized E _ _ _ _ Hb) as [_ Hsized].
  assert (Hasc : Forall ascending (map snd blocks)).
  { eapply Forall_impl; [|exact Hsized]. intros blk [[H _] _]. exact H. }
  pose proof (@tasks_pairs_NoDup ct (fuzzy_threshold self) blocks Hasc Hnd) as Hseq.
  clear Hb Hsized Hasc Hnd.
  destruct blocks as [|kb blocks]; [intros [= <-]; constructor|].
  cbv beta iota zeta. revert Hseq. generalize (kb :: blocks). clear kb blocks.
  intros blocks Hseq.
  destruct (_ && _); [destruct (create_pool _); [|discriminate]|];
    intros [= <-]; [|exact Hseq].
  eapply Permutation_NoDup; [|exact Hseq].
  apply Permutation_sym, Permutation_map, flat_map_schedule, Hsched.
Qed.

End Disjoint.

(** X24. A run reports no pair of rows twice: the pairs of indices of
    its matches are all different, because no row stands in two blocks
    and a block reports no pair twice. In a parallel run this holds when
    every task completes once. *)
Theorem run_pairs_unique (E : Externals) (self : checker) (completion : nat -> list nat)
  (df : frame) (ct : Q) (ms : list match_dict) :
  (forall n, Permutation (completion n) (seq 0 n)) ->
  analyze_duplicates self completion df ct = Ok ms ->
  NoDup (map index_pair ms).
Proof. exact (@run_pairs_NoDup E self completion df ct ms). Qed.

Lemma run_pairs_unique_witness : NoDup (map index_pair mixed_run_matches).
Proof.
  apply (@run_pairs_unique Latin1.externals sequential_checker (fun n => seq 0 n)
           mixed_frame 70).
  - intros n. apply Permutation_refl.
  - vm_compute. reflexivity.
Defined.

(** X25. No row of the frame stands in two blocks of [create_blocks]:
    over all blocks, every index occurs once. *)
Theorem blocks_share_no_row (E : Externals) (up : bool) (df : frame) (max : nat)
  (blocks : list (pystr * block)) :
  create_blocks up df max = Ok blocks -> NoDup (all_idx blocks).
Proof. exact (@create_blocks_disjoint E up df max blocks). Qed.

Lemma blocks_share_no_row_witness : NoDup (all_idx mixed_blocks).
Proof.
  apply (@blocks_share_no_row Latin1.externals true mixed_frame default_max_block_size).
  vm_compute. reflexivity.
Defined.

(** ** Exact matches in a run *)

Lemma flat_map_NoDup_inj {A B} (f : A -> list B) (l : list A) (a b : A) (x : B) :
  NoDup (flat_map f l) -> In a l -> In b l -> In x (f a) -> In x (f b) -> a = b.
Proof.
  induction l as [|c l IH]; simpl; [intros _ []|].
  intros H. apply NoDup_app_inv in H as (_ & Hl & Hdis).
  intros [->|Ha] [->|Hb] Hxa Hxb; auto.
  - exfalso. apply (Hdis x Hxa). apply in_flat_map. eauto.
  - exfalso. apply (Hdis x Hxb). apply in_flat_map. eauto.
Qed.

Section RunExact.
Context {E : Externals}.

Lemma worker_match_in_block (blk : block) (ct ft : Q) (ms : list match_dict)
  (m : match_dict) :
  process_block_worker (blk, ct, ft) = Ok ms -> In m ms ->
  In (record_a_idx m) (map fst blk) /\ In (record_b_idx m) (map fst blk).
Proof.
  intros Hw Hin. destruct (@process_block_worker_origin E blk ct ft ms Hw) as [matched Hall].
  rewrite Forall_forall in Hall.
  destruct (Hall m Hin) as (i & j & a & b & (_ & Hi & Hj & _) & _).
  split; apply in_map_iff.
  - exists (record_a_idx m, a). split; [reflexivity | exact (@nth_error_In _ _ _ _ Hi)].
  - exists (record_b_idx m, b). split; [reflexivity | exact (@nth_error_In _ _ _ _ Hj)].
Qed.

(** Two matches of a run that share a row come from one block. *)
Lemma run_matches_one_block (self : checker) (completion : nat -> list nat)
  (df : frame) (ct : Q) (ms : list match_dict) (m1 m2 : match_dict) (x : Z) :
  analyze_duplicates self completion df ct = Ok ms -> In m1 ms -> In m2 ms ->
  (x = record_a_idx m1 \/ x = record_b_idx m1) ->
  (x = record_a_idx m2 \/ x = record_b_idx m2) ->
  exists blk ms',
    ascending blk
    /\ process_block_worker (blk, ct, fuzzy_threshold self) = Ok ms'
    /\ In m1 ms' /\ In m2 ms'.
Proof.
  intros Hrun Hin1 Hin2 Hx1 Hx2.
  destruct (@analyze_duplicates_block E self completion df ct ms m1 Hrun Hin1)
    as (blocks & k1 & blk1 & ms1 & Hb & Hblk1 & Hw1 & Hm1).
  destruct (@analyze_duplicates_block E self completion df ct ms m2 Hrun Hin2)
    as (blocks' & k2 & blk2 & ms2 & Hb' & Hblk2 & Hw2 & Hm2).
  rewrite Hb in Hb'. injection Hb' as <-.
  pose proof (@create_blocks_disjoint E _ _ _ _ Hb) as Hnd.
  destruct (@create_blocks_sized E _ _ _ _ Hb) as [_ Hsized].
  rewrite Forall_forall in Hsized.
  assert (Hasc : ascending blk1).
  { destruct (Hsized blk1) as [[H _] _]; [|exact H].
    apply in_map_iff. now exists (k1, blk1). }
  destruct (@worker_match_in_block _ _ _ _ _ Hw1 Hm1) as [Ha1 Hb1].
  destruct (@worker_match_in_block _ _ _ _ _ Hw2 Hm2) as [Ha2 Hb2].
  assert (Hx1' : In x (map fst blk1)) by (destruct Hx1 as [->| ->]; assumption).
  assert (Hx2' : In x (map fst blk2)) by (destruct Hx2 as [->| ->]; assumption).
  assert (Heq : (k1, blk1) = (k2, blk2))
    by exact (@flat_map_NoDup_inj _ _ (fun kb : pystr * block => map fst (snd kb))
                blocks _ _ x Hnd Hblk1 Hblk2 Hx1' Hx2').
  injection Heq as <- <-. rewrite Hw1 in Hw2. injection Hw2 as <-.
  exists blk1, ms1. auto.
Qed.

End RunExact.

(** X26. In a run, stage 1 preempts stage 2: a row of an exact match is
    a row of no match of another kind. *)
Theorem run_exact_rows_are_consumed (E : Externals) (self : checker)
  (completion : nat -> list nat) (df : frame) (ct : Q)
  (ms : list match_dict) (m1 m2 : match_dict) :
  analyze_duplicates self completion df ct = Ok ms -> In m1 ms -> In m2 ms ->
  is_exact (match_type m1) = true -> is_exact (match_type m2) = false ->
  record_a_idx m1 <> record_a_idx m2 /\ record_a_idx m1 <> record_b_idx m2
  /\ record_b_idx m1 <> record_a_idx m2 /\ record_b_idx m1 <> record_b_idx m2.
Proof.
  intros Hrun Hin1 Hin2 He1 He2.
  assert (Hshared : forall x,
             (x = record_a_idx m1 \/ x = record_b_idx m1) ->
             (x = record_a_idx m2 \/ x = record_b_idx m2) -> False).
  { intros x Hx1 Hx2.
    destruct (@run_matches_one_block E self completion df ct ms m1 m2 x
                Hrun Hin1 Hin2 Hx1 Hx2) as (blk & ms' & Hasc & Hw & Hm1 & Hm2).
    destruct (@process_block_worker_origin E blk ct _ ms' Hw) as [matched Hall].
    destruct (@exact_rows_apart E blk _ matched ms' m1 m2
                (ascending_NoDup Hasc) Hall Hm1 Hm2 He1 He2) as (H1 & H2 & H3 & H4).
    destruct Hx1 as [->| ->], Hx2 as [Hx2|Hx2]; congruence. }
  split; [|split; [|split]]; intros Heq.
  - apply (Hshared (record_a_idx m1)); [now left | left; exact Heq].
  - apply (Hshared (record_a_idx m1)); [now left | right; exact Heq].
  - apply (Hshared (record_b_idx m1)); [now right | left; exact Heq].
  - apply (Hshared (record_b_idx m1)); [now right | right; exact Heq].
Qed.

Lemma run_exact_rows_are_consumed_witness :
  record_a_idx (nth 0 mixed_run_matches no_match)
  <> record_a_idx (nth 1 mixed_run_matches no_match)
  /\ record_a_idx (nth 0 mixed_run_matches no_match)
     <> record_b_idx (nth 1 mixed_run_matches no_match)
  /\ record_b_idx (nth 0 mixed_run_matches no_match)
     <> record_a_idx (nth 1 mixed_run_matches no_match)
  /\ record_b_idx (nth 0 mixed_run_matches no_match)
     <> record_b_idx (nth 1 mixed_run_matches no_match).
Proof.
  apply (@run_exact_rows_are_consumed Latin1.externals sequential_checker
           (fun n => seq 0 n) mixed_frame 70 mixed_run_matches).
  - vm_compute. reflexivity.
  - vm_compute. left. reflexivity.
  - vm_compute. right. left. reflexivity.
  - vm_compute. reflexivity.
  - vm_compute. reflexivity.
Defined.

(** ** The spellings of Strasse *)

Lemma letter_bounds (c : cp) : is_az c || is_AZ c = true -> 65 <= c <= 90 \/ 97 <= c <= 122.
Proof.
  unfold is_az, is_AZ. rewrite orb_true_iff, !andb_true_iff, !N.leb_le. tauto.
Qed.

Lemma visible_not_space (c : cp) : 33 <= c <= 127 -> is_space c = false.
Proof.
  intros Hc. apply not_true_is_false. unfold is_space.
  rewrite !orb_true_iff, !andb_true_iff, !N.leb_le, !N.eqb_eq. lia.
Qed.

Lemma strip_no_space (s : pystr) : Forall (fun c => is_space c = false) s -> strip s = s.
Proof.
  intros H. unfold strip, rstrip.
  rewrite (@lstrip_fixed s) by (destruct H; [exact I | assumption]).
  apply Forall_rev in H. rewrite (@lstrip_fixed (rev s)).
  - apply rev_involutive.
  - destruct H; [exact I | assumption].
Qed.

Lemma collapse_no_space (b : bool) (s : pystr) :
  Forall (fun c => is_space c = false) s -> collapse_ws_from b s = s.
Proof.
  intros H. revert b. induction H as [|c s Hc _ IH]; intros b; simpl; [reflexivity|].
  rewrite Hc. now f_equal.
Qed.

Lemma match_suffix_whole (lit : pystr) : match_suffix lit false lit = Some [].
Proof.
  unfold match_suffix.
  assert (Hs : starts_with lit lit = true)
    by (apply starts_with_prefix; exists []; now rewrite app_nil_r).
  rewrite Hs, skipn_all. reflexivity.
Qed.

Lemma match_suffix_whole_dot (lit : pystr) (d : cp) :
  d <> 10 -> match_suffix lit true (lit ++ [d]) = Some [].
Proof.
  intros Hd. unfold match_suffix.
  assert (Hs : starts_with lit (lit ++ [d]) = true)
    by (apply starts_with_prefix; now exists [d]).
  rewrite Hs, skipn_app, skipn_all, Nat.sub_diag. simpl.
  apply N.eqb_neq in Hd. now rewrite Hd.
Qed.

Lemma match_suffix_before (lit s : pystr) :
  s <> [] -> ~ In 10 (s ++ lit) -> match_suffix lit false (s ++ lit) = None.
Proof.
  intros Hs Hn. destruct (match_suffix lit false (s ++ lit)) as [r|] eqn:Hm; [|reflexivity].
  apply match_suffix_plain in Hm as [Heq Hr]. apply at_end_nil in Hr.
  - subst r. apply (f_equal (@List.length cp)) in Heq.
    rewrite !length_app in Heq. simpl in Heq.
    destruct s; [congruence | simpl in Heq; lia].
  - intros Hin. apply Hn. rewrite Heq. apply in_or_app. now right.
Qed.

Lemma match_suffix_before_dot (lit s : pystr) (d : cp) :
  s <> [] -> ~ In 10 (s ++ lit ++ [d]) -> match_suffix lit true (s ++ lit ++ [d]) = None.
Proof.
  intros Hs Hn.
  destruct (match_suffix lit true (s ++ lit ++ [d])) as [r|] eqn:Hm; [|reflexivity].
  apply match_suffix_dot in Hm as (c & Heq & Hr). apply at_end_nil in Hr.
  - subst r. apply (f_equal (@List.length cp)) in Heq.
    rewrite !length_app in Heq. simpl in Heq.
    destruct s; [congruence | simpl in Heq; lia].
  - intros Hin. apply Hn. rewrite Heq. apply in_or_app. right. now right.
Qed.

Lemma sub_suffix_match (lit : pystr) (dot : bool) (new s r : pystr) :
  match_suffix lit dot s = Some r -> s <> [] -> sub_suffix lit dot new s = new ++ r.
Proof.
  intros Hm Hs. destruct s as [|c s]; [congruence|]. now rewrite sub_suffix_unfold, Hm.
Qed.

(** The pattern [lit$] replaced at the end of a string. *)
Lemma sub_suffix_end (lit new s : pystr) :
  lit <> [] -> ~ In 10 (s ++ lit) -> sub_suffix lit false new (s ++ lit) = s ++ new.
Proof.
  intros Hlit. induction s as [|c s IH]; intros Hn.
  - simpl. rewrite (@sub_suffix_match lit false new lit [] (match_suffix_whole lit) Hlit).
    now rewrite app_nil_r.
  - change ((c :: s) ++ lit) with (c :: (s ++ lit)). rewrite sub_suffix_unfold.
    change (c :: (s ++ lit)) with ((c :: s) ++ lit).
    rewrite match_suffix_before by (discriminate || exact Hn).
    simpl. f_equal. apply IH. intros Hin. apply Hn. now right.
Qed.

(** The pattern [lit.$] replaced at the end of a string. *)
Lemma sub_suffix_end_dot (lit new s : pystr) (d : cp) :
  ~ In 10 (s ++ lit ++ [d]) -> sub_suffix lit true new (s ++ lit ++ [d]) = s ++ new.
Proof.
  induction s as [|c s IH]; intros Hn.
  - simpl. rewrite (@sub_suffix_match lit true new (lit ++ [d]) []).
    + now rewrite app_nil_r.
    + apply match_suffix_whole_dot. intros ->. apply Hn. simpl.
      apply in_or_app. right. now left.
    + intros H. apply app_eq_nil in H as [_ H]. discriminate H.
  - change ((c :: s) ++ lit ++ [d]) with (c :: (s ++ lit ++ [d])). rewrite sub_suffix_unfold.
    change (c :: (s ++ lit ++ [d])) with ((c :: s) ++ lit ++ [d]).
    rewrite match_suffix_before_dot by (discriminate || exact Hn).
    simpl. f_equal. apply IH. intros Hin. apply Hn. now right.
Qed.

Section Strasse.
Context {E : Externals}.

Lemma az_not_space (s : pystr) :
  Forall (fun c => is_az c = true) s -> Forall (fun c => is_space c = false) s.
Proof.
  apply Forall_impl. intros c Hc. apply is_az_bounds in Hc. apply visible_not_space. lia.
Qed.

Lemma az_is_az_or_space (s : pystr) :
  Forall (fun c => is_az c = true) s -> Forall az_or_space s.
Proof. apply Forall_impl. intros c Hc. now left. Qed.

(** The normalizer after the suffix map, on a string of letters. *)
Lemma normalize_street_via (s y : pystr) :
  replace_suffixes (lower (strip s)) = y -> Forall (fun c => is_az c = true) y ->
  normalize_street_vectorized (VStr s) = y.
Proof.
  intros Hy Haz. pose proof (az_is_az_or_space Haz) as Hc.
  assert (Hp : Forall plain y)
    by (eapply Forall_impl; [|exact Hc]; apply az_or_space_plain).
  assert (Hd : Forall (fun c => is_digit c = false) y)
    by (eapply Forall_impl; [|exact Hc]; apply az_or_space_not_digit).
  assert (Hk : Forall (fun c => is_az c || is_space c = true) y)
    by (eapply Forall_impl; [|exact Hc]; apply az_or_space_kept).
  assert (Hu : (if truthy y then unidecode y else []) = y).
  { destruct y as [|c y]; [reflexivity|]. cbn [truthy]. now apply unidecode_plain. }
  unfold normalize_street_vectorized. cbn [fillna_str]. cbv zeta.
  rewrite Hy, (sub_house_end_no_digit Hd), (sub_house_start_no_digit Hd).
  rewrite (@replace_char_plain 223 (u "ss") y eq_refl Hp), Hu.
  unfold keep_az_space. rewrite (filter_all _ Hk).
  unfold collapse_ws. rewrite (collapse_no_space false (az_not_space Haz)).
  apply strip_no_space, az_not_space, Haz.
Qed.

Lemma lower_letters (stem lit : pystr) :
  Forall (fun c => is_az c || is_AZ c = true) stem -> Forall plain lit ->
  lower (stem ++ lit) = map ascii_lower stem ++ lit.
Proof.
  intros Hs Hl. unfold lower. rewrite forallb_ascii.
  - rewrite map_app. f_equal.
    induction Hl as [|c l [_ Hc] _ IH]; simpl; [reflexivity|].
    unfold ascii_lower at 1. rewrite Hc. now f_equal.
  - apply Forall_app. split.
    + eapply Forall_impl; [|exact Hs]. intros c Hc. apply letter_bounds in Hc.
      unfold is_ascii. apply N.ltb_lt. lia.
    + eapply Forall_impl; [|exact Hl]. now intros c [Hc _].
Qed.

Lemma lower_letters_az (stem : pystr) :
  Forall (fun c => is_az c || is_AZ c = true) stem ->
  Forall (fun c => is_az c = true) (map ascii_lower stem).
Proof.
  intros H. apply Forall_map. eapply Forall_impl; [|exact H].
  intros c Hc. cbv beta in Hc. unfold ascii_lower. destruct (is_AZ c) eqn:HAZ.
  - unfold is_AZ in HAZ. apply andb_true_iff in HAZ as [H1 H2]. apply N.leb_le in H1, H2.
    unfold is_az. apply andb_true_iff. split; apply N.leb_le; lia.
  - now rewrite orb_false_r in Hc.
Qed.

Lemma letters_not_space (stem lit : pystr) :
  Forall (fun c => is_az c || is_AZ c = true) stem ->
  Forall (fun c => is_space c = false) lit ->
  strip (stem ++ lit) = stem ++ lit.
Proof.
  intros Hs Hl. apply strip_no_space, Forall_app. split; [|exact Hl].
  eapply Forall_impl; [|exact Hs]. intros c Hc. apply letter_bounds in Hc.
  apply visible_not_space. lia.
Qed.

End Strasse.

Section StrasseSpellings.
Context {E : Externals}.
Variable t : pystr.
Hypothesis t_az : Forall (fun c => is_az c = true) t.

Lemma strasse_az : Forall (fun c => is_az c = true) (t ++ u "strasse").
Proof. apply Forall_app. split; [exact t_az|]. vm_compute. repeat constructor. Qed.

Lemma str_az : Forall (fun c => is_az c = true) (t ++ u "str").
Proof. apply Forall_app. split; [exact t_az|]. vm_compute. repeat constructor. Qed.

Lemma strasse_kept_plain (lit : pystr) :
  endswith (u "strasse") lit = false -> (List.length lit <= 7)%nat ->
  sub_suffix lit false (u "strasse") (t ++ u "strasse") = t ++ u "strasse".
Proof.
  intros He Hlen. apply sub_suffix_no_match.
  apply no_plain_match; [apply az_is_az_or_space, strasse_az|].
  destruct (endswith (t ++ u "strasse") lit) eqn:Hend; [|reflexivity].
  apply endswith_suffix in Hend as [q Hq].
  assert (Hs : endswith (u "strasse") lit = true); [|congruence].
  apply endswith_suffix.
  assert (Hl : List.length (u "strasse") = 7%nat) by reflexivity.
  assert (Hrev : rev (u "strasse") ++ rev t = rev lit ++ rev q)
    by (rewrite <- !rev_app_distr; now f_equal).
  exists (rev (skipn (List.length lit) (rev (u "strasse")))).
  rewrite <- (rev_involutive lit) at 2. rewrite <- rev_app_distr. 
  rewrite <- (rev_involutive (u "strasse")) at 1. f_equal.
  assert (Hf : firstn (List.length lit) (rev (u "strasse")) = rev lit).
  { apply (f_equal (firstn (List.length lit))) in Hrev.
    rewrite firstn_app in Hrev.
    replace (List.length lit - List.length (rev (u "strasse")))%nat with 0%nat in Hrev
      by (rewrite length_rev; unfold pystr, cp in *; lia).
    rewrite firstn_O, app_nil_r in Hrev. rewrite Hrev.
    rewrite <- (length_rev lit). rewrite firstn_app, Nat.sub_diag, firstn_O, app_nil_r.
    apply firstn_all. }
  rewrite <- Hf. symmetry. apply firstn_skipn.
Qed.

Lemma strasse_kept_dot :
  sub_suffix (u "str") true (u "strasse") (t ++ u "strasse") = t ++ u "strasse".
Proof.
  apply sub_suffix_no_match.
  apply no_dot_match; [apply az_is_az_or_space, strasse_az|].
  assert (Hl : u "strasse" <> []) by (vm_compute; discriminate).
  rewrite (removelast_app _ Hl). unfold endswith. rewrite rev_app_distr.
  vm_compute. reflexivity.
Qed.

Lemma str_kept_dot :
  sub_suffix (u "str") true (u "strasse") (t ++ u "str") = t ++ u "str".
Proof.
  apply sub_suffix_no_match.
  apply no_dot_match; [apply az_is_az_or_space, str_az|].
  assert (Hl : u "str" <> []) by (vm_compute; discriminate).
  rewrite (removelast_app _ Hl). unfold endswith. rewrite rev_app_distr.
  vm_compute. reflexivity.
Qed.

Lemma str_kept_eszett :
  sub_suffix (u "straße") false (u "strasse") (t ++ u "str") = t ++ u "str".
Proof.
  apply sub_suffix_no_match.
  apply no_plain_match; [apply az_is_az_or_space, str_az|].
  unfold endswith. rewrite rev_app_distr. vm_compute. reflexivity.
Qed.

Lemma no_newline_az (s : pystr) : Forall (fun c => is_az c = true) s -> ~ In 10 s.
Proof. intros H. apply az_or_space_no_newline, az_is_az_or_space, H. Qed.

(** The suffix map on the three ASCII spellings. *)
Lemma replace_suffixes_strasse :
  replace_suffixes (t ++ u "str.") = t ++ u "strasse"
  /\ replace_suffixes (t ++ u "str") = t ++ u "strasse"
  /\ replace_suffixes (t ++ u "strasse") = t ++ u "strasse".
Proof.
  assert (He1 : endswith (u "strasse") (u "straße") = false) by (vm_compute; reflexivity).
  assert (He2 : endswith (u "strasse") (u "str") = false) by (vm_compute; reflexivity).
  assert (Hl1 : (List.length (u "straße") <= 7)%nat) by (vm_compute; lia).
  assert (Hl2 : (List.length (u "str") <= 7)%nat) by (vm_compute; lia).
  assert (Hdot : sub_suffix (u "str") true (u "strasse") (t ++ u "str.") = t ++ u "strasse").
  { change (u "str.") with (u "str" ++ [46]).
    apply sub_suffix_end_dot. intros Hin.
    apply in_app_iff in Hin as [Hin|Hin]; [exact (no_newline_az t_az Hin)|].
    vm_compute in Hin. intuition discriminate. }
  assert (Hend : sub_suffix (u "str") false (u "strasse") (t ++ u "str") = t ++ u "strasse").
  { apply sub_suffix_end; [vm_compute; discriminate|]. exact (no_newline_az str_az). }
  unfold replace_suffixes, suffix_map. cbn [fold_left].
  repeat split.
  - rewrite Hdot, (@strasse_kept_plain (u "straße") He1 Hl1), (@strasse_kept_plain (u "str") He2 Hl2).
    rewrite !sub_suffix_same. reflexivity.
  - rewrite str_kept_dot, str_kept_eszett, Hend.
    rewrite !sub_suffix_same. reflexivity.
  - rewrite strasse_kept_dot, (@strasse_kept_plain (u "straße") He1 Hl1), (@strasse_kept_plain (u "str") He2 Hl2).
    rewrite !sub_suffix_same. reflexivity.
Qed.

End StrasseSpellings.

(** X27. At the end of a street name of letters, the spellings "str.",
    "str" and "strasse" are one: all three normalize to the lower-case
    name followed by "strasse". *)
Theorem strasse_spellings_agree (E : Externals) (stem : pystr) :
  Forall (fun c => is_az c || is_AZ c = true) stem ->
  normalize_street_vectorized (VStr (stem ++ u "str."))
  = map ascii_lower stem ++ u "strasse"
  /\ normalize_street_vectorized (VStr (stem ++ u "str"))
     = map ascii_lower stem ++ u "strasse"
  /\ normalize_street_vectorized (VStr (stem ++ u "strasse"))
     = map ascii_lower stem ++ u "strasse".
Proof.
  intros Hstem. pose proof (lower_letters_az Hstem) as Haz.
  destruct (@replace_suffixes_strasse _ Haz) as (H1 & H2 & H3).
  assert (Hy : Forall (fun c => is_az c = true) (map ascii_lower stem ++ u "strasse"))
    by exact (@strasse_az _ Haz).
  repeat split; (apply normalize_street_via; [|exact Hy]);
    rewrite letters_not_space, lower_letters;
    try assumption; try (vm_compute; repeat constructor).
Qed.

Lemma strasse_spellings_agree_witness :
  @normalize_street_vectorized Latin1.externals (VStr (u "Haupt" ++ u "str."))
  = map ascii_lower (u "Haupt") ++ u "strasse"
  /\ @normalize_street_vectorized Latin1.externals (VStr (u "Haupt" ++ u "str"))
     = map ascii_lower (u "Haupt") ++ u "strasse"
  /\ @normalize_street_vectorized Latin1.externals (VStr (u "Haupt" ++ u "strasse"))
     = map ascii_lower (u "Haupt") ++ u "strasse".
Proof.
  apply (@strasse_spellings_agree Latin1.externals (u "Haupt")).
  vm_compute. repeat constructor.
Defined.
